(** * Anime-API response cache: a shallow embedding of [src/middlewares/cache.ts]

    The development models the cache manager ([AdvancedCache]), its two store
    adapters ([NodeCacheAdapter], [RedisCacheAdapter]) and the JavaScript
    values they handle, and proves the properties the specification states
    about them: key derivation, the read-through flow of the middleware,
    eviction under a key ceiling, failure handling of the networked adapter,
    its reconnection policy, and invalidation by pattern.

    Conventions of the embedding:
    - a JavaScript string is a [string]: a sequence of code units below 256;
    - a JavaScript number is an integer [Z] (integer-valued numbers only;
      fractions, NaN and the infinities are left out), and the one
      floating-point product of the source is modelled bit for bit;
    - a plain object is the list of its own enumerable properties in the
      order [Object.keys] reports them: array indices first, ascending, then
      the other keys in the order they were created;
    - code that may throw runs in the monad [M]: state passing with an
      outcome [Ok] or [Throw]; the state reached when an exception is thrown
      is kept, as in JavaScript;
    - an awaited call is a call, a rejected promise is a [Throw], and a
      write that is started without being awaited takes effect where it is
      started;
    - the packages the source imports (Express, node-cache, ioredis) are not
      part of the repository: the request is a record of what the source
      reads from it, the client of the networked store is a parameter, and
      node-cache and the client's reconnection loop are modelled by their
      documented behaviour.

    The file has two parts: the definitions, in the order of the source,
    followed by the notions the statements use and by examples; then the
    properties. *)

From Stdlib Require Import ZArith NArith List String Ascii Bool Lia.
From Stdlib Require Import DecimalString DecimalPos DecimalZ.
Import ListNotations.
Open Scope list_scope.
Open Scope string_scope.
Open Scope Z_scope.

(** ** JavaScript values *)

#[warnings="-register-all"]
Inductive jsval : Type :=
| JUndefined
| JNull
| JBool (b : bool)
| JNum (n : Z)
| JStr (s : string)
| JArr (items : list jsval)
| JObj (props : list (string * jsval)).

(** ToBoolean: what [if (v)], [v || d] and [v ? a : b] test. *)
Definition truthy (v : jsval) : bool :=
  match v with
  | JUndefined | JNull => false
  | JBool b => b
  | JNum n => negb (n =? 0)
  | JStr s => negb (s =? "")%string
  | JArr _ | JObj _ => true
  end.

(** Number::toString on an integer, and on an array position. *)
Definition string_of_Z (n : Z) : string := NilZero.string_of_int (Z.to_int n).
Definition string_of_index (i : nat) : string := NilZero.string_of_uint (Nat.to_uint i).

(** An array index is a canonical numeric string below 2^32 - 1; property
    keys that are array indices are enumerated first, in ascending order. *)
Definition array_index (k : string) : option N :=
  match NilZero.uint_of_string k with
  | Some d =>
      let n := N.of_uint d in
      if ((NilZero.string_of_uint (N.to_uint n) =? k)%string && (n <? 4294967295)%N)%bool
      then Some n else None
  | None => None
  end.

(** ** Plain objects as ordered property lists *)

Section Objects.
Context {A : Type}.

Definition obj := list (string * A).

Fixpoint obj_get (k : string) (o : obj) : option A :=
  match o with
  | [] => None
  | (k', v) :: r => if (k' =? k)%string then Some v else obj_get k r
  end.

Definition obj_has (k : string) (o : obj) : bool :=
  match obj_get k o with Some _ => true | None => false end.

Fixpoint obj_replace (k : string) (v : A) (o : obj) : obj :=
  match o with
  | [] => []
  | (k', v') :: r =>
      if (k' =? k)%string then (k', v) :: r else (k', v') :: obj_replace k v r
  end.

(** Whether a new key [k] is enumerated before the existing key [k']. *)
Definition key_before (k k' : string) : bool :=
  match array_index k, array_index k' with
  | Some n, Some n' => (n <? n')%N
  | Some _, None => true
  | None, _ => false
  end.

Fixpoint obj_insert (k : string) (v : A) (o : obj) : obj :=
  match o with
  | [] => [(k, v)]
  | (k', v') :: r =>
      if key_before k k' then (k, v) :: o else (k', v') :: obj_insert k v r
  end.

(** [o[k] = v]: an existing property keeps its place, a new one is created
    after the existing ones (among the array indices: at its rank). *)
Definition obj_set (k : string) (v : A) (o : obj) : obj :=
  if obj_has k o then obj_replace k v o else obj_insert k v o.

(** [o[k] = v] on an object made by the literal [{}] that holds data
    properties only. Such an object inherits the accessor [__proto__] from
    [Object.prototype]: for that key the assignment runs the inherited
    setter, which at most changes the prototype of [o] and creates no own
    property, so neither [Object.keys] nor [JSON.stringify] shows anything
    of it. For every other key the assignment is [obj_set]. *)
Definition assign (k : string) (v : A) (o : obj) : obj :=
  if (k =? "__proto__")%string then o else obj_set k v o.

(** [delete o[k]]. *)
Fixpoint obj_delete (k : string) (o : obj) : obj :=
  match o with
  | [] => []
  | (k', v') :: r =>
      if (k' =? k)%string then r else (k', v') :: obj_delete k r
  end.

Definition obj_keys (o : obj) : list string := map fst o.
End Objects.
Arguments obj : clear implicits.

(** [Object.keys(v)] for a value that passed a truthiness test. *)
Definition chars_of (s : string) : list jsval :=
  map (fun c => JStr (String c "")) (list_ascii_of_string s).

Definition Object_keys (v : jsval) : list string :=
  match v with
  | JObj props => obj_keys props
  | JArr items => map string_of_index (seq 0 (List.length items))
  | JStr s => map string_of_index (seq 0 (String.length s))
  | _ => []
  end.

(** [v[k]] for an own property key. *)
Definition nth_item (items : list jsval) (k : string) : jsval :=
  match array_index k with
  | Some n => nth (N.to_nat n) items JUndefined
  | None => JUndefined
  end.

Definition get_prop (v : jsval) (k : string) : jsval :=
  match v with
  | JObj props => match obj_get k props with Some x => x | None => JUndefined end
  | JArr items => nth_item items k
  | JStr s => nth_item (chars_of s) k
  | _ => JUndefined
  end.

(** ** JSON.stringify *)

Definition dquote : ascii := "034"%char.
Definition bslash : ascii := "092"%char.

Definition hex_digit (n : N) : ascii :=
  ascii_of_N (if (n <? 10)%N then 48 + n else 87 + n).

(** QuoteJSONString, one code unit. *)
Definition escape_char (c : ascii) : string :=
  let n := N_of_ascii c in
  if (n =? 8)%N then String bslash "b"
  else if (n =? 9)%N then String bslash "t"
  else if (n =? 10)%N then String bslash "n"
  else if (n =? 12)%N then String bslash "f"
  else if (n =? 13)%N then String bslash "r"
  else if (n =? 34)%N then String bslash (String dquote "")
  else if (n =? 92)%N then String bslash (String bslash "")
  else if (n <? 32)%N then
    String bslash (String "u" (String "0" (String "0"
      (String (hex_digit (n / 16)) (String (hex_digit (n mod 16)) "")))))
  else String c "".

Fixpoint escape (s : string) : string :=
  match s with
  | EmptyString => ""
  | String c r => escape_char c ++ escape r
  end.

Definition quote (s : string) : string :=
  String dquote (escape s ++ String dquote "").

(** SerializeJSONProperty: [None] is the [undefined] result, which an array
    prints as [null] and an object leaves out together with its key. *)
Fixpoint ser (v : jsval) : option string :=
  match v with
  | JUndefined => None
  | JNull => Some "null"
  | JBool true => Some "true"
  | JBool false => Some "false"
  | JNum n => Some (string_of_Z n)
  | JStr s => Some (quote s)
  | JArr items =>
      Some ("[" ++ String.concat ","
              (map (fun x => match ser x with Some s => s | None => "null" end) items)
            ++ "]")
  | JObj props =>
      Some ("{" ++ String.concat ","
              (flat_map (fun p => match ser (snd p) with
                                  | Some s => [quote (fst p) ++ ":" ++ s]
                                  | None => []
                                  end) props)
            ++ "}")
  end.

Definition JSON_stringify (v : jsval) : option string := ser v.

(** [Array.prototype.join]: an [undefined] element contributes the empty string. *)
Definition join (sep : string) (parts : list (option string)) : string :=
  String.concat sep (map (fun p => match p with Some s => s | None => "" end) parts).

(** ** Requests and cache configuration *)

(** The part of an Express request the cache reads. [get] is Express's
    header lookup [req.get(name)]; [query] is always an object, [body] is
    whatever the body parser left ([undefined] without one). *)
Module Request.
Record t : Type := {
  method : string;
  path : string;
  query : jsval;
  body : jsval;
  get : string -> jsval
}.
End Request.

(** [interface CacheConfig]. [None] is [undefined]: the three lists and the
    generator are optional, and spreading a [Partial<CacheConfig>] can leave
    any property [undefined]. *)
Record CacheConfig : Type := {
  duration : option Z;
  keyParams : option (list string);
  ignoreParams : option (list string);
  varyByHeaders : option (list string);
  customKeyGenerator : option (Request.t -> string)
}.

(** [interface CacheOptions]; [None] is an omitted (or NaN) setting. *)
Record CacheOptions : Type := {
  defaultTTL : Z;
  checkPeriod : option Z;
  maxKeys : option Z
}.

(** [xs?.length] as a condition. *)
Definition has_length (xs : option (list string)) : bool :=
  match xs with
  | Some (_ :: _) => true
  | _ => false
  end.

(** [xs.includes(k)]. *)
Definition includes (xs : list string) (k : string) : bool :=
  existsb (fun x => (x =? k)%string) xs.

(** [xs?.includes(k)] as a condition: [undefined] is falsy. *)
Definition opt_includes (xs : option (list string)) (k : string) : bool :=
  match xs with
  | Some l => includes l k
  | None => false
  end.

(** The same request with another body. *)
Definition with_body (req : Request.t) (b : jsval) : Request.t :=
  {| Request.method := Request.method req; Request.path := Request.path req;
     Request.query := Request.query req; Request.body := b;
     Request.get := Request.get req |}.

(** The same request with another query object, and with another value
    for one header. *)
Definition with_query (req : Request.t) (q : jsval) : Request.t :=
  {| Request.method := Request.method req; Request.path := Request.path req;
     Request.query := q; Request.body := Request.body req;
     Request.get := Request.get req |}.

Definition with_header (req : Request.t) (name : string) (value : jsval) : Request.t :=
  {| Request.method := Request.method req; Request.path := Request.path req;
     Request.query := Request.query req; Request.body := Request.body req;
     Request.get := fun h => if (h =? name)%string then value else Request.get req h |}.

(** The test guarding [queryParams[key] = ...] and [bodyParams[key] = ...]. *)
Definition param_selected (config : CacheConfig) (key : string) : bool :=
  (negb (has_length (keyParams config)) || opt_includes (keyParams config) key)
  && negb (opt_includes (ignoreParams config) key).

(** [Object.keys(source).forEach(key => { if (...) params[key] = source[key] })]. *)
Definition select_params (config : CacheConfig) (source : jsval) : obj jsval :=
  fold_left
    (fun params key =>
       if param_selected config key then assign key (get_prop source key) params
       else params)
    (Object_keys source) [].

Definition queryParams (config : CacheConfig) (req : Request.t) : obj jsval :=
  if truthy (Request.query req) then select_params config (Request.query req) else [].

Definition bodyParams (config : CacheConfig) (req : Request.t) : obj jsval :=
  if truthy (Request.body req)
     && ((Request.method req =? "POST")%string || (Request.method req =? "PUT")%string)
  then select_params config (Request.body req) else [].

Definition headers (config : CacheConfig) (req : Request.t) : obj jsval :=
  if has_length (varyByHeaders config) then
    fold_left
      (fun hs header =>
         let headerValue := Request.get req header in
         if truthy headerValue then assign header headerValue hs else hs)
      (match varyByHeaders config with Some l => l | None => [] end) []
  else [].

(** [AdvancedCache.generateCacheKey]. *)
Definition generateCacheKey (req : Request.t) (config : CacheConfig) : string :=
  match customKeyGenerator config with
  | Some generator => generator req
  | None =>
      join "|"
        [ Some (Request.method req); Some (Request.path req);
          JSON_stringify (JObj (queryParams config req));
          JSON_stringify (JObj (bodyParams config req));
          JSON_stringify (JObj (headers config req)) ]
  end.

(** ** Effects: state, exceptions and the console *)

(** A thrown value: an error object with its [errorcode] (node-cache sets
    one; the empty string elsewhere) and its message. *)
Record Error : Type := { errorcode : string; message : string }.

Inductive outcome (A : Type) : Type :=
| Ok (a : A)
| Throw (e : Error).
Arguments Ok {A} a.
Arguments Throw {A} e.

Definition M (St A : Type) : Type := St -> outcome A * St.

Definition ret {St A} (a : A) : M St A := fun s => (Ok a, s).

Definition throw {St A} (e : Error) : M St A := fun s => (Throw e, s).

Definition bind {St A B} (c : M St A) (k : A -> M St B) : M St B :=
  fun s =>
    match c s with
    | (Ok a, s') => k a s'
    | (Throw e, s') => (Throw e, s')
    end.

(** [try { c } catch (e) { handler e }]. *)
Definition try_catch {St A} (c : M St A) (handler : Error -> M St A) : M St A :=
  fun s =>
    match c s with
    | (Ok a, s') => (Ok a, s')
    | (Throw e, s') => handler e s'
    end.

Definition gets {St A} (f : St -> A) : M St A := fun s => (Ok (f s), s).

Definition modify {St} (f : St -> St) : M St unit := fun s => (Ok tt, f s).

Declare Scope monad_scope.
Delimit Scope monad_scope with monad.
Notation "x <- c ;; k" := (bind c (fun x => k))
  (at level 61, c at next level, right associativity) : monad_scope.
Notation "c ;; k" := (bind c (fun _ => k))
  (at level 61, right associativity) : monad_scope.
Open Scope monad_scope.

(** [xs.forEach(f)] and counted loops over a list. *)
Fixpoint for_each {St A} (xs : list A) (f : A -> M St unit) : M St unit :=
  match xs with
  | [] => ret tt
  | x :: r => f x ;; for_each r f
  end.

(** What a store adapter runs in: its own state, the console
    ([console.error] lines with the error they print) and [Date.now()] in
    milliseconds. *)
Record Env (St : Type) : Type := {
  store : St;
  console : list (string * option Error);
  now : Z
}.
Arguments store {St} e.
Arguments console {St} e.
Arguments now {St} e.

Definition set_store {St} (e : Env St) (s : St) : Env St :=
  {| store := s; console := console e; now := now e |}.

Definition console_error {St} (line : string) (error : option Error) : M (Env St) unit :=
  modify (fun e => {| store := store e; console := console e ++ [(line, error)]; now := now e |}).

(** ** The store adapter interface: [interface CacheAdapter] *)

Module CacheAdapter.
Record t (St : Type) : Type := {
  get : string -> M (Env St) jsval;
  set : string -> jsval -> option Z -> M (Env St) unit;
  del : string -> M (Env St) unit;
  keys : M (Env St) (list string);
  flushAll : M (Env St) unit
}.
Arguments get {St} _ _.
Arguments set {St} _ _ _ _.
Arguments del {St} _ _.
Arguments keys {St} _.
Arguments flushAll {St} _.
End CacheAdapter.

(** ** The node-cache package *)

(** Modelled from the spec: the node-cache package is a third-party
    dependency, its source is not part of the repository. The model keeps
    what the specification and the adapter rely on: a table of entries with
    an absolute expiry, [get] reporting an expired entry absent (and dropping
    it), a [maxKeys] ceiling that makes [set] throw [ECACHEFULL] when the
    table is full and that is off when negative, [del], [keys] in table
    order, [flushAll], and the periodic sweep. *)
Module NodeCache.
Record Options : Type := { stdTTL : Z; checkperiod : Z; maxKeys : Z }.

(** A stored entry: [t] is the expiry time in milliseconds, 0 for never. *)
Record Wrapped : Type := { t : Z; v : jsval }.

Record cache : Type := { options : Options; data : obj Wrapped }.

Definition ECACHEFULL : Error :=
  {| errorcode := "ECACHEFULL"; message := "Cache max keys amount exceeded" |}.

Definition with_data (c : cache) (d : obj Wrapped) : cache :=
  {| options := options c; data := d |}.

(** The number of stored keys ([stats.keys]). *)
Definition count (c : cache) : Z := Z.of_nat (List.length (data c)).

Definition wrap (c : cache) (now : Z) (value : jsval) (ttl : option Z) : Wrapped :=
  let livetime :=
    match ttl with
    | Some 0 => 0
    | Some seconds => now + seconds * 1000
    | None => if stdTTL (options c) =? 0 then 0 else now + stdTTL (options c) * 1000
    end in
  {| t := livetime; v := value |}.

Definition expired (now : Z) (w : Wrapped) : bool :=
  negb (t w =? 0) && (t w <? now).

Definition get (key : string) : M (Env cache) jsval :=
  fun e =>
    match obj_get key (data (store e)) with
    | Some w =>
        if expired (now e) w
        then (Ok JUndefined, set_store e (with_data (store e) (obj_delete key (data (store e)))))
        else (Ok (v w), e)
    | None => (Ok JUndefined, e)
    end.

Definition set (key : string) (value : jsval) (ttl : option Z) : M (Env cache) bool :=
  fun e =>
    let c := store e in
    if (maxKeys (options c) >? -1) && (count c >=? maxKeys (options c))
    then (Throw ECACHEFULL, e)
    else (Ok true, set_store e (with_data c (obj_set key (wrap c (now e) value ttl) (data c)))).

Definition del (key : string) : M (Env cache) Z :=
  fun e =>
    let c := store e in
    if obj_has key (data c)
    then (Ok 1, set_store e (with_data c (obj_delete key (data c))))
    else (Ok 0, e).

Definition keys : M (Env cache) (list string) :=
  gets (fun e => obj_keys (data (store e))).

Definition flushAll : M (Env cache) unit :=
  modify (fun e => set_store e (with_data (store e) [])).

(** The sweep the [checkperiod] timer runs. *)
Definition checkData : M (Env cache) unit :=
  modify (fun e =>
    set_store e (with_data (store e)
      (filter (fun kw => negb (expired (now e) (snd kw))) (data (store e))))).
End NodeCache.

(** ** [class NodeCacheAdapter] *)

(** [setting || fallback] on a numeric setting: [undefined] and 0 are falsy. *)
Definition or_default (setting : option Z) (fallback : Z) : Z :=
  match setting with
  | Some 0 | None => fallback
  | Some z => z
  end.

(** [keys.length * 0.1] is a product of doubles. The double nearest to 0.1
    is [tenth_mantissa * 2^-56]; the exact product with an integer [n] is
    [n * tenth_mantissa * 2^-56], which the multiplication rounds to the
    nearest double, ties to even. [round_to_double p] is that rounding on
    the numerator: the nearest integer to [p] with at most 53 significant
    bits. *)
Definition tenth_mantissa : Z := 7205759403792794.

Definition round_to_double (p : Z) : Z :=
  if p <? 2 ^ 53 then p
  else
    let ulp := 2 ^ (Z.log2 p - 52) in
    let q := p / ulp in
    let rest := p mod ulp in
    let up := (2 * rest >? ulp) || ((2 * rest =? ulp) && Z.odd q) in
    (if up then q + 1 else q) * ulp.

(** [Math.ceil(n * 0.1)] as the machine computes it. *)
Definition Math_ceil_tenth (n : nat) : nat :=
  Z.to_nat ((round_to_double (Z.of_nat n * tenth_mantissa) + 2 ^ 56 - 1) / 2 ^ 56).

(** [Math.ceil(n * 0.1)] in integers: the ceiling of [n / 10]. The two
    agree on every array length, as is proved below, and the adapter is
    modelled with this one. *)
Definition ceil_tenth (n : nat) : nat := Nat.div (n + 9) 10.

Module NodeCacheAdapter.
(** [constructor(options)]. *)
Definition new (options : CacheOptions) : NodeCache.cache :=
  {| NodeCache.options :=
       {| NodeCache.stdTTL := defaultTTL options;
          NodeCache.checkperiod := or_default (checkPeriod options) 600;
          NodeCache.maxKeys := or_default (maxKeys options) (-1) |};
     NodeCache.data := [] |}.

Definition get (key : string) : M (Env NodeCache.cache) jsval :=
  NodeCache.get key.

Definition set (key : string) (value : jsval) (ttl : option Z)
  : M (Env NodeCache.cache) unit :=
  try_catch
    (_ <- NodeCache.set key value ttl ;; ret tt)
    (fun error =>
       if (errorcode error =? "ECACHEFULL")%string then
         keys <- NodeCache.keys ;;
         let keysToDelete := ceil_tenth (List.length keys) in
         for_each (firstn keysToDelete keys)
                  (fun k => _ <- NodeCache.del k ;; ret tt) ;;
         try_catch
           (_ <- NodeCache.set key value ttl ;; ret tt)
           (fun retryError =>
              console_error "Failed to cache response after clearing space:"
                            (Some retryError))
       else console_error "Cache error:" (Some error)).

Definition del (key : string) : M (Env NodeCache.cache) unit :=
  _ <- NodeCache.del key ;; ret tt.

Definition keys : M (Env NodeCache.cache) (list string) := NodeCache.keys.

Definition flushAll : M (Env NodeCache.cache) unit := NodeCache.flushAll.

Definition adapter : CacheAdapter.t NodeCache.cache :=
  {| CacheAdapter.get := get; CacheAdapter.set := set; CacheAdapter.del := del;
     CacheAdapter.keys := keys; CacheAdapter.flushAll := flushAll |}.
End NodeCacheAdapter.

(** A caller storing several entries one after the other. *)
Definition insert_all (entries : list (string * jsval * option Z))
  : M (Env NodeCache.cache) unit :=
  for_each entries (fun entry =>
    match entry with (key, value, ttl) => NodeCacheAdapter.set key value ttl end).

(** ** [class RedisCacheAdapter] *)

(** The commands of the ioredis client the adapter calls. Each may fail (a
    rejected promise is a [Throw]); [get] answers a string or [null]. *)
Module Redis.
Record client (C : Type) : Type := {
  get : string -> M (Env C) (option string);
  setex : string -> option Z -> option string -> M (Env C) unit;
  del : string -> M (Env C) Z;
  keys : string -> M (Env C) (list string);
  flushall : M (Env C) unit
}.
Arguments get {C} _ _.
Arguments setex {C} _ _ _ _.
Arguments del {C} _ _.
Arguments keys {C} _ _.
Arguments flushall {C} _.
End Redis.

(** A pure computation that may throw, run inside [M]. *)
Definition lift_outcome {St A} (o : outcome A) : M St A := fun s => (o, s).

Module RedisCacheAdapter.
Section Adapter.
Context {C : Type}.
(** [JSON.parse], which throws a SyntaxError on malformed text. *)
Variable JSON_parse : string -> outcome jsval.
Variable client : Redis.client C.

Definition get (key : string) : M (Env C) jsval :=
  try_catch
    (value <- Redis.get client key ;;
     match value with
     | Some text =>
         if negb (text =? "")%string then lift_outcome (JSON_parse text)
         else ret JUndefined
     | None => ret JUndefined
     end)
    (fun error => console_error "Redis get error:" (Some error) ;; ret JUndefined).

Definition set (key : string) (value : jsval) (ttl : option Z) : M (Env C) unit :=
  try_catch
    (Redis.setex client key ttl (JSON_stringify value))
    (fun error => console_error "Redis set error:" (Some error)).

Definition del (key : string) : M (Env C) unit :=
  try_catch
    (_ <- Redis.del client key ;; ret tt)
    (fun error => console_error "Redis del error:" (Some error)).

Definition keys : M (Env C) (list string) :=
  try_catch
    (Redis.keys client "*")
    (fun error => console_error "Redis keys error:" (Some error) ;; ret []).

Definition flushAll : M (Env C) unit :=
  try_catch
    (Redis.flushall client)
    (fun error => console_error "Redis flushAll error:" (Some error)).

Definition adapter : CacheAdapter.t C :=
  {| CacheAdapter.get := get; CacheAdapter.set := set; CacheAdapter.del := del;
     CacheAdapter.keys := keys; CacheAdapter.flushAll := flushAll |}.
End Adapter.

(** [times > maxReconnectAttempts]; [None] is the NaN [parseInt] answers
    for a setting that is not a number, and no number exceeds NaN. *)
Definition exceeds (times : Z) (maxReconnectAttempts : option Z) : bool :=
  match maxReconnectAttempts with
  | Some m => times >? m
  | None => false
  end.

(** The [retryStrategy] handed to the client: the delay in milliseconds
    before the next attempt, or [None] ([null]) to stop. Its state is the
    console. *)
Definition retryStrategy (maxReconnectAttempts : option Z) (times : Z)
  : M (list (string * option Error)) (option Z) :=
  if exceeds times maxReconnectAttempts then
    modify (fun c => (c ++ [("Redis: Max reconnection attempts reached", None)])%list) ;;
    ret None
  else
    let delay := Z.min (times * 100) 3000 in
    ret (Some delay).

(** The connection as the adapter sees it. The handlers are the adapter's;
    what the client does around them is its reconnection loop. *)
Inductive status : Type := Connecting | Ready | Reconnecting (delay : Z) | Ended.

Record connection : Type := {
  state : status;
  retryAttempts : Z;
  isConnected : bool;
  conn_console : list (string * option Error)
}.

(** What happens to a connection: the three events the adapter listens to
    ([connect], [error], [close]); the moment the client regards the
    connection as established and resets its attempt count, which the
    specification does not fix relative to the [connect] event and which is
    therefore a signal of its own; and the rejection of the promise that
    the constructor's [connect()] call returned. *)
Inductive signal : Type :=
| Connect
| Established
| SocketError (err : Error)
| Close
| ConnectRejected (err : Error).

Definition on_connect (c : connection) : connection :=
  {| state := state c; retryAttempts := retryAttempts c; isConnected := true;
     conn_console := conn_console c ++ [("Redis: Connected successfully", None)] |}.

Definition on_error (err : Error) (c : connection) : connection :=
  {| state := state c; retryAttempts := retryAttempts c; isConnected := false;
     conn_console := conn_console c ++ [("Redis connection error:", Some err)] |}.

Definition on_close (c : connection) : connection :=
  {| state := state c; retryAttempts := retryAttempts c; isConnected := false;
     conn_console := conn_console c ++ [("Redis: Connection closed", None)] |}.

(** [this.client.connect().catch((err) => console.error(...))]. *)
Definition on_connect_rejected (err : Error) (c : connection) : connection :=
  {| state := state c; retryAttempts := retryAttempts c; isConnected := isConnected c;
     conn_console := conn_console c ++ [("Failed to connect to Redis:", Some err)] |}.

(** Modelled from the spec: the reconnection loop of the ioredis client,
    a third-party dependency. An established connection resets the attempt
    count; a lost connection raises [close], then the retry strategy is
    asked with the next attempt number: a delay schedules a new attempt,
    the stop answer ends the client for good. An ended client raises no
    further event; only the rejection of the constructor's promise, which
    is settled outside the loop, is still logged. *)
Definition step (maxReconnectAttempts : option Z) (s : signal) (c : connection)
  : connection :=
  match s with
  | ConnectRejected err => on_connect_rejected err c
  | _ =>
      match state c with
      | Ended => c
      | _ =>
          match s with
          | Connect => on_connect c
          | Established =>
              {| state := Ready; retryAttempts := 0; isConnected := isConnected c;
                 conn_console := conn_console c |}
          | SocketError err => on_error err c
          | Close =>
              let c := on_close c in
              let times := retryAttempts c + 1 in
              match retryStrategy maxReconnectAttempts times (conn_console c) with
              | (Ok (Some delay), out) =>
                  {| state := Reconnecting delay; retryAttempts := times;
                     isConnected := isConnected c; conn_console := out |}
              | (_, out) =>
                  {| state := Ended; retryAttempts := times;
                     isConnected := isConnected c; conn_console := out |}
              end
          | ConnectRejected err => on_connect_rejected err c
          end
      end
  end.

Definition run (maxReconnectAttempts : option Z) (signals : list signal)
  (c : connection) : connection :=
  fold_left (fun c s => step maxReconnectAttempts s c) signals c.

(** [constructor()]: not connected until the first [connect]. *)
Definition new : connection :=
  {| state := Connecting; retryAttempts := 0; isConnected := false; conn_console := [] |}.
End RedisCacheAdapter.

(** ** Regular expressions *)

(** A [RegExp] object: its compiled pattern ([matcher s i] is the end of a
    match that starts at position [i] of [s]), its [g] and [y] flags and its
    [lastIndex] property. *)
Module RegExp.
Record t : Type := {
  matcher : string -> nat -> option nat;
  global : bool;
  sticky : bool;
  lastIndex : nat
}.

Definition with_lastIndex (r : t) (i : nat) : t :=
  {| matcher := matcher r; global := global r; sticky := sticky r; lastIndex := i |}.

(** The scan of RegExpBuiltinExec from position [i], [fuel] positions long. *)
Fixpoint scan (m : string -> nat -> option nat) (s : string) (i fuel : nat)
  : option nat :=
  match fuel with
  | O => None
  | S fuel' =>
      match m s i with
      | Some e => Some e
      | None => scan m s (S i) fuel'
      end
  end.

(** [r.exec(s)] reduced to the end index of the match, and [r] afterwards. *)
Definition exec (r : t) (s : string) : option nat * t :=
  let len := String.length s in
  let stateful := global r || sticky r in
  let start := if stateful then lastIndex r else O in
  let found :=
    if (len <? start)%nat then None
    else if sticky r then matcher r s start
    else scan (matcher r) s start (S len - start) in
  match found with
  | Some e => (Some e, if stateful then with_lastIndex r e else r)
  | None => (None, if stateful then with_lastIndex r O else r)
  end.

(** [r.test(s)]. *)
Definition test (r : t) (s : string) : bool * t :=
  match exec r s with
  | (Some _, r') => (true, r')
  | (None, r') => (false, r')
  end.
End RegExp.

(** ** [class AdvancedCache] *)

(** The manager's private fields. [defaultConfig] is computed by the
    constructor from its options and never reassigned, so the record keeps
    the options. *)
Record AdvancedCache (St : Type) : Type := {
  cacheAdapter : CacheAdapter.t St;
  options : CacheOptions;
  isAsync : bool
}.
Arguments cacheAdapter {St} _.
Arguments options {St} _.
Arguments isAsync {St} _.

(** [this.defaultConfig]. *)
Definition defaultConfig {St} (this : AdvancedCache St) : CacheConfig :=
  {| duration := Some (defaultTTL (options this));
     keyParams := Some []; ignoreParams := Some []; varyByHeaders := Some [];
     customKeyGenerator := None |}.

(** The constructor with [REDIS_ENABLED] other than ['true'] ... *)
Definition AdvancedCache_node (options : CacheOptions) : AdvancedCache NodeCache.cache :=
  {| cacheAdapter := NodeCacheAdapter.adapter;
     options := options;
     isAsync := false |}.

(** ... and with [REDIS_ENABLED === 'true']. *)
Definition AdvancedCache_redis {C} (JSON_parse : string -> outcome jsval)
  (client : Redis.client C) (options : CacheOptions) : AdvancedCache C :=
  {| cacheAdapter := RedisCacheAdapter.adapter JSON_parse client;
     options := options;
     isAsync := true |}.

(** A [Partial<CacheConfig>]: each property is absent ([None]) or present
    with a value that may be [undefined] ([Some None]). *)
Record PartialCacheConfig : Type := {
  p_duration : option (option Z);
  p_keyParams : option (option (list string));
  p_ignoreParams : option (option (list string));
  p_varyByHeaders : option (option (list string));
  p_customKeyGenerator : option (option (Request.t -> string))
}.

Definition spread {A} (base : option A) (over : option (option A)) : option A :=
  match over with
  | Some x => x
  | None => base
  end.

(** [{ ...this.defaultConfig, ...config }]. *)
Definition merge_config (base : CacheConfig) (config : option PartialCacheConfig)
  : CacheConfig :=
  match config with
  | None => base
  | Some c =>
      {| duration := spread (duration base) (p_duration c);
         keyParams := spread (keyParams base) (p_keyParams c);
         ignoreParams := spread (ignoreParams base) (p_ignoreParams c);
         varyByHeaders := spread (varyByHeaders base) (p_varyByHeaders c);
         customKeyGenerator := spread (customKeyGenerator base) (p_customKeyGenerator c) |}
  end.

(** [config?.customKeyGenerator]. *)
Definition config_customKeyGenerator (config : option PartialCacheConfig)
  : option (Request.t -> string) :=
  match config with
  | Some c => spread None (p_customKeyGenerator c)
  | None => None
  end.

(** The response object: the interceptors installed over [res.json]
    (outermost first, each with its key and duration) and the payloads the
    framework's own [res.json] has sent. *)
Record Response : Type := {
  json_wrappers : list (string * option Z);
  sent : list jsval
}.

(** One request in flight: the adapter's environment, the response, how
    often [next] was called, and the errors of downstream handlers, which
    the framework catches. *)
Record World (St : Type) : Type := {
  env : Env St;
  res : Response;
  next_calls : nat;
  pipeline_errors : list Error
}.
Arguments env {St} _.
Arguments res {St} _.
Arguments next_calls {St} _.
Arguments pipeline_errors {St} _.

Definition with_env {St} (w : World St) (e : Env St) : World St :=
  {| env := e; res := res w; next_calls := next_calls w;
     pipeline_errors := pipeline_errors w |}.

Definition with_res {St} (w : World St) (r : Response) : World St :=
  {| env := env w; res := r; next_calls := next_calls w;
     pipeline_errors := pipeline_errors w |}.

(** An adapter call made from the request. *)
Definition lift {St A} (c : M (Env St) A) : M (World St) A :=
  fun w => match c (env w) with (o, e) => (o, with_env w e) end.

Section Middleware.
Context {St : Type}.
Variable this : AdvancedCache St.

(** The framework's [res.json]. *)
Definition originalJson (body : jsval) : M (World St) unit :=
  modify (fun w =>
    with_res w {| json_wrappers := json_wrappers (res w);
                  sent := sent (res w) ++ [body] |}).

(** The body of the function assigned to [res.json]: store, then send. *)
Definition cache_body (cacheKey : string) (duration : option Z) (body : jsval)
  : M (World St) unit :=
  if isAsync this then
    try_catch
      (lift (CacheAdapter.set (cacheAdapter this) cacheKey body duration))
      (fun error => lift (console_error "Error setting cache:" (Some error)))
  else
    lift (CacheAdapter.set (cacheAdapter this) cacheKey body duration).

Fixpoint json_through (wrappers : list (string * option Z)) (body : jsval)
  : M (World St) unit :=
  match wrappers with
  | [] => originalJson body
  | (cacheKey, duration) :: inner =>
      cache_body cacheKey duration body ;; json_through inner body
  end.

(** [res.json(body)] on the response as it stands. *)
Definition res_json (body : jsval) : M (World St) unit :=
  fun w => json_through (json_wrappers (res w)) body w.

(** [res.json = (body) => { ... }]. *)
Definition override_json (cacheKey : string) (duration : option Z) : M (World St) unit :=
  modify (fun w =>
    with_res w {| json_wrappers := (cacheKey, duration) :: json_wrappers (res w);
                  sent := sent (res w) |}).

(** [next()]: the downstream handler runs and passes to [res.json] the
    payloads [downstream] lists (none when it answers otherwise); what it
    throws is caught by the framework. *)
Definition next (downstream : list jsval) : M (World St) unit :=
  modify (fun w =>
    {| env := env w; res := res w; next_calls := S (next_calls w);
       pipeline_errors := pipeline_errors w |}) ;;
  try_catch
    (for_each downstream res_json)
    (fun error =>
       modify (fun w =>
         {| env := env w; res := res w; next_calls := next_calls w;
            pipeline_errors := pipeline_errors w ++ [error] |})).

(** The key the middleware derives, [None] when the request is passed
    through without one. *)
Definition middleware_key (config : option PartialCacheConfig) (req : Request.t)
  : option string :=
  let finalConfig := merge_config (defaultConfig this) config in
  if negb (Request.method req =? "GET")%string
     && negb (match config_customKeyGenerator config with Some _ => true | None => false end)
  then None
  else Some (generateCacheKey req finalConfig).

(** [AdvancedCache.middleware(config)(req, res, next)]. *)
Definition middleware (config : option PartialCacheConfig) (req : Request.t)
  (downstream : list jsval) : M (World St) unit :=
  let finalConfig := merge_config (defaultConfig this) config in
  match middleware_key config req with
  | None => next downstream
  | Some cacheKey =>
      answered <-
        try_catch
          (cachedResponse <- lift (CacheAdapter.get (cacheAdapter this) cacheKey) ;;
           if truthy cachedResponse
           then res_json cachedResponse ;; ret true
           else ret false)
          (fun error =>
             lift (console_error "Error retrieving from cache:" (Some error)) ;;
             ret false) ;;
      if (answered : bool) then ret tt
      else
        override_json cacheKey (duration finalConfig) ;;
        next downstream
  end.

(** [keys.forEach(key => { if (pattern.test(key)) del(key) })]: the
    pattern object is the same at every test. *)
Fixpoint delete_matching (pattern : RegExp.t) (keys : list string) : M (Env St) unit :=
  match keys with
  | [] => ret tt
  | key :: rest =>
      let (matched, pattern') := RegExp.test pattern key in
      (if matched then CacheAdapter.del (cacheAdapter this) key else ret tt) ;;
      delete_matching pattern' rest
  end.

(** [await Promise.all(keys.map(key => ...))]: every deletion is started,
    the first rejection is the one reported. *)
Fixpoint delete_matching_all (pattern : RegExp.t) (keys : list string) : M (Env St) unit :=
  match keys with
  | [] => ret tt
  | key :: rest =>
      let (matched, pattern') := RegExp.test pattern key in
      fun e =>
        match (if matched then CacheAdapter.del (cacheAdapter this) key else ret tt) e with
        | (Ok _, e') => delete_matching_all pattern' rest e'
        | (Throw err, e') => (Throw err, snd (delete_matching_all pattern' rest e'))
        end
  end.

(** [AdvancedCache.clearCache(pattern?)]. *)
Definition clearCache (pattern : option RegExp.t) : M (Env St) unit :=
  match pattern with
  | None => CacheAdapter.flushAll (cacheAdapter this)
  | Some p =>
      keys <- CacheAdapter.keys (cacheAdapter this) ;;
      if isAsync this then delete_matching_all p keys else delete_matching p keys
  end.
End Middleware.

(** ** Reading [JSON.stringify]'s output back *)

(** The values [JSON.stringify] prints faithfully: no [undefined] anywhere
    (an array prints it as [null], an object drops the property) and only
    integers a double holds exactly. *)
Fixpoint json_tree (v : jsval) : bool :=
  match v with
  | JUndefined => false
  | JNull | JBool _ | JStr _ => true
  | JNum n => Z.abs n <? 2 ^ 53
  | JArr items => forallb json_tree items
  | JObj props => forallb (fun p => json_tree (snd p)) props
  end.

(** The values in which no [undefined] occurs: [JSON.stringify] prints
    every part of them. *)
Fixpoint defined_tree (v : jsval) : bool :=
  match v with
  | JUndefined => false
  | JNull | JBool _ | JStr _ | JNum _ => true
  | JArr items => forallb defined_tree items
  | JObj props => forallb (fun p => defined_tree (snd p)) props
  end.

(** What [JSON.stringify] prints of a value, as a value: an [undefined]
    array element is [null], a property that holds [undefined] is left out. *)
Fixpoint printed_form (v : jsval) : jsval :=
  match v with
  | JUndefined => JNull
  | JArr items => JArr (map printed_form items)
  | JObj props =>
      JObj (flat_map (fun p => match snd p with
                               | JUndefined => []
                               | _ => [(fst p, printed_form (snd p))]
                               end) props)
  | _ => v
  end.

Fixpoint size (v : jsval) : nat :=
  match v with
  | JArr items => S (fold_right (fun x n => S (size x + n)) O items)
  | JObj props => S (fold_right (fun p n => S (size (snd p) + n)) O props)
  | _ => 1%nat
  end.

(** The text of a value inside an array. *)
Definition ser_text (v : jsval) : string :=
  match ser v with Some s => s | None => "null" end.

Definition is_digit (c : ascii) : bool :=
  ((48 <=? N_of_ascii c)%N && (N_of_ascii c <=? 57)%N)%bool.

Fixpoint all_digits (s : string) : bool :=
  match s with
  | EmptyString => true
  | String c r => is_digit c && all_digits r
  end.

Definition items_size (items : list jsval) : nat :=
  fold_right (fun x n => S (size x + n)) O items.

Definition props_size (props : list (string * jsval)) : nat :=
  fold_right (fun p n => S (size (snd p) + n)) O props.

Definition items_text (items : list jsval) : string :=
  String.concat "," (map ser_text items).

Definition member_text (p : string * jsval) : string :=
  (quote (fst p) ++ ":" ++ ser_text (snd p))%string.

Definition members_text (props : list (string * jsval)) : string :=
  String.concat "," (map member_text props).

Definition no_digit_head (s : string) : bool :=
  match s with
  | EmptyString => true
  | String c _ => negb (is_digit c)
  end.

Fixpoint take_digits (s : string) : string * string :=
  match s with
  | EmptyString => (EmptyString, EmptyString)
  | String c r =>
      if is_digit c then let (a, b) := take_digits r in (String c a, b)
      else (EmptyString, s)
  end.

(** A decimal numeral with its sign, split from what follows it. *)
Definition take_number (s : string) : string * string :=
  match s with
  | String c r =>
      if (c =? "-")%char then let (a, b) := take_digits r in (String c a, b)
      else take_digits s
  | EmptyString => (EmptyString, EmptyString)
  end.

Definition decode_number (s : string) : option (jsval * string) :=
  let (text, rest) := take_number s in
  match NilZero.int_of_string text with
  | Some d => Some (JNum (Z.of_int d), rest)
  | None => None
  end.

Definition unhex (c : ascii) : option N :=
  let n := N_of_ascii c in
  if ((48 <=? n)%N && (n <=? 57)%N)%bool then Some (n - 48)%N
  else if ((97 <=? n)%N && (n <=? 102)%N)%bool then Some (n - 87)%N
  else None.

Definition unescape_simple (c : ascii) : option ascii :=
  if (c =? "b")%char then Some (ascii_of_N 8)
  else if (c =? "t")%char then Some (ascii_of_N 9)
  else if (c =? "n")%char then Some (ascii_of_N 10)
  else if (c =? "f")%char then Some (ascii_of_N 12)
  else if (c =? "r")%char then Some (ascii_of_N 13)
  else if (c =? dquote)%char then Some dquote
  else if (c =? bslash)%char then Some bslash
  else None.

(** The string whose escaped text, closing quote included, starts [s], and
    what follows the quote. *)
Fixpoint unescape (s : string) : option (string * string) :=
  match s with
  | EmptyString => None
  | String c r =>
      if (c =? dquote)%char then Some (EmptyString, r)
      else if (c =? bslash)%char then
        match r with
        | EmptyString => None
        | String e r1 =>
            match unescape_simple e with
            | Some ch =>
                match unescape r1 with
                | Some (t, rest) => Some (String ch t, rest)
                | None => None
                end
            | None =>
                match r1 with
                | String _ (String _ (String h1 (String h2 r2))) =>
                    match unhex h1, unhex h2 with
                    | Some a, Some b =>
                        match unescape r2 with
                        | Some (t, rest) => Some (String (ascii_of_N (16 * a + b)) t, rest)
                        | None => None
                        end
                    | _, _ => None
                    end
                | _ => None
                end
            end
        end
      else
        match unescape r with
        | Some (t, rest) => Some (String c t, rest)
        | None => None
        end
  end.

(** The value whose text starts [s], and what follows it; [fuel] bounds the
    nesting and the number of elements. *)
Fixpoint decode (fuel : nat) (s : string) {struct fuel} : option (jsval * string) :=
  match fuel with
  | O => None
  | S fuel' =>
      match s with
      | EmptyString => None
      | String c r =>
          if (is_digit c || (c =? "-")%char)%bool then decode_number s
          else if (c =? "n")%char then
            match r with
            | String "u" (String "l" (String "l" r')) => Some (JNull, r')
            | _ => None
            end
          else if (c =? "t")%char then
            match r with
            | String "r" (String "u" (String "e" r')) => Some (JBool true, r')
            | _ => None
            end
          else if (c =? "f")%char then
            match r with
            | String "a" (String "l" (String "s" (String "e" r'))) => Some (JBool false, r')
            | _ => None
            end
          else if (c =? dquote)%char then
            match unescape r with
            | Some (t, rest) => Some (JStr t, rest)
            | None => None
            end
          else if (c =? "[")%char then
            match decode_items fuel' r with
            | Some (items, rest) => Some (JArr items, rest)
            | None =>
                match r with
                | String "]" rest => Some (JArr [], rest)
                | _ => None
                end
            end
          else if (c =? "{")%char then
            match decode_members fuel' r with
            | Some (props, rest) => Some (JObj props, rest)
            | None =>
                match r with
                | String "}" rest => Some (JObj [], rest)
                | _ => None
                end
            end
          else None
      end
  end
with decode_items (fuel : nat) (s : string) {struct fuel} : option (list jsval * string) :=
  match fuel with
  | O => None
  | S fuel' =>
      match decode fuel' s with
      | Some (v, String c r) =>
          if (c =? ",")%char then
            match decode_items fuel' r with
            | Some (items, rest) => Some (v :: items, rest)
            | None => None
            end
          else if (c =? "]")%char then Some ([v], r)
          else None
      | _ => None
      end
  end
with decode_members (fuel : nat) (s : string) {struct fuel}
  : option (list (string * jsval) * string) :=
  match fuel with
  | O => None
  | S fuel' =>
      match s with
      | String q r0 =>
          if (q =? dquote)%char then
            match unescape r0 with
            | Some (k, String colon r1) =>
                if (colon =? ":")%char then
                  match decode fuel' r1 with
                  | Some (v, String c r) =>
                      if (c =? ",")%char then
                        match decode_members fuel' r with
                        | Some (props, rest) => Some ((k, v) :: props, rest)
                        | None => None
                        end
                      else if (c =? "}")%char then Some ([(k, v)], r)
                      else None
                  | _ => None
                  end
                else None
            | _ => None
            end
          else None
      | EmptyString => None
      end
  end.

(** ** Notions the statements use *)

(** The environment after [console.error(line, err)]. *)
Definition logged {St} (line : string) (err : Error) (e : Env St) : Env St :=
  snd (console_error line (Some err) e).

(** The environment after [console.error('Error retrieving from cache:', err)]. *)
Definition logged_get_failure {St} (e : Env St) (err : Error) : Env St :=
  logged "Error retrieving from cache:" err e.

(** The in-process store without its first [count] entries. *)
Definition evicted (e : Env NodeCache.cache) (count : nat) : Env NodeCache.cache :=
  set_store e (NodeCache.with_data (store e) (skipn count (NodeCache.data (store e)))).

(** The in-process table respects its ceiling, or has none. *)
Definition within_ceiling (c : NodeCache.cache) : Prop :=
  NodeCache.maxKeys (NodeCache.options c) <= -1
  \/ (1 <= NodeCache.maxKeys (NodeCache.options c)
      /\ NodeCache.count c <= NodeCache.maxKeys (NodeCache.options c)).

(** The same environment when the clock shows [t]. *)
Definition at_time {St} (e : Env St) (t : Z) : Env St :=
  {| store := store e; console := console e; now := t |}.

(** What the in-process table shows for a key at time [t0]: the value of
    an entry that has not expired, [undefined] otherwise. *)
Definition live_value (t0 : Z) (key : string) (d : obj NodeCache.Wrapped) : jsval :=
  match obj_get key d with
  | Some w => if NodeCache.expired t0 w then JUndefined else NodeCache.v w
  | None => JUndefined
  end.

(** The condition under which node-cache's [set] throws [ECACHEFULL]. *)
Definition full (c : NodeCache.cache) : bool :=
  (NodeCache.maxKeys (NodeCache.options c) >? -1)
  && (NodeCache.count c >=? NodeCache.maxKeys (NodeCache.options c)).

(** The property [k] of [source] as [Object.keys] and indexing show it:
    its value, or [None] when [source] has no such key. *)
Definition field (source : jsval) (k : string) : option jsval :=
  if includes (Object_keys source) k then Some (get_prop source k) else None.

(** The body as the derivation reads it: only under POST and PUT. *)
Definition keyed_body (req : Request.t) : jsval :=
  if ((Request.method req =? "POST")%string || (Request.method req =? "PUT")%string)%bool
  then Request.body req else JUndefined.

(** A name whose assignment creates a property of the object the
    derivation builds: every name but [__proto__]. *)
Definition creates_property (k : string) : bool := negb (k =? "__proto__")%string.

(** The parameters that reach the key: those the configuration selects and
    whose assignment creates a property. *)
Definition keyed (config : CacheConfig) (k : string) : bool :=
  param_selected config k && creates_property k.

(** A header as the derivation keeps it: its value when that is truthy and
    the assignment under its name creates a property. *)
Definition header_field (req : Request.t) (header : string) : option jsval :=
  if truthy (Request.get req header) && creates_property header
  then Some (Request.get req header) else None.

(** The header names the configuration varies by. *)
Definition vary_list (config : CacheConfig) : list string :=
  match varyByHeaders config with Some l => l | None => [] end.

(** The loop of [select_params], started from any object. *)
Definition select_from (config : CacheConfig) (source : jsval) (keys : list string)
  (acc : obj jsval) : obj jsval :=
  fold_left
    (fun params key =>
       if param_selected config key then assign key (get_prop source key) params
       else params)
    keys acc.

(** The loop of [headers], started from any object. *)
Definition headers_from (req : Request.t) (names : list string) (acc : obj jsval)
  : obj jsval :=
  fold_left
    (fun hs header =>
       let headerValue := Request.get req header in
       if truthy headerValue then assign header headerValue hs else hs)
    names acc.

(** Two sources show the same parameters that reach the key: the same
    names in the same order, each with the same value. *)
Definition params_agree (config : CacheConfig) (s1 s2 : jsval) : Prop :=
  filter (keyed config) (Object_keys s1)
  = filter (keyed config) (Object_keys s2)
  /\ (forall k, keyed config k = true ->
                In k (Object_keys s1) -> get_prop s1 k = get_prop s2 k).

(** Two requests agree on everything that reaches the key. *)
Definition same_selection (config : CacheConfig) (r1 r2 : Request.t) : Prop :=
  params_agree config (Request.query r1) (Request.query r2)
  /\ params_agree config (keyed_body r1) (keyed_body r2)
  /\ (forall h, In h (vary_list config) -> header_field r1 h = header_field r2 h).

(** Every value the derivation prints for the request is one
    [JSON.stringify] prints faithfully. *)
Definition printable (config : CacheConfig) (req : Request.t) : Prop :=
  json_tree (JObj (queryParams config req)) = true
  /\ json_tree (JObj (bodyParams config req)) = true
  /\ json_tree (JObj (headers config req)) = true.

(** No [undefined] occurs in what the derivation prints for the request. *)
Definition legible (config : CacheConfig) (req : Request.t) : Prop :=
  defined_tree (JObj (queryParams config req)) = true
  /\ defined_tree (JObj (bodyParams config req)) = true
  /\ defined_tree (JObj (headers config req)) = true.

(** The agreement the specification's determinism property speaks of, read
    on its own: every selected query and body field has the same value in
    both requests (or is missing in both), and so has every header the
    configuration varies by. *)
Definition fields_agree (config : CacheConfig) (s1 s2 : jsval) : Prop :=
  forall k, param_selected config k = true -> field s1 k = field s2 k.

Definition selected_equal (config : CacheConfig) (r1 r2 : Request.t) : Prop :=
  fields_agree config (Request.query r1) (Request.query r2)
  /\ fields_agree config (Request.body r1) (Request.body r2)
  /\ (forall h, In h (vary_list config) -> Request.get r1 h = Request.get r2 h).

(** The determinism property as the specification states it. *)
Definition determinism_as_stated : Prop :=
  forall config r1 r2,
    customKeyGenerator config = None ->
    Request.method r1 = Request.method r2 ->
    Request.path r1 = Request.path r2 ->
    (selected_equal config r1 r2 ->
     generateCacheKey r1 config = generateCacheKey r2 config)
    /\ (~ selected_equal config r1 r2 ->
        generateCacheKey r1 config <> generateCacheKey r2 config).

(** ** Examples *)

Definition no_headers : string -> jsval := fun _ => JUndefined.

Definition example_options : CacheOptions :=
  {| defaultTTL := 60; checkPeriod := Some 600; maxKeys := Some 2 |}.

Definition node_manager : AdvancedCache NodeCache.cache :=
  AdvancedCache_node example_options.

Definition get_a : Request.t :=
  {| Request.method := "GET"; Request.path := "/a";
     Request.query := JObj [("page", JStr "2")]; Request.body := JUndefined;
     Request.get := no_headers |}.

Definition post_a : Request.t :=
  {| Request.method := "POST"; Request.path := "/a";
     Request.query := JObj []; Request.body := JObj [("id", JNum 7)];
     Request.get := no_headers |}.

Definition empty_env : Env NodeCache.cache :=
  {| store := NodeCacheAdapter.new example_options; console := []; now := 1000 |}.

Definition fresh_response : Response := {| json_wrappers := []; sent := [] |}.

Definition key_a : string := generateCacheKey get_a (defaultConfig node_manager).

Definition payload : jsval := JObj [("x", JNum 1)].

(** The in-process store holding [payload] under the key of [get_a]. *)
Definition warm_env : Env NodeCache.cache :=
  snd (NodeCacheAdapter.set key_a payload (Some 60) empty_env).

(** The in-process store holding the falsy payload [0] under that key. *)
Definition zero_env : Env NodeCache.cache :=
  snd (NodeCacheAdapter.set key_a (JNum 0) (Some 60) empty_env).

(** A simulated backend whose [get] fails. *)
Definition backend_down : Error := {| errorcode := ""; message := "ECONNREFUSED" |}.

Definition failing_manager : AdvancedCache NodeCache.cache :=
  {| cacheAdapter :=
       {| CacheAdapter.get := fun _ => throw backend_down;
          CacheAdapter.set := NodeCacheAdapter.set;
          CacheAdapter.del := NodeCacheAdapter.del;
          CacheAdapter.keys := NodeCacheAdapter.keys;
          CacheAdapter.flushAll := NodeCacheAdapter.flushAll |};
     options := example_options;
     isAsync := false |}.

Definition world_of (e : Env NodeCache.cache) : World NodeCache.cache :=
  {| env := e; res := fresh_response; next_calls := 0; pipeline_errors := [] |}.

Definition plain_config : CacheConfig :=
  {| duration := Some 60; keyParams := Some []; ignoreParams := Some [];
     varyByHeaders := Some []; customKeyGenerator := None |}.

(** [GET /list?a=1&b=2] and [GET /list?b=2&a=1]. *)
Definition get_ab : Request.t :=
  {| Request.method := "GET"; Request.path := "/list";
     Request.query := JObj [("a", JStr "1"); ("b", JStr "2")];
     Request.body := JUndefined; Request.get := fun _ => JUndefined |}.

Definition get_ba : Request.t :=
  {| Request.method := "GET"; Request.path := "/list";
     Request.query := JObj [("b", JStr "2"); ("a", JStr "1")];
     Request.body := JUndefined; Request.get := fun _ => JUndefined |}.

(** [GET /a?page=3], and [GET /a?page=2&utm=x] on a route that ignores [utm]. *)
Definition get_a_page3 : Request.t :=
  {| Request.method := "GET"; Request.path := "/a";
     Request.query := JObj [("page", JStr "3")]; Request.body := JUndefined;
     Request.get := no_headers |}.

Definition get_a_tracked : Request.t :=
  {| Request.method := "GET"; Request.path := "/a";
     Request.query := JObj [("page", JStr "2"); ("utm", JStr "x")];
     Request.body := JUndefined; Request.get := no_headers |}.

Definition tracking_config : CacheConfig :=
  {| duration := Some 60; keyParams := Some []; ignoreParams := Some ["utm"];
     varyByHeaders := Some []; customKeyGenerator := None |}.

(** Two GET requests whose bodies differ in the selected field [id]. *)
Definition id_config : CacheConfig :=
  {| duration := Some 60; keyParams := Some ["id"]; ignoreParams := Some [];
     varyByHeaders := Some []; customKeyGenerator := None |}.

Definition get_with_id (n : Z) : Request.t :=
  {| Request.method := "GET"; Request.path := "/item";
     Request.query := JObj []; Request.body := JObj [("id", JNum n)];
     Request.get := fun _ => JUndefined |}.

(** Two GET requests that differ in the header the key varies by: sent
    empty, and not sent. *)
Definition tenant_config : CacheConfig :=
  {| duration := Some 60; keyParams := Some []; ignoreParams := Some [];
     varyByHeaders := Some ["x-tenant"]; customKeyGenerator := None |}.

Definition get_with_tenant (value : jsval) : Request.t :=
  {| Request.method := "GET"; Request.path := "/item";
     Request.query := JObj []; Request.body := JUndefined;
     Request.get := fun name => if (name =? "x-tenant")%string then value else JUndefined |}.

(** Two POST requests whose bodies differ in the parameter [__proto__]
    only, and two GET requests whose query lists one item, [undefined] in
    the one and [null] in the other. *)
Definition post_with_proto (value : jsval) : Request.t :=
  {| Request.method := "POST"; Request.path := "/item";
     Request.query := JObj [];
     Request.body := JObj [("__proto__", value); ("id", JNum 7)];
     Request.get := fun _ => JUndefined |}.

Definition get_with_item (item : jsval) : Request.t :=
  {| Request.method := "GET"; Request.path := "/item";
     Request.query := JObj [("ids", JArr [item])]; Request.body := JUndefined;
     Request.get := fun _ => JUndefined |}.

(** The pattern [/^GET \/a/] (with the [g] flag when [flag_g]): a match
    starts at position 0 and ends at position 6. *)
Definition starts_GET_a (s : string) (i : nat) : option nat :=
  if ((i =? 0)%nat && prefix "GET /a" s)%bool then Some 6%nat else None.

Definition GET_a_pattern (flag_g : bool) : RegExp.t :=
  {| RegExp.matcher := starts_GET_a; RegExp.global := flag_g;
     RegExp.sticky := false; RegExp.lastIndex := 0 |}.

Definition roomy_options : CacheOptions :=
  {| defaultTTL := 60; checkPeriod := Some 600; maxKeys := Some 1000 |}.

Definition roomy_manager : AdvancedCache NodeCache.cache :=
  AdvancedCache_node roomy_options.

Definition roomy_env (keys : list string) : Env NodeCache.cache :=
  snd (insert_all (map (fun k => (k, payload, Some 60)) keys)
         {| store := NodeCacheAdapter.new roomy_options; console := []; now := 1000 |}).

(** Whether the pattern, as it stands, matches a key. *)
Definition matches (pattern : RegExp.t) (key : string) : bool :=
  fst (RegExp.test pattern key).

(** The in-process table without the entries whose key the pattern matches. *)
Definition without_matching (pattern : RegExp.t) (e : Env NodeCache.cache)
  : Env NodeCache.cache :=
  set_store e (NodeCache.with_data (store e)
    (filter (fun entry => negb (matches pattern (fst entry))) (NodeCache.data (store e)))).

(** The keys the in-process store holds after a computation. *)
Definition keys_after {A} (run : outcome A * Env NodeCache.cache) : list string :=
  obj_keys (NodeCache.data (store (snd run))).

(** ** Sequences of calls on the in-process adapter *)

(** What the manager and the runtime do to the in-process adapter: a call
    of one of its five methods, a run of the periodic sweep, or the clock
    showing another time. *)
Inductive store_call : Type :=
| CallGet (key : string)
| CallSet (key : string) (value : jsval) (ttl : option Z)
| CallDel (key : string)
| CallKeys
| CallFlushAll
| Sweep
| Tick (time : Z).

Definition run_call (c : store_call) (e : Env NodeCache.cache) : Env NodeCache.cache :=
  match c with
  | CallGet key => snd (NodeCacheAdapter.get key e)
  | CallSet key value ttl => snd (NodeCacheAdapter.set key value ttl e)
  | CallDel key => snd (NodeCacheAdapter.del key e)
  | CallKeys => snd (NodeCacheAdapter.keys e)
  | CallFlushAll => snd (NodeCacheAdapter.flushAll e)
  | Sweep => snd (NodeCache.checkData e)
  | Tick time => at_time e time
  end.

Definition run_calls (calls : list store_call) (e : Env NodeCache.cache)
  : Env NodeCache.cache :=
  fold_left (fun e c => run_call c e) calls e.

(** The table's keys are distinct and the table respects its ceiling. *)
Definition well_kept (c : NodeCache.cache) : Prop :=
  NoDup (obj_keys (NodeCache.data c)) /\ within_ceiling c.

(** The lifetime in seconds an entry is stored with: the [ttl] argument,
    the store's [stdTTL] without one. *)
Definition lifetime (c : NodeCache.cache) (ttl : option Z) : Z :=
  match ttl with
  | Some seconds => seconds
  | None => NodeCache.stdTTL (NodeCache.options c)
  end.

(** The key of an entry to store. *)
Definition entry_key (entry : string * jsval * option Z) : string := fst (fst entry).

(** ** Objects as the framework delivers them *)

(** The own keys of a JavaScript object come in its enumeration order: they
    are distinct, and no key would have been enumerated before one that
    precedes it (array indices come first, in ascending order). *)
Fixpoint enumeration_order (keys : list string) : bool :=
  match keys with
  | [] => true
  | k :: rest =>
      forallb (fun later => negb (k =? later)%string && negb (key_before later k)) rest
      && enumeration_order rest
  end.

(** The properties of an object that reach the key. *)
Definition selected (config : CacheConfig) (props : obj jsval) : obj jsval :=
  filter (fun p => keyed config (fst p)) props.

(** The headers among [names] that are kept: those the request carries
    with a truthy value, under a name that creates a property. *)
Definition carried_headers (req : Request.t) (names : list string) : obj jsval :=
  map (fun h => (h, Request.get req h))
      (filter (fun h => truthy (Request.get req h) && creates_property h) names).

(** ** [RedisCacheAdapter.getConnectionStatus] *)

Definition getConnectionStatus (c : RedisCacheAdapter.connection) : bool :=
  RedisCacheAdapter.isConnected c.

(** What holds of the connection after every signal, under the ceiling
    [maxReconnectAttempts]: once ended it is reported not connected and the
    attempt count has exceeded a numeric ceiling; the count stays within
    bounds. *)
Definition connection_kept (maxReconnectAttempts : option Z)
  (c : RedisCacheAdapter.connection) : Prop :=
  (RedisCacheAdapter.state c = RedisCacheAdapter.Ended ->
   RedisCacheAdapter.isConnected c = false
   /\ exists m, maxReconnectAttempts = Some m /\ m < RedisCacheAdapter.retryAttempts c)
  /\ 0 <= RedisCacheAdapter.retryAttempts c
  /\ (forall m, maxReconnectAttempts = Some m ->
        (RedisCacheAdapter.state c <> RedisCacheAdapter.Ended ->
         RedisCacheAdapter.retryAttempts c <= Z.max m 0)
        /\ RedisCacheAdapter.retryAttempts c <= Z.max m 0 + 1).

(** The signals that leave the adapter's [isConnected] as it is. *)
Definition quiet (s : RedisCacheAdapter.signal) : bool :=
  match s with
  | RedisCacheAdapter.Established | RedisCacheAdapter.ConnectRejected _ => true
  | _ => false
  end.

(** The time in milliseconds a client waits in all when attempt after
    attempt fails: the delays the retry strategy answers for the attempts
    [times], [times + 1], ... up to its stop answer, over at most [fuel]
    attempts. *)
Fixpoint backoff_total (maxReconnectAttempts : option Z) (times : Z) (fuel : nat) : Z :=
  match fuel with
  | O => 0
  | S fuel' =>
      match fst (RedisCacheAdapter.retryStrategy maxReconnectAttempts times []) with
      | Ok (Some delay) => delay + backoff_total maxReconnectAttempts (times + 1) fuel'
      | _ => 0
      end
  end.

(** The sum of the delays of the attempts 1 to [n]. *)
Definition delays_up_to (n : Z) : Z :=
  if n <=? 30 then 50 * n * (n + 1) else 46500 + 3000 * (n - 30).

(** ** Further examples *)

(** A Redis client whose server is unreachable: every command fails. *)
Definition dead_client : Redis.client unit :=
  {| Redis.get := fun _ => throw backend_down;
     Redis.setex := fun _ _ _ => throw backend_down;
     Redis.del := fun _ => throw backend_down;
     Redis.keys := fun _ => throw backend_down;
     Redis.flushall := throw backend_down |}.

Definition dead_redis_manager : AdvancedCache unit :=
  AdvancedCache_redis (fun _ => Ok JNull) dead_client example_options.

Definition dead_world : World unit :=
  {| env := {| store := tt; console := []; now := 1000 |};
     res := fresh_response; next_calls := 0; pipeline_errors := [] |}.

(** A route that keys its responses by path alone. *)
Definition path_keyed : option PartialCacheConfig :=
  Some {| p_duration := None; p_keyParams := None; p_ignoreParams := None;
          p_varyByHeaders := None; p_customKeyGenerator := Some (Some Request.path) |}.

(** The pattern [/^prefix/] for a literal prefix, without flags. *)
Definition prefix_pattern (literal : string) : RegExp.t :=
  {| RegExp.matcher :=
       fun s i => if ((i =? 0)%nat && prefix literal s)%bool
                  then Some (String.length literal) else None;
     RegExp.global := false; RegExp.sticky := false; RegExp.lastIndex := 0 |}.

(* ===================================================================== *)
(** * Properties *)
(* ===================================================================== *)

(** ** Property lists *)

Section ObjectFacts.
Context {A : Type}.
Implicit Types (o : obj A) (k : string) (v : A).

Lemma obj_replace_length k v o : List.length (obj_replace k v o) = List.length o.
Proof.
  induction o as [|[k' v'] r IH]; cbn; [reflexivity|].
  destruct (k' =? k)%string; cbn; congruence.
Qed.

Lemma obj_insert_length k v o : List.length (obj_insert k v o) = S (List.length o).
Proof.
  induction o as [|[k' v'] r IH]; cbn; [reflexivity|].
  destruct (key_before k k'); cbn; congruence.
Qed.

Lemma obj_set_length k v o :
  (List.length (obj_set k v o) <= S (List.length o))%nat.
Proof.
  unfold obj_set. destruct (obj_has k o).
  - rewrite obj_replace_length. lia.
  - rewrite obj_insert_length. lia.
Qed.

Lemma obj_get_replace k v o :
  obj_has k o = true -> obj_get k (obj_replace k v o) = Some v.
Proof.
  unfold obj_has. induction o as [|[k' v'] r IH]; cbn; [discriminate|].
  destruct (k' =? k)%string eqn:E; cbn; rewrite E; auto.
Qed.

Lemma obj_get_insert k v o :
  obj_has k o = false -> obj_get k (obj_insert k v o) = Some v.
Proof.
  unfold obj_has. induction o as [|[k' v'] r IH]; cbn.
  - rewrite String.eqb_refl. reflexivity.
  - destruct (k' =? k)%string eqn:E; [discriminate|]. intros H.
    destruct (key_before k k'); cbn.
    + rewrite String.eqb_refl. reflexivity.
    + rewrite E. auto.
Qed.

(** Reading back what was just written. *)
Lemma obj_get_set k v o : obj_get k (obj_set k v o) = Some v.
Proof.
  unfold obj_set. destruct (obj_has k o) eqn:E.
  - apply obj_get_replace, E.
  - apply obj_get_insert, E.
Qed.

Lemma obj_has_set k v o : obj_has k (obj_set k v o) = true.
Proof. unfold obj_has at 1. rewrite obj_get_set. reflexivity. Qed.
End ObjectFacts.

(** ** Key derivation *)

Section ObjectUpdates.
Context {A : Type}.
Implicit Types (o : obj A) (k : string) (v : A).

Lemma obj_get_replace_other k k' v o :
  k <> k' -> obj_get k (obj_replace k' v o) = obj_get k o.
Proof.
  intros Hne. induction o as [|[k0 v0] r IH]; cbn; [reflexivity|].
  destruct (k0 =? k')%string eqn:E; cbn.
  - apply String.eqb_eq in E. subst k0.
    destruct (k' =? k)%string eqn:E2; [|reflexivity].
    apply String.eqb_eq in E2. congruence.
  - rewrite IH. reflexivity.
Qed.

Lemma obj_get_insert_other k k' v o :
  k <> k' -> obj_get k (obj_insert k' v o) = obj_get k o.
Proof.
  intros Hne. induction o as [|[k0 v0] r IH]; cbn.
  - destruct (k' =? k)%string eqn:E; [|reflexivity].
    apply String.eqb_eq in E. congruence.
  - destruct (key_before k' k0); cbn.
    + destruct (k' =? k)%string eqn:E; [|reflexivity].
      apply String.eqb_eq in E. congruence.
    + rewrite IH. reflexivity.
Qed.

Lemma obj_get_set_other k k' v o :
  k <> k' -> obj_get k (obj_set k' v o) = obj_get k o.
Proof.
  intros Hne. unfold obj_set. destruct (obj_has k' o).
  - apply obj_get_replace_other, Hne.
  - apply obj_get_insert_other, Hne.
Qed.
End ObjectUpdates.

Lemma includes_In xs k : includes xs k = true <-> In k xs.
Proof.
  unfold includes. rewrite existsb_exists. split.
  - intros (x & Hx & E). apply String.eqb_eq in E. subst. exact Hx.
  - intros H. exists k. split; [exact H | apply String.eqb_refl].
Qed.

(** A falsy value has no own keys, so both guards of the derivation can be
    dropped. *)
Lemma Object_keys_falsy v : truthy v = false -> Object_keys v = [].
Proof.
  destruct v as [| |b|n|str|items|props]; cbn; try reflexivity; try discriminate.
  destruct str; [reflexivity | discriminate].
Qed.

Section Selection.
Variable config : CacheConfig.

Lemma select_from_cons source k keys acc :
  select_from config source (k :: keys) acc
  = select_from config source keys
      (if keyed config k then obj_set k (get_prop source k) acc else acc).
Proof.
  unfold select_from. cbn [fold_left]. f_equal. unfold keyed, creates_property, assign.
  destruct (param_selected config k), (k =? "__proto__")%string; reflexivity.
Qed.

Lemma select_from_filter source keys acc :
  select_from config source keys acc
  = fold_left (fun params key => obj_set key (get_prop source key) params)
              (filter (keyed config) keys) acc.
Proof.
  revert acc. induction keys as [|k r IH]; intros acc; [reflexivity|].
  rewrite select_from_cons. cbn [filter].
  destruct (keyed config k); cbn [fold_left]; apply IH.
Qed.

Lemma select_params_ext s1 s2 :
  params_agree config s1 s2 -> select_params config s1 = select_params config s2.
Proof.
  intros [Hkeys Hvals].
  change (select_from config s1 (Object_keys s1) [] = select_from config s2 (Object_keys s2) []).
  rewrite !select_from_filter, <- Hkeys.
  assert (Hin : forall k, In k (filter (keyed config) (Object_keys s1)) ->
                          get_prop s1 k = get_prop s2 k).
  { intros k Hk. apply filter_In in Hk. destruct Hk. auto. }
  revert Hin. generalize (filter (keyed config) (Object_keys s1)).
  generalize (@nil (string * jsval)).
  intros acc l. revert acc. induction l as [|k r IH]; intros acc Hin; [reflexivity|].
  cbn. rewrite (Hin k) by (left; reflexivity). apply IH.
  intros k' Hk'. apply Hin. right. exact Hk'.
Qed.

Lemma select_from_absent source keys acc k :
  ~ In k keys -> obj_get k (select_from config source keys acc) = obj_get k acc.
Proof.
  revert acc. induction keys as [|k0 r IH]; intros acc Hn; [reflexivity|].
  rewrite select_from_cons. rewrite IH by (intros H; apply Hn; right; exact H).
  destruct (keyed config k0); [|reflexivity].
  apply obj_get_set_other. intros ->. apply Hn. left. reflexivity.
Qed.

Lemma select_from_kept source keys acc k :
  obj_get k acc = Some (get_prop source k) ->
  obj_get k (select_from config source keys acc) = Some (get_prop source k).
Proof.
  revert acc. induction keys as [|k0 r IH]; intros acc H; [exact H|].
  rewrite select_from_cons. apply IH. destruct (keyed config k0); [|exact H].
  destruct (String.eqb_spec k k0) as [->|Hne].
  - apply obj_get_set.
  - rewrite obj_get_set_other by exact Hne. exact H.
Qed.

Lemma select_from_present source keys acc k :
  keyed config k = true -> In k keys ->
  obj_get k (select_from config source keys acc) = Some (get_prop source k).
Proof.
  intros Hsel. revert acc. induction keys as [|k0 r IH]; intros acc Hin; [destruct Hin|].
  rewrite select_from_cons. destruct (String.eqb_spec k k0) as [->|Hne].
  - rewrite Hsel. apply select_from_kept, obj_get_set.
  - apply IH. destruct Hin as [->|Hin]; [congruence | exact Hin].
Qed.

(** A parameter that reaches the key is in the derived object exactly as
    the source shows it. *)
Lemma select_params_field source k :
  keyed config k = true ->
  obj_get k (select_params config source) = field source k.
Proof.
  intros Hsel. unfold field.
  change (select_params config source)
    with (select_from config source (Object_keys source) []).
  destruct (includes (Object_keys source) k) eqn:E.
  - apply includes_In in E. apply select_from_present; assumption.
  - rewrite select_from_absent; [reflexivity|].
    intros H. apply includes_In in H. congruence.
Qed.

Lemma queryParams_select req :
  queryParams config req = select_params config (Request.query req).
Proof.
  unfold queryParams. destruct (truthy (Request.query req)) eqn:E; [reflexivity|].
  unfold select_params. rewrite Object_keys_falsy by exact E. reflexivity.
Qed.

Lemma bodyParams_select req :
  bodyParams config req = select_params config (keyed_body req).
Proof.
  unfold bodyParams, keyed_body.
  destruct ((Request.method req =? "POST")%string || (Request.method req =? "PUT")%string);
    [|rewrite andb_false_r; reflexivity].
  rewrite andb_true_r.
  destruct (truthy (Request.body req)) eqn:E; [reflexivity|].
  unfold select_params. rewrite Object_keys_falsy by exact E. reflexivity.
Qed.

Lemma headers_from_cons req h names acc :
  headers_from req (h :: names) acc
  = headers_from req names
      (if truthy (Request.get req h) && creates_property h
       then obj_set h (Request.get req h) acc else acc).
Proof.
  unfold headers_from. cbn [fold_left]. f_equal. unfold creates_property, assign.
  destruct (truthy (Request.get req h)), (h =? "__proto__")%string; reflexivity.
Qed.

Lemma headers_fold req : headers config req = headers_from req (vary_list config) [].
Proof.
  unfold headers, vary_list, headers_from.
  destruct (varyByHeaders config) as [[|h r]|]; reflexivity.
Qed.

Lemma headers_from_ext r1 r2 names acc :
  (forall h, In h names -> header_field r1 h = header_field r2 h) ->
  headers_from r1 names acc = headers_from r2 names acc.
Proof.
  revert acc. induction names as [|h r IH]; intros acc H; [reflexivity|].
  rewrite !headers_from_cons. pose proof (H h (or_introl eq_refl)) as Hh. unfold header_field in Hh.
  assert (Hr : forall h', In h' r -> header_field r1 h' = header_field r2 h')
    by (intros h' Hi; apply H; right; exact Hi).
  destruct (truthy (Request.get r1 h) && creates_property h),
           (truthy (Request.get r2 h) && creates_property h);
    try discriminate; [injection Hh as ->|]; apply IH, Hr.
Qed.

Lemma headers_from_kept req names acc h :
  obj_get h acc = header_field req h ->
  obj_get h (headers_from req names acc) = header_field req h.
Proof.
  revert acc. induction names as [|h0 r IH]; intros acc H; [exact H|].
  rewrite headers_from_cons. apply IH.
  destruct (truthy (Request.get req h0) && creates_property h0) eqn:E; [|exact H].
  destruct (String.eqb_spec h h0) as [->|Hne].
  - rewrite obj_get_set. unfold header_field. rewrite E. reflexivity.
  - rewrite obj_get_set_other by exact Hne. exact H.
Qed.

Lemma headers_from_present req names acc h :
  In h names -> obj_get h acc = None ->
  obj_get h (headers_from req names acc) = header_field req h.
Proof.
  revert acc. induction names as [|h0 r IH]; intros acc Hin Hacc; [destruct Hin|].
  rewrite headers_from_cons. destruct (String.eqb_spec h h0) as [->|Hne].
  - apply headers_from_kept. unfold header_field.
    destruct (truthy (Request.get req h0) && creates_property h0);
      [apply obj_get_set | exact Hacc].
  - destruct Hin as [->|Hin]; [congruence|].
    apply IH; [exact Hin|].
    destruct (truthy (Request.get req h0) && creates_property h0); [|exact Hacc].
    rewrite obj_get_set_other by exact Hne. exact Hacc.
Qed.

(** A header the configuration varies by is in the derived object
    exactly when it is kept. *)
Lemma headers_field req h :
  In h (vary_list config) -> obj_get h (headers config req) = header_field req h.
Proof.
  intros Hin. rewrite headers_fold. apply headers_from_present; [exact Hin | reflexivity].
Qed.

(** Requests that agree on what reaches the key build the same three
    objects. *)
Lemma same_selection_objects r1 r2 :
  same_selection config r1 r2 ->
  queryParams config r1 = queryParams config r2
  /\ bodyParams config r1 = bodyParams config r2
  /\ headers config r1 = headers config r2.
Proof.
  intros (Hq & Hb & Hh). rewrite !queryParams_select, !bodyParams_select, !headers_fold.
  repeat split.
  - apply select_params_ext, Hq.
  - apply select_params_ext, Hb.
  - apply headers_from_ext, Hh.
Qed.
End Selection.

(** ** [JSON.stringify] can be read back *)

Lemma string_app_assoc (a b c : string) : ((a ++ b) ++ c)%string = (a ++ (b ++ c))%string.
Proof. induction a as [|x a IH]; cbn; congruence. Qed.

Lemma unescape_step c rest :
  unescape (escape_char c ++ rest)
  = match unescape rest with
    | Some (t, r) => Some (String c t, r)
    | None => None
    end.
Proof. destruct c as [[] [] [] [] [] [] [] []]; reflexivity. Qed.

Lemma unescape_escape s r : unescape (escape s ++ String dquote r) = Some (s, r).
Proof.
  induction s as [|c s IH]; cbn [escape].
  - reflexivity.
  - rewrite string_app_assoc, unescape_step, IH. reflexivity.
Qed.

Lemma take_digits_app a r :
  all_digits a = true -> no_digit_head r = true -> take_digits (a ++ r) = (a, r).
Proof.
  intros Ha Hr. induction a as [|c a IH]; cbn in *.
  - destruct r as [|c r]; [reflexivity|]. cbn in *.
    apply negb_true_iff in Hr. rewrite Hr. reflexivity.
  - apply andb_true_iff in Ha. destruct Ha as [Hc Ha].
    rewrite Hc, (IH Ha). reflexivity.
Qed.

Lemma uint_all_digits d : all_digits (NilEmpty.string_of_uint d) = true.
Proof. induction d; cbn; auto. Qed.

Lemma uint_text d :
  exists c t, NilZero.string_of_uint d = String c t
              /\ is_digit c = true /\ all_digits t = true.
Proof.
  destruct d; cbn; eexists _, _; (split; [reflexivity|]); split;
    try reflexivity; apply uint_all_digits.
Qed.

Lemma digit_not_minus c : is_digit c = true -> (c =? "-")%char = false.
Proof. destruct c as [[] [] [] [] [] [] [] []]; cbn; congruence. Qed.

Lemma take_number_int i r :
  no_digit_head r = true ->
  take_number (NilZero.string_of_int i ++ r) = (NilZero.string_of_int i, r).
Proof.
  intros Hr. destruct i as [d|d]; cbn [NilZero.string_of_int];
    destruct (uint_text d) as (c & t & E & Hc & Ht); rewrite E.
  - cbn [append take_number]. rewrite (digit_not_minus c Hc).
    change (String c (t ++ r)) with (String c t ++ r)%string.
    apply take_digits_app; [cbn; rewrite Hc, Ht; reflexivity | exact Hr].
  - cbn [append take_number]. cbn [Ascii.eqb Bool.eqb].
    change (String c (t ++ r)) with (String c t ++ r)%string.
    rewrite take_digits_app; [reflexivity | cbn; rewrite Hc, Ht; reflexivity | exact Hr].
Qed.

Lemma pos_to_uint_nonnil p : Pos.to_uint p <> Decimal.Nil.
Proof.
  intros H. pose proof (DecimalPos.Unsigned.of_to p) as E. rewrite H in E. discriminate.
Qed.

Lemma decode_number_ser n r :
  no_digit_head r = true -> decode_number (string_of_Z n ++ r) = Some (JNum n, r).
Proof.
  intros Hr. unfold decode_number, string_of_Z. rewrite take_number_int by exact Hr.
  rewrite NilZero.isi.
  - rewrite DecimalZ.of_to. reflexivity.
  - destruct n; cbn; try discriminate. intros [= H]. exact (pos_to_uint_nonnil _ H).
  - destruct n; cbn; try discriminate. intros [= H]. exact (pos_to_uint_nonnil _ H).
Qed.

Lemma string_of_Z_head n :
  exists c t, string_of_Z n = String c t /\ (is_digit c || (c =? "-")%char)%bool = true.
Proof.
  unfold string_of_Z. destruct (Z.to_int n) as [d|d]; cbn [NilZero.string_of_int].
  - destruct (uint_text d) as (c & t & E & Hc & _). exists c, t. rewrite E, Hc. auto.
  - eexists _, _. split; reflexivity.
Qed.

Lemma defined_ser v : defined_tree v = true -> ser v = Some (ser_text v).
Proof.
  unfold ser_text. destruct v as [| |[]|n|str|items|props]; cbn; congruence.
Qed.

Lemma ser_text_array items :
  ser_text (JArr items) = ("[" ++ items_text items ++ "]")%string.
Proof. reflexivity. Qed.

Lemma ser_text_object props :
  forallb (fun p => defined_tree (snd p)) props = true ->
  ser_text (JObj props) = ("{" ++ members_text props ++ "}")%string.
Proof.
  intros H. unfold ser_text, members_text. cbn [ser]. do 3 f_equal.
  induction props as [|[k v] r IH]; [reflexivity|].
  cbn in H. apply andb_true_iff in H. destruct H as [Hv Hr].
  cbn [flat_map map snd fst]. rewrite (defined_ser v Hv). cbn [app].
  rewrite (IH Hr). reflexivity.
Qed.

Lemma size_positive v : (1 <= size v)%nat.
Proof. destruct v; cbn; lia. Qed.

Lemma decode_S_number fuel c t :
  (is_digit c || (c =? "-")%char)%bool = true ->
  decode (S fuel) (String c t) = decode_number (String c t).
Proof. intros H. cbn [decode]. rewrite H. reflexivity. Qed.

Lemma decode_S_string fuel r :
  decode (S fuel) (String dquote r)
  = match unescape r with
    | Some (t, rest) => Some (JStr t, rest)
    | None => None
    end.
Proof. reflexivity. Qed.

Lemma decode_S_array fuel r :
  decode (S fuel) (String "[" r)
  = match decode_items fuel r with
    | Some (items, rest) => Some (JArr items, rest)
    | None =>
        match r with
        | String "]" rest => Some (JArr [], rest)
        | _ => None
        end
    end.
Proof. reflexivity. Qed.

Lemma decode_S_object fuel r :
  decode (S fuel) (String "{" r)
  = match decode_members fuel r with
    | Some (props, rest) => Some (JObj props, rest)
    | None =>
        match r with
        | String "}" rest => Some (JObj [], rest)
        | _ => None
        end
    end.
Proof. reflexivity. Qed.

Lemma decode_items_S fuel s :
  decode_items (S fuel) s
  = match decode fuel s with
    | Some (v, String c r) =>
        if (c =? ",")%char then
          match decode_items fuel r with
          | Some (items, rest) => Some (v :: items, rest)
          | None => None
          end
        else if (c =? "]")%char then Some ([v], r)
        else None
    | _ => None
    end.
Proof. reflexivity. Qed.

Lemma decode_members_S fuel r0 :
  decode_members (S fuel) (String dquote r0)
  = match unescape r0 with
    | Some (k, String colon r1) =>
        if (colon =? ":")%char then
          match decode fuel r1 with
          | Some (v, String c r) =>
              if (c =? ",")%char then
                match decode_members fuel r with
                | Some (props, rest) => Some ((k, v) :: props, rest)
                | None => None
                end
              else if (c =? "}")%char then Some ([(k, v)], r)
              else None
          | _ => None
          end
        else None
    | _ => None
    end.
Proof. reflexivity. Qed.

Lemma decode_items_close fuel r : decode_items fuel (String "]" r) = None.
Proof. destruct fuel as [|[|fuel]]; reflexivity. Qed.

Lemma decode_members_close fuel r : decode_members fuel (String "}" r) = None.
Proof. destruct fuel as [|fuel]; reflexivity. Qed.

(** The decoder reads back every value in which no [undefined] occurs,
    whatever follows it, provided that is not one more digit. *)
Lemma decode_ser_all fuel :
  (forall v r,
      (size v <= fuel)%nat -> defined_tree v = true -> no_digit_head r = true ->
      decode fuel (ser_text v ++ r) = Some (v, r))
  /\ (forall x l r,
         (items_size (x :: l) <= fuel)%nat -> forallb defined_tree (x :: l) = true ->
         decode_items fuel (items_text (x :: l) ++ String "]" r) = Some (x :: l, r))
  /\ (forall p l r,
         (props_size (p :: l) <= fuel)%nat ->
         forallb (fun q => defined_tree (snd q)) (p :: l) = true ->
         decode_members fuel (members_text (p :: l) ++ String "}" r) = Some (p :: l, r)).
Proof.
  induction fuel as [|fuel (IHv & IHi & IHm)].
  - split; [|split].
    + intros v r H. pose proof (size_positive v). lia.
    + intros x l r H. cbn in H. lia.
    + intros p l r H. cbn in H. lia.
  - split; [|split].
    + intros v r Hs Ht Hr. destruct v as [| |b|n|str|items|props].
      * discriminate.
      * reflexivity.
      * destruct b; reflexivity.
      * change (ser_text (JNum n)) with (string_of_Z n).
        destruct (string_of_Z_head n) as (c & t & E & Hh).
        rewrite <- (decode_number_ser n r Hr). rewrite E. cbn [append].
        apply decode_S_number, Hh.
      * change (ser_text (JStr str)) with (quote str). unfold quote. cbn [append].
        rewrite decode_S_string, string_app_assoc. cbn [append].
        rewrite unescape_escape. reflexivity.
      * rewrite ser_text_array. cbn [append]. rewrite string_app_assoc. cbn [append].
        rewrite decode_S_array. destruct items as [|x l].
        -- cbn [items_text map String.concat append]. rewrite decode_items_close. reflexivity.
        -- rewrite IHi; [reflexivity | cbn in Hs |- *; lia | exact Ht].
      * cbn [defined_tree] in Ht. rewrite (ser_text_object props Ht).
        cbn [append]. rewrite string_app_assoc. cbn [append].
        rewrite decode_S_object. destruct props as [|p l].
        -- cbn [members_text map String.concat append]. rewrite decode_members_close.
           reflexivity.
        -- rewrite IHm; [reflexivity | cbn in Hs |- *; lia | exact Ht].
    + intros x l r Hs Ht. cbn [forallb] in Ht. apply andb_true_iff in Ht.
      destruct Ht as [Hx Hl]. rewrite decode_items_S.
      assert (Hsx : (size x <= fuel)%nat) by (cbn in Hs; lia).
      destruct l as [|y l'].
      * cbn [items_text map String.concat]. rewrite IHv; [| exact Hsx | exact Hx | reflexivity]. reflexivity.
      * change (items_text (x :: y :: l'))
          with (ser_text x ++ "," ++ items_text (y :: l'))%string.
        rewrite !string_app_assoc. cbn [append].
        rewrite IHv; [| exact Hsx | exact Hx | reflexivity]. cbn [Ascii.eqb Bool.eqb].
        rewrite IHi; [reflexivity | cbn in Hs |- *; lia | exact Hl].
    + intros [k v] l r Hs Ht. cbn [forallb snd] in Ht. apply andb_true_iff in Ht.
      destruct Ht as [Hv Hl].
      assert (Hsv : (size v <= fuel)%nat) by (cbn in Hs; lia).
      assert (Hhead : forall rest,
                 decode_members (S fuel) (member_text (k, v) ++ rest)
                 = match decode fuel (ser_text v ++ rest) with
                   | Some (v', String c r') =>
                       if (c =? ",")%char then
                         match decode_members fuel r' with
                         | Some (props, rest') => Some ((k, v') :: props, rest')
                         | None => None
                         end
                       else if (c =? "}")%char then Some ([(k, v')], r')
                       else None
                   | _ => None
                   end).
      { intros rest. unfold member_text, quote. cbn [fst snd append].
        rewrite decode_members_S. rewrite !string_app_assoc. cbn [append].
        rewrite unescape_escape. reflexivity. }
      destruct l as [|q l'].
      * cbn [members_text map String.concat]. rewrite Hhead.
        rewrite IHv; [| exact Hsv | exact Hv | reflexivity]. reflexivity.
      * change (members_text ((k, v) :: q :: l'))
          with (member_text (k, v) ++ "," ++ members_text (q :: l'))%string.
        rewrite !string_app_assoc. rewrite Hhead. cbn [append].
        rewrite IHv; [| exact Hsv | exact Hv | reflexivity]. cbn [Ascii.eqb Bool.eqb].
        rewrite IHm; [reflexivity | cbn in Hs |- *; lia | exact Hl].
Qed.

(** Printing is injective on those values, also when more text follows. *)
Lemma ser_text_inj v1 v2 r1 r2 :
  defined_tree v1 = true -> defined_tree v2 = true ->
  no_digit_head r1 = true -> no_digit_head r2 = true ->
  (ser_text v1 ++ r1)%string = (ser_text v2 ++ r2)%string ->
  v1 = v2 /\ r1 = r2.
Proof.
  intros H1 H2 Hr1 Hr2 E.
  destruct (decode_ser_all (Nat.max (size v1) (size v2))) as (Hv & _ & _).
  pose proof (Hv v1 r1 (Nat.le_max_l _ _) H1 Hr1) as D1.
  pose proof (Hv v2 r2 (Nat.le_max_r _ _) H2 Hr2) as D2.
  rewrite E in D1. rewrite D1 in D2. injection D2 as -> ->. auto.
Qed.

(** *** Requests as the framework delivers them are printable *)

Lemma obj_set_json k v (o : obj jsval) :
  json_tree v = true ->
  forallb (fun p => json_tree (snd p)) o = true ->
  forallb (fun p => json_tree (snd p)) (obj_set k v o) = true.
Proof.
  intros Hv Ho. unfold obj_set. destruct (obj_has k o).
  - induction o as [|[k' v'] r IH]; cbn in *; [reflexivity|].
    apply andb_true_iff in Ho. destruct Ho as [H1 H2].
    destruct (k' =? k)%string; cbn; rewrite ?Hv, ?H1, ?H2, ?IH; auto.
  - induction o as [|[k' v'] r IH]; cbn in *; [rewrite Hv; reflexivity|].
    apply andb_true_iff in Ho. destruct Ho as [H1 H2].
    destruct (key_before k k'); cbn; rewrite ?Hv, ?H1, ?H2, ?IH; auto.
Qed.

Lemma obj_get_json k (o : obj jsval) :
  forallb (fun p => json_tree (snd p)) o = true ->
  In k (obj_keys o) ->
  json_tree (match obj_get k o with Some x => x | None => JUndefined end) = true.
Proof.
  induction o as [|[k' v'] r IH]; cbn; [intros _ []|].
  intros H Hin. apply andb_true_iff in H. destruct H as [H1 H2].
  destruct (String.eqb_spec k' k) as [->|Hne]; [exact H1|].
  destruct Hin as [E|Hin]; [congruence|]. apply IH; assumption.
Qed.

Lemma select_from_json config props keys acc :
  forallb (fun p => json_tree (snd p)) props = true ->
  (forall k, In k keys -> In k (obj_keys props)) ->
  forallb (fun p => json_tree (snd p)) acc = true ->
  forallb (fun p => json_tree (snd p)) (select_from config (JObj props) keys acc) = true.
Proof.
  intros Hp. revert acc. induction keys as [|k r IH]; intros acc Hk Hacc; [exact Hacc|].
  rewrite select_from_cons. apply IH; [intros k' H; apply Hk; right; exact H|].
  destruct (keyed config k); [|exact Hacc].
  apply obj_set_json; [|exact Hacc].
  apply obj_get_json; [exact Hp | apply Hk; left; reflexivity].
Qed.

Lemma select_params_json config source :
  (source = JUndefined
   \/ exists props, source = JObj props
                    /\ forallb (fun p => json_tree (snd p)) props = true) ->
  json_tree (JObj (select_params config source)) = true.
Proof.
  intros [->|(props & -> & Hp)]; [reflexivity|].
  apply (select_from_json config props (obj_keys props) [] Hp); auto.
Qed.

Lemma headers_from_json req names acc :
  (forall h, In h names -> truthy (Request.get req h) = true ->
             json_tree (Request.get req h) = true) ->
  forallb (fun p => json_tree (snd p)) acc = true ->
  forallb (fun p => json_tree (snd p)) (headers_from req names acc) = true.
Proof.
  revert acc. induction names as [|h r IH]; intros acc Hh Hacc; [exact Hacc|].
  rewrite headers_from_cons. apply IH; [intros h' H; apply Hh; right; exact H|].
  destruct (truthy (Request.get req h) && creates_property h) eqn:E; [|exact Hacc].
  apply andb_true_iff in E. destruct E as [E _].
  apply obj_set_json; [|exact Hacc]. apply Hh; [left; reflexivity | exact E].
Qed.

(** A request whose query is an object of JSON values, whose body under
    POST and PUT is such an object or absent, and whose headers the key
    varies by hold JSON values (strings, as a rule) is printable. *)
Theorem printable_request :
  forall config req,
    (exists q, Request.query req = JObj q
               /\ forallb (fun p => json_tree (snd p)) q = true) ->
    (keyed_body req = JUndefined
     \/ exists b, keyed_body req = JObj b
                  /\ forallb (fun p => json_tree (snd p)) b = true) ->
    (forall h, In h (vary_list config) -> truthy (Request.get req h) = true ->
               json_tree (Request.get req h) = true) ->
    printable config req.
Proof.
  intros config req Hq Hb Hh. split; [|split].
  - rewrite queryParams_select. apply select_params_json. right. exact Hq.
  - rewrite bodyParams_select. apply select_params_json. exact Hb.
  - rewrite headers_fold. apply (headers_from_json req (vary_list config) [] Hh).
    reflexivity.
Qed.

Lemma printable_request_witness : printable tenant_config (get_with_tenant (JStr "acme")).
Proof.
  apply printable_request.
  - exists []. split; reflexivity.
  - left. reflexivity.
  - intros h [<-|[]] _. reflexivity.
Defined.

Lemma string_app_inv_head (a x y : string) : (a ++ x)%string = (a ++ y)%string -> x = y.
Proof. induction a as [|c a IH]; cbn; [auto|]. intros [= H]. auto. Qed.

Lemma string_app_nil_r (a : string) : (a ++ "")%string = a.
Proof. induction a as [|c a IH]; cbn; congruence. Qed.

(** The built-in key, component by component. *)
Lemma generateCacheKey_text config req :
  customKeyGenerator config = None ->
  generateCacheKey req config
  = (Request.method req ++ "|" ++ Request.path req ++ "|"
     ++ ser_text (JObj (queryParams config req)) ++ "|"
     ++ ser_text (JObj (bodyParams config req)) ++ "|"
     ++ ser_text (JObj (headers config req)))%string.
Proof. intros H. unfold generateCacheKey. rewrite H. reflexivity. Qed.

(** Equal built-in keys of legible requests with the same method and path
    come from equal parameter objects. *)
Lemma generateCacheKey_objects config r1 r2 :
  customKeyGenerator config = None ->
  Request.method r1 = Request.method r2 ->
  Request.path r1 = Request.path r2 ->
  legible config r1 -> legible config r2 ->
  generateCacheKey r1 config = generateCacheKey r2 config ->
  queryParams config r1 = queryParams config r2
  /\ bodyParams config r1 = bodyParams config r2
  /\ headers config r1 = headers config r2.
Proof.
  intros Hc Hm Hp (Q1 & B1 & H1) (Q2 & B2 & H2) E.
  rewrite !generateCacheKey_text in E by exact Hc. rewrite Hm, Hp in E.
  do 4 apply string_app_inv_head in E.
  apply ser_text_inj in E; try assumption; try reflexivity.
  destruct E as [Eq E]. injection Eq as Eq. apply string_app_inv_head in E.
  apply ser_text_inj in E; try assumption; try reflexivity.
  destruct E as [Eb E]. injection Eb as Eb. apply string_app_inv_head in E.
  rewrite <- (string_app_nil_r (ser_text (JObj (headers config r1)))) in E.
  rewrite <- (string_app_nil_r (ser_text (JObj (headers config r2)))) in E.
  apply ser_text_inj in E; try assumption; try reflexivity.
  destruct E as [Eh _]. injection Eh as Eh. auto.
Qed.

Lemma obj_keys_replace {A} k (v : A) (o : obj A) :
  obj_keys (obj_replace k v o) = obj_keys o.
Proof.
  induction o as [|[k' v'] r IH]; cbn; [reflexivity|].
  destruct (k' =? k)%string; cbn; [reflexivity|]. unfold obj_keys in IH. rewrite IH.
  reflexivity.
Qed.

Lemma obj_keys_insert_filter {A} (keep : string -> bool) k (v : A) (o : obj A) :
  keep k = false ->
  filter keep (obj_keys (obj_insert k v o)) = filter keep (obj_keys o).
Proof.
  intros Hk. induction o as [|[k' v'] r IH]; cbn.
  - rewrite Hk. reflexivity.
  - destruct (key_before k k'); cbn.
    + rewrite Hk. reflexivity.
    + unfold obj_keys in IH. rewrite IH. reflexivity.
Qed.

(** Setting, adding or changing a query parameter outside the selection,
    or a header the key does not vary by, leaves the built-in key as it is. *)
Theorem unselected_field_keeps_key :
  forall config req,
    customKeyGenerator config = None ->
    (forall props k v,
        Request.query req = JObj props ->
        param_selected config k = false ->
        generateCacheKey (with_query req (JObj (obj_set k v props))) config
        = generateCacheKey req config)
    /\ (forall name value,
           ~ In name (vary_list config) ->
           generateCacheKey (with_header req name value) config
           = generateCacheKey req config).
Proof.
  intros config req Hc. split.
  - intros props k v Hq Hk.
    rewrite !generateCacheKey_text by exact Hc.
    assert (E : queryParams config (with_query req (JObj (obj_set k v props)))
                = queryParams config req).
    { assert (Hk0 : keyed config k = false) by (unfold keyed; rewrite Hk; reflexivity).
      rewrite !queryParams_select. cbn [with_query Request.query]. rewrite Hq.
      apply select_params_ext. split.
      - cbn [Object_keys]. unfold obj_set. destruct (obj_has k props).
        + rewrite obj_keys_replace. reflexivity.
        + apply obj_keys_insert_filter, Hk0.
      - intros k' Hk' _. cbn [get_prop].
        rewrite obj_get_set_other; [reflexivity|]. intros ->. congruence. }
    rewrite E. reflexivity.
  - intros name value Hn.
    rewrite !generateCacheKey_text by exact Hc.
    assert (E : headers config (with_header req name value) = headers config req).
    { rewrite !headers_fold. apply headers_from_ext. intros h Hh.
      unfold header_field. cbn [with_header Request.get].
      destruct (String.eqb_spec h name) as [->|Hne]; [contradiction | reflexivity]. }
    rewrite E. reflexivity.
Qed.

Lemma unselected_field_keeps_key_witness :
  generateCacheKey
    (with_query get_a (JObj (obj_set "utm" (JStr "x") [("page", JStr "2")]))) tracking_config
  = generateCacheKey get_a tracking_config.
Proof.
  exact (proj1 (unselected_field_keeps_key tracking_config get_a eq_refl)
               [("page", JStr "2")] "utm" (JStr "x") eq_refl eq_refl).
Defined.

(** Every printable value is one in which no [undefined] occurs. *)
Lemma json_tree_defined_sized fuel :
  forall v, (size v <= fuel)%nat -> json_tree v = true -> defined_tree v = true.
Proof.
  induction fuel as [|fuel IH]; intros v Hs Ht.
  - pose proof (size_positive v). lia.
  - destruct v as [| |b|n|str|items|props]; try reflexivity; try discriminate.
    + cbn [json_tree defined_tree] in *.
      assert (Hsz : (items_size items <= fuel)%nat) by (cbn in Hs; unfold items_size; lia).
      clear Hs. induction items as [|x l IHl]; [reflexivity|].
      cbn [forallb] in *. apply andb_true_iff in Ht. destruct Ht as [Hx Hl].
      cbn [items_size fold_right] in Hsz. fold (items_size l) in Hsz.
      rewrite (IH x) by (lia || exact Hx). apply IHl; [exact Hl | lia].
    + cbn [json_tree defined_tree] in *.
      assert (Hsz : (props_size props <= fuel)%nat) by (cbn in Hs; unfold props_size; lia).
      clear Hs. induction props as [|[k x] l IHl]; [reflexivity|].
      cbn [forallb snd] in *. apply andb_true_iff in Ht. destruct Ht as [Hx Hl].
      cbn [props_size fold_right snd] in Hsz. fold (props_size l) in Hsz.
      rewrite (IH x) by (lia || exact Hx). apply IHl; [exact Hl | lia].
Qed.

Lemma json_tree_defined v : json_tree v = true -> defined_tree v = true.
Proof. apply (json_tree_defined_sized (size v)). lia. Qed.

Lemma printable_legible config req : printable config req -> legible config req.
Proof.
  intros (Hq & Hb & Hh). repeat split; apply json_tree_defined; assumption.
Qed.

Lemma ser_defined v : v <> JUndefined -> ser v = Some (ser_text v).
Proof.
  unfold ser_text. destruct v as [| |[]|n|str|items|props]; cbn; congruence.
Qed.

Lemma printed_form_defined v : printed_form v <> JUndefined.
Proof. destruct v; discriminate. Qed.

(** [JSON.stringify] prints a value and its printed form alike, and no
    [undefined] occurs in the printed form. *)
Lemma printed_form_sized fuel :
  forall v, (size v <= fuel)%nat ->
            ser_text (printed_form v) = ser_text v
            /\ defined_tree (printed_form v) = true.
Proof.
  induction fuel as [|fuel IH]; intros v Hs.
  - pose proof (size_positive v). lia.
  - destruct v as [| |b|n|str|items|props]; try (split; reflexivity).
    + assert (Hsz : (items_size items <= fuel)%nat) by (cbn in Hs; unfold items_size; lia).
      clear Hs.
      assert (H : map ser_text (map printed_form items) = map ser_text items
                  /\ forallb defined_tree (map printed_form items) = true).
      { induction items as [|x l IHl]; [split; reflexivity|].
        cbn [items_size fold_right] in Hsz. fold (items_size l) in Hsz.
        destruct (IH x ltac:(lia)) as [Hx1 Hx2].
        destruct (IHl ltac:(lia)) as [Hl1 Hl2].
        cbn [map forallb]. rewrite Hx1, Hx2, Hl1, Hl2. split; reflexivity. }
      destruct H as [H1 H2]. split; [|exact H2].
      cbn [printed_form]. rewrite !ser_text_array. unfold items_text. rewrite H1.
      reflexivity.
    + assert (Hsz : (props_size props <= fuel)%nat) by (cbn in Hs; unfold props_size; lia).
      clear Hs.
      set (kept := fun p : string * jsval =>
                     match snd p with
                     | JUndefined => []
                     | _ => [(fst p, printed_form (snd p))]
                     end).
      set (texts := fun p : string * jsval =>
                      match ser (snd p) with
                      | Some t => [(quote (fst p) ++ ":" ++ t)%string]
                      | None => []
                      end).
      assert (H : flat_map texts (flat_map kept props) = flat_map texts props
                  /\ forallb (fun p => defined_tree (snd p)) (flat_map kept props) = true).
      { induction props as [|[k x] l IHl]; [split; reflexivity|].
        cbn [props_size fold_right snd] in Hsz. fold (props_size l) in Hsz.
        destruct (IH x ltac:(lia)) as [Hx1 Hx2].
        destruct (IHl ltac:(lia)) as [Hl1 Hl2].
        cbn [flat_map]. rewrite flat_map_app, forallb_app, Hl1, Hl2.
        assert (Hk : flat_map texts (kept (k, x)) = texts (k, x)
                     /\ forallb (fun p => defined_tree (snd p)) (kept (k, x)) = true).
        { destruct x as [| |b|n|str|items|props0]; try (split; reflexivity);
            unfold kept, texts; cbn [snd fst flat_map forallb app];
            rewrite (ser_defined _ (printed_form_defined _)), Hx1, Hx2;
            rewrite ser_defined by discriminate; split; reflexivity. }
        destruct Hk as [Hk1 Hk2]. rewrite Hk1, Hk2. split; reflexivity. }
      destruct H as [H1 H2]. split; [|exact H2].
      cbn [printed_form]. fold kept. unfold ser_text. cbn [ser]. fold texts.
      rewrite H1. reflexivity.
Qed.

Lemma printed_form_text v :
  ser_text (printed_form v) = ser_text v /\ defined_tree (printed_form v) = true.
Proof. apply (printed_form_sized (size v)). lia. Qed.

(** One text cannot be read as two: when what [JSON.stringify] prints of
    two values is followed by the delimiter, equal texts come from equal
    prints. *)
Lemma ser_text_split v1 v2 r1 r2 :
  (ser_text v1 ++ String "|" r1)%string = (ser_text v2 ++ String "|" r2)%string ->
  ser_text v1 = ser_text v2 /\ r1 = r2.
Proof.
  intros E.
  destruct (printed_form_text v1) as [T1 D1]. destruct (printed_form_text v2) as [T2 D2].
  rewrite <- T1, <- T2 in E.
  apply ser_text_inj in E; try assumption; try reflexivity.
  destruct E as [Ev Er]. injection Er as Er.
  rewrite <- T1, <- T2, Ev. auto.
Qed.

(** Equal built-in keys of requests with the same method and path print
    the three parameter objects alike. *)
Lemma generateCacheKey_texts config r1 r2 :
  customKeyGenerator config = None ->
  Request.method r1 = Request.method r2 ->
  Request.path r1 = Request.path r2 ->
  generateCacheKey r1 config = generateCacheKey r2 config ->
  ser_text (JObj (queryParams config r1)) = ser_text (JObj (queryParams config r2))
  /\ ser_text (JObj (bodyParams config r1)) = ser_text (JObj (bodyParams config r2))
  /\ ser_text (JObj (headers config r1)) = ser_text (JObj (headers config r2)).
Proof.
  intros Hc Hm Hp E.
  rewrite !generateCacheKey_text in E by exact Hc. rewrite Hm, Hp in E.
  do 4 apply string_app_inv_head in E.
  apply ser_text_split in E. destruct E as [Eq E].
  apply ser_text_split in E. destruct E as [Eb E].
  auto.
Qed.

(** C1, as amended: for a configuration without a custom generator and two
    requests with the same method and path,
    - if the requests show the same parameters that reach the key in their
      query (the same names in the same order, with the same values), the
      same in their body when the method is POST or PUT, and for every
      header the key varies by the same kept value or none in either, the
      keys are equal; a parameter reaches the key when it is selected and
      is not named [__proto__], a header is kept when its value is truthy
      and its name is not [__proto__];
    - the keys are equal exactly when [JSON.stringify] prints the three
      parameter objects of the two requests alike;
    - if no [undefined] occurs in those objects and the keys are equal, the
      three objects are equal;
    - so if no [undefined] occurs in them and some query parameter that
      reaches the key, some such body parameter under POST or PUT, or some
      kept header differs between the requests, the keys differ. *)
Theorem generateCacheKey_determinism :
  forall config r1 r2,
    customKeyGenerator config = None ->
    Request.method r1 = Request.method r2 ->
    Request.path r1 = Request.path r2 ->
    (same_selection config r1 r2 ->
     generateCacheKey r1 config = generateCacheKey r2 config)
    /\ (generateCacheKey r1 config = generateCacheKey r2 config
        <-> JSON_stringify (JObj (queryParams config r1))
            = JSON_stringify (JObj (queryParams config r2))
            /\ JSON_stringify (JObj (bodyParams config r1))
               = JSON_stringify (JObj (bodyParams config r2))
            /\ JSON_stringify (JObj (headers config r1))
               = JSON_stringify (JObj (headers config r2)))
    /\ (legible config r1 -> legible config r2 ->
        generateCacheKey r1 config = generateCacheKey r2 config ->
        queryParams config r1 = queryParams config r2
        /\ bodyParams config r1 = bodyParams config r2
        /\ headers config r1 = headers config r2)
    /\ (legible config r1 -> legible config r2 ->
        (exists k, keyed config k = true
                   /\ field (Request.query r1) k <> field (Request.query r2) k)
        \/ (exists k, keyed config k = true
                      /\ field (keyed_body r1) k <> field (keyed_body r2) k)
        \/ (exists h, In h (vary_list config)
                      /\ header_field r1 h <> header_field r2 h) ->
        generateCacheKey r1 config <> generateCacheKey r2 config).
Proof.
  intros config r1 r2 Hc Hm Hp. split; [|split; [|split]].
  - intros Hsel. apply same_selection_objects in Hsel. destruct Hsel as (Eq & Eb & Eh).
    rewrite !generateCacheKey_text by exact Hc. rewrite Hm, Hp, Eq, Eb, Eh. reflexivity.
  - split.
    + intros E. destruct (generateCacheKey_texts config r1 r2 Hc Hm Hp E) as (Eq & Eb & Eh).
      exact (conj (f_equal Some Eq) (conj (f_equal Some Eb) (f_equal Some Eh))).
    + intros (Eq & Eb & Eh). unfold JSON_stringify in Eq, Eb, Eh.
      rewrite !generateCacheKey_text by exact Hc. unfold ser_text.
      rewrite Hm, Hp, Eq, Eb, Eh. reflexivity.
  - apply generateCacheKey_objects; assumption.
  - intros P1 P2 Hdiff E.
    destruct (generateCacheKey_objects config r1 r2 Hc Hm Hp P1 P2 E) as (Eq & Eb & Eh).
    destruct Hdiff as [(k & Hk & Hd) | [(k & Hk & Hd) | (h & Hh & Hd)]]; apply Hd.
    + rewrite <- !(select_params_field config _ k Hk), <- !queryParams_select, Eq.
      reflexivity.
    + rewrite <- !(select_params_field config _ k Hk), <- !bodyParams_select, Eb.
      reflexivity.
    + rewrite <- !(headers_field config _ h Hh), Eh. reflexivity.
Qed.

Lemma generateCacheKey_determinism_witness :
  generateCacheKey get_a plain_config = generateCacheKey get_a_tracked tracking_config
  /\ generateCacheKey get_a plain_config <> generateCacheKey get_a_page3 plain_config.
Proof.
  split.
  - change (generateCacheKey get_a plain_config)
      with (generateCacheKey get_a tracking_config).
    apply (proj1 (generateCacheKey_determinism tracking_config get_a get_a_tracked
                    eq_refl eq_refl eq_refl)).
    split; [|split].
    + split; [reflexivity|]. intros k Hk [<-|[]]. reflexivity.
    + split; [reflexivity|]. intros k Hk [].
    + intros h [].
  - apply (proj2 (proj2 (proj2 (generateCacheKey_determinism plain_config get_a get_a_page3
                                  eq_refl eq_refl eq_refl)))).
    + repeat split.
    + repeat split.
    + left. exists "page". split; [reflexivity | vm_compute; discriminate].
Defined.

(** C1 as stated fails on the code, in both directions. The requests
    [?a=1&b=2] and [?b=2&a=1] agree on every selected field and get
    different keys, because the key lists the parameters in the order of the
    request. Two GET requests whose bodies differ in the selected field [id]
    get the same key, because the body is read under POST and PUT only; so
    do two requests of which one sends the header the key varies by with an
    empty value and the other does not send it, because only a truthy
    header value is kept; so do two POST requests whose bodies differ in the
    selected parameter [__proto__], because assigning under that name
    creates no property of the object that is printed; and so do two
    requests whose selected parameter lists [undefined] in the one and
    [null] in the other, because [JSON.stringify] prints both as [null]. *)
Lemma generateCacheKey_determinism_as_stated_fails :
  (selected_equal plain_config get_ab get_ba
   /\ generateCacheKey get_ab plain_config <> generateCacheKey get_ba plain_config)
  /\ (~ selected_equal id_config (get_with_id 1) (get_with_id 2)
      /\ generateCacheKey (get_with_id 1) id_config
         = generateCacheKey (get_with_id 2) id_config)
  /\ (~ selected_equal tenant_config (get_with_tenant (JStr "")) (get_with_tenant JUndefined)
      /\ generateCacheKey (get_with_tenant (JStr "")) tenant_config
         = generateCacheKey (get_with_tenant JUndefined) tenant_config)
  /\ (~ selected_equal plain_config (post_with_proto (JStr "1")) (post_with_proto (JStr "2"))
      /\ generateCacheKey (post_with_proto (JStr "1")) plain_config
         = generateCacheKey (post_with_proto (JStr "2")) plain_config)
  /\ (~ selected_equal plain_config (get_with_item JUndefined) (get_with_item JNull)
      /\ generateCacheKey (get_with_item JUndefined) plain_config
         = generateCacheKey (get_with_item JNull) plain_config)
  /\ ~ determinism_as_stated.
Proof.
  assert (Hsel : selected_equal plain_config get_ab get_ba).
  { split; [|split].
    - intros k _. unfold field, includes. cbn -[String.eqb].
      destruct ("a" =? k)%string eqn:Ea, ("b" =? k)%string eqn:Eb; try reflexivity.
      apply String.eqb_eq in Ea, Eb. congruence.
    - intros k _. reflexivity.
    - intros h _. reflexivity. }
  assert (Hkeys : generateCacheKey get_ab plain_config <> generateCacheKey get_ba plain_config)
    by (vm_compute; discriminate).
  split; [exact (conj Hsel Hkeys)|]. split; [|split; [|split; [|split]]].
  - split; [|reflexivity].
    intros (_ & Hb & _). specialize (Hb "id" eq_refl). vm_compute in Hb. discriminate.
  - split; [|reflexivity].
    intros (_ & _ & Hh). specialize (Hh "x-tenant" (or_introl eq_refl)).
    vm_compute in Hh. discriminate.
  - split; [|reflexivity].
    intros (_ & Hb & _). specialize (Hb "__proto__" eq_refl). vm_compute in Hb. discriminate.
  - split; [|reflexivity].
    intros (Hq & _ & _). specialize (Hq "ids" eq_refl). vm_compute in Hq. discriminate.
  - intros H.
    destruct (H plain_config get_ab get_ba eq_refl eq_refl eq_refl) as [Heq _].
    exact (Hkeys (Heq Hsel)).
Qed.

(** ** The in-process store *)

(** *** The rounding in [Math.ceil(keys.length * 0.1)] *)

Lemma ulp_facts p :
  2 ^ 53 <= p < 2 ^ 85 ->
  0 <= Z.log2 p - 52 <= 32
  /\ 2 <= 2 ^ (Z.log2 p - 52) <= 2 ^ 32
  /\ p < 2 ^ (Z.log2 p - 52) * 2 ^ 53.
Proof.
  intros [Hlo Hhi].
  assert (Hp : 0 < p) by (assert (0 < 2 ^ 53) by (apply Z.pow_pos_nonneg; lia); lia).
  assert (H53 : 53 <= Z.log2 p) by (apply Z.log2_le_pow2; [exact Hp | exact Hlo]).
  assert (H85 : Z.log2 p < 85) by (apply Z.log2_lt_pow2; [exact Hp | exact Hhi]).
  split; [lia|]. split.
  - split.
    + change 2 with (2 ^ 1) at 1. apply Z.pow_le_mono_r; lia.
    + apply Z.pow_le_mono_r; lia.
  - rewrite <- Z.pow_add_r by lia.
    replace (Z.log2 p - 52 + 53) with (Z.succ (Z.log2 p)) by lia.
    apply Z.log2_spec, Hp.
Qed.

(** Rounding moves a product of an array length and 0.1 by at most half a
    unit in the last place. *)
Lemma round_to_double_near p :
  0 <= p < 2 ^ 85 -> p - 2 ^ 31 <= round_to_double p <= p + 2 ^ 31.
Proof.
  intros [H0 Hhi]. unfold round_to_double.
  destruct (p <? 2 ^ 53) eqn:E.
  - assert (0 < 2 ^ 31) by (apply Z.pow_pos_nonneg; lia). lia.
  - apply Z.ltb_ge in E.
    destruct (ulp_facts p (conj E Hhi)) as (_ & [Hu2 Hu32] & _).
    cbv zeta. set (ulp := 2 ^ (Z.log2 p - 52)) in *.
    pose proof (Z.div_mod p ulp ltac:(lia)) as Hdm.
    pose proof (Z.mod_pos_bound p ulp ltac:(lia)) as Hm.
    change (2 ^ 32) with (2 * 2 ^ 31) in Hu32.
    destruct ((2 * (p mod ulp) >? ulp) || ((2 * (p mod ulp) =? ulp) && Z.odd (p / ulp)))
      eqn:Hup.
    + apply orb_true_iff in Hup.
      assert (ulp <= 2 * (p mod ulp)).
      { destruct Hup as [H|H].
        - apply Z.gtb_lt in H. lia.
        - apply andb_true_iff in H. destruct H as [H _]. apply Z.eqb_eq in H. lia. }
      nia.
    + apply orb_false_iff in Hup. destruct Hup as [H _].
      rewrite Z.gtb_ltb in H. apply Z.ltb_ge in H. nia.
Qed.

(** The product of a multiple of ten and 0.1 rounds to the exact quotient. *)
Lemma round_to_double_tens k :
  1 <= k < 2 ^ 29 -> round_to_double (k * 2 ^ 56 + 4 * k) = k * 2 ^ 56.
Proof.
  intros [Hk1 Hk2]. unfold round_to_double.
  set (p := k * 2 ^ 56 + 4 * k).
  assert (Hp : 2 ^ 53 <= p < 2 ^ 85).
  { unfold p. change (2 ^ 29) with 536870912 in Hk2.
    change (2 ^ 56) with 72057594037927936. change (2 ^ 53) with 9007199254740992.
    change (2 ^ 85) with 38685626227668133590597632. lia. }
  destruct (p <? 2 ^ 53) eqn:E; [apply Z.ltb_lt in E; lia|].
  destruct (ulp_facts p Hp) as ([He0 He32] & [Hu2 Hu32] & Hlt).
  cbv zeta. set (ulp := 2 ^ (Z.log2 p - 52)) in *.
  assert (Hdiv : 2 ^ 56 = ulp * 2 ^ (56 - (Z.log2 p - 52))).
  { unfold ulp. rewrite <- Z.pow_add_r by lia. f_equal. lia. }
  set (c := 2 ^ (56 - (Z.log2 p - 52))) in *.
  assert (H8 : 8 * k < ulp).
  { unfold p in Hlt. change (2 ^ 56) with (8 * 2 ^ 53) in Hlt.
    assert (0 < 2 ^ 53) by (apply Z.pow_pos_nonneg; lia). nia. }
  assert (Hq : p / ulp = k * c).
  { symmetry. apply (Z.div_unique p ulp (k * c) (4 * k)); [lia|].
    unfold p. rewrite Hdiv. ring. }
  assert (Hr : p mod ulp = 4 * k).
  { symmetry. apply (Z.mod_unique p ulp (k * c) (4 * k)); [lia|].
    unfold p. rewrite Hdiv. ring. }
  rewrite Hq, Hr.
  assert (Hg : (2 * (4 * k) >? ulp) = false) by (rewrite Z.gtb_ltb; apply Z.ltb_ge; lia).
  assert (Heq : (2 * (4 * k) =? ulp) = false) by (apply Z.eqb_neq; lia).
  rewrite Hg, Heq. cbn [orb andb]. rewrite Hdiv. ring.
Qed.

(** For every array length (below 2^32), [Math.ceil(n * 0.1)] in double
    precision is the integer ceiling of [n / 10]. *)
Theorem Math_ceil_tenth_is_ceil_tenth :
  forall n, Z.of_nat n < 2 ^ 32 -> Math_ceil_tenth n = ceil_tenth n.
Proof.
  intros n Hn. unfold Math_ceil_tenth, ceil_tenth.
  apply Nat2Z.inj. rewrite Nat2Z.inj_div. rewrite Nat2Z.inj_add.
  change (Z.of_nat 9) with 9. change (Z.of_nat 10) with 10.
  assert (HN : 0 <= Z.of_nat n < 2 ^ 32) by (split; [lia | exact Hn]).
  clear Hn.
  set (N := Z.of_nat n) in *.
  pose proof (Z.div_mod N 10 ltac:(lia)) as Hdm.
  pose proof (Z.mod_pos_bound N 10 ltac:(lia)) as Hj.
  set (k := N / 10) in *. set (j := N mod 10) in *.
  change (2 ^ 32) with 4294967296 in HN.
  assert (Hceil : (N + 9) / 10 = if j =? 0 then k else k + 1).
  { destruct (j =? 0) eqn:Ej.
    - apply Z.eqb_eq in Ej. symmetry. apply (Z.div_unique (N + 9) 10 k 9); lia.
    - apply Z.eqb_neq in Ej. symmetry.
      apply (Z.div_unique (N + 9) 10 (k + 1) (j - 1)); lia. }
  rewrite Hceil.
  assert (Hr : (round_to_double (N * tenth_mantissa) + 2 ^ 56 - 1) / 2 ^ 56
               = if j =? 0 then k else k + 1).
  { destruct (j =? 0) eqn:Ej.
    - apply Z.eqb_eq in Ej.
      assert (Hp : N * tenth_mantissa = k * 2 ^ 56 + 4 * k).
      { unfold tenth_mantissa. change (2 ^ 56) with 72057594037927936. lia. }
      rewrite Hp. destruct (Z.eq_dec k 0) as [->|Hk0].
      + reflexivity.
      + rewrite round_to_double_tens by (change (2 ^ 29) with 536870912; lia).
        symmetry. apply (Z.div_unique _ (2 ^ 56) k (2 ^ 56 - 1)); [|ring].
        change (2 ^ 56) with 72057594037927936. lia.
    - apply Z.eqb_neq in Ej.
      pose proof (round_to_double_near (N * tenth_mantissa)) as Hnear.
      unfold tenth_mantissa in *.
      change (2 ^ 85) with 38685626227668133590597632 in Hnear.
      change (2 ^ 31) with 2147483648 in Hnear.
      specialize (Hnear ltac:(lia)).
      set (r := round_to_double (N * 7205759403792794)) in *.
      change (2 ^ 56) with 72057594037927936.
      symmetry.
      apply (Z.div_unique _ 72057594037927936 (k + 1) (r - k * 72057594037927936 - 1)); lia. }
  rewrite Z2Nat.id; [exact Hr|]. rewrite Hr. destruct (j =? 0); lia.
Qed.

Lemma Math_ceil_tenth_is_ceil_tenth_witness :
  Math_ceil_tenth 1000 = ceil_tenth 1000.
Proof. apply Math_ceil_tenth_is_ceil_tenth. reflexivity. Defined.

Lemma ceil_tenth_spec n :
  (n <= 10 * ceil_tenth n < n + 10)%nat.
Proof.
  unfold ceil_tenth.
  pose proof (Nat.div_mod_eq (n + 9) 10) as H.
  pose proof (Nat.mod_upper_bound (n + 9) 10 ltac:(lia)) as Hm. lia.
Qed.

Lemma ceil_tenth_bounds n : (1 <= n -> 1 <= ceil_tenth n <= n)%nat.
Proof. intros H. pose proof (ceil_tenth_spec n). lia. Qed.

(** The eviction loop deletes the first [count] stored keys. *)
Lemma evict_first_keys count (e : Env NodeCache.cache) :
  for_each (firstn count (obj_keys (NodeCache.data (store e))))
           (fun k => _ <- NodeCache.del k ;; ret tt) e
  = (Ok tt, evicted e count).
Proof.
  revert e. induction count as [|n IH]; intros [[opts d] cons t0].
  - reflexivity.
  - destruct d as [|[k w] r].
    + reflexivity.
    + cbn [firstn obj_keys map fst for_each store NodeCache.data].
      unfold bind at 1. unfold bind at 1. unfold NodeCache.del at 1.
      cbn [store NodeCache.data]. unfold obj_has. cbn [obj_get obj_delete].
      rewrite String.eqb_refl. cbn [ret].
      unfold set_store, NodeCache.with_data. cbn [store console now NodeCache.options].
      specialize (IH {| store := {| NodeCache.options := opts; NodeCache.data := r |};
                        console := cons; now := t0 |}).
      cbn [store NodeCache.data] in IH. unfold obj_keys in IH. rewrite IH. reflexivity.
Qed.

(** What [NodeCacheAdapter.set] does, by cases on the table being full. *)
Lemma node_cache_set_cases key value ttl (e : Env NodeCache.cache) :
  NodeCache.set key value ttl e
  = if full (store e) then (Throw NodeCache.ECACHEFULL, e)
    else (Ok true,
          set_store e (NodeCache.with_data (store e)
            (obj_set key (NodeCache.wrap (store e) (now e) value ttl)
                     (NodeCache.data (store e))))).
Proof. reflexivity. Qed.

Lemma node_adapter_set_cases key value ttl (e : Env NodeCache.cache) :
  NodeCacheAdapter.set key value ttl e
  = if full (store e) then
      let e1 := evicted e (ceil_tenth (List.length (NodeCache.data (store e)))) in
      match NodeCache.set key value ttl e1 with
      | (Ok _, e2) => (Ok tt, e2)
      | (Throw retryError, e2) =>
          (Ok tt, snd (console_error "Failed to cache response after clearing space:"
                                     (Some retryError) e2))
      end
    else (Ok tt,
          set_store e (NodeCache.with_data (store e)
            (obj_set key (NodeCache.wrap (store e) (now e) value ttl)
                     (NodeCache.data (store e))))).
Proof.
  unfold NodeCacheAdapter.set, try_catch. unfold bind at 1.
  rewrite node_cache_set_cases. destruct (full (store e)) eqn:Hf.
  - cbn [NodeCache.ECACHEFULL errorcode String.eqb Ascii.eqb Bool.eqb].
    cbv beta iota. unfold bind at 1. unfold NodeCache.keys at 1, gets at 1.
    unfold bind at 1.
    replace (List.length (obj_keys (NodeCache.data (store e))))
      with (List.length (NodeCache.data (store e)))
      by (unfold obj_keys; rewrite length_map; reflexivity).
    rewrite evict_first_keys.
    unfold bind at 1. rewrite node_cache_set_cases.
    destruct (full (store (evicted e _))); reflexivity.
  - reflexivity.
Qed.

Lemma full_true_iff c :
  full c = true
  <-> NodeCache.maxKeys (NodeCache.options c) > -1
      /\ NodeCache.count c >= NodeCache.maxKeys (NodeCache.options c).
Proof.
  unfold full. rewrite andb_true_iff, Z.gtb_ltb, Z.geb_leb, Z.ltb_lt, Z.leb_le. lia.
Qed.

Lemma full_false_iff c :
  full c = false
  <-> NodeCache.maxKeys (NodeCache.options c) <= -1
      \/ NodeCache.count c < NodeCache.maxKeys (NodeCache.options c).
Proof.
  unfold full. rewrite andb_false_iff, Z.gtb_ltb, Z.geb_leb, Z.ltb_ge, Z.leb_gt. lia.
Qed.

(** Under a ceiling [N >= 1] that the table respects, a [set] through the
    adapter keeps the table within the ceiling and leaves the entry just
    written in it; console and clock are untouched. *)
Lemma node_adapter_set_bounded N key value ttl (e : Env NodeCache.cache) :
  1 <= N ->
  NodeCache.maxKeys (NodeCache.options (store e)) = N ->
  NodeCache.count (store e) <= N ->
  exists e',
    NodeCacheAdapter.set key value ttl e = (Ok tt, e')
    /\ NodeCache.options (store e') = NodeCache.options (store e)
    /\ NodeCache.count (store e') <= N
    /\ obj_get key (NodeCache.data (store e'))
       = Some (NodeCache.wrap (store e) (now e) value ttl)
    /\ console e' = console e
    /\ now e' = now e.
Proof.
  intros HN Hmax Hcount. rewrite node_adapter_set_cases.
  destruct (full (store e)) eqn:Hf.
  - apply full_true_iff in Hf. cbv zeta.
    set (n := List.length (NodeCache.data (store e))).
    assert (Hn : Z.of_nat n = N) by (unfold NodeCache.count in *; subst n; lia).
    pose proof (ceil_tenth_bounds n ltac:(lia)) as Hk.
    rewrite node_cache_set_cases.
    assert (Hlen : List.length (NodeCache.data (store (evicted e (ceil_tenth n))))
                   = (n - ceil_tenth n)%nat).
    { unfold evicted. cbn. rewrite length_skipn. reflexivity. }
    assert (Hnf : full (store (evicted e (ceil_tenth n))) = false).
    { apply full_false_iff. right. unfold NodeCache.count. rewrite Hlen.
      unfold evicted. cbn [store set_store NodeCache.options NodeCache.with_data]. lia. }
    rewrite Hnf. eexists. split; [reflexivity|].
    cbn [store set_store NodeCache.options NodeCache.with_data NodeCache.data console now evicted].
    repeat split.
    + unfold NodeCache.count.
      cbn [store set_store NodeCache.options NodeCache.with_data NodeCache.data].
      pose proof (obj_set_length key
                    (NodeCache.wrap (NodeCache.with_data (store e)
                       (skipn (ceil_tenth n) (NodeCache.data (store e)))) (now e) value ttl)
                    (skipn (ceil_tenth n) (NodeCache.data (store e)))) as Hl.
      rewrite length_skipn in Hl. fold n in Hl. lia.
    + rewrite obj_get_set. reflexivity.
  - apply full_false_iff in Hf. eexists. split; [reflexivity|].
    cbn [store set_store NodeCache.options NodeCache.with_data NodeCache.data console now].
    repeat split.
    + unfold NodeCache.count in *.
      cbn [store set_store NodeCache.options NodeCache.with_data NodeCache.data].
      pose proof (obj_set_length key (NodeCache.wrap (store e) (now e) value ttl)
                    (NodeCache.data (store e))) as Hl. lia.
    + apply obj_get_set.
Qed.

(** Storing a sequence of entries under a ceiling keeps the ceiling, and
    the last entry stored is in the table. *)
Lemma insert_all_bounded N entries (e : Env NodeCache.cache) :
  1 <= N ->
  NodeCache.maxKeys (NodeCache.options (store e)) = N ->
  NodeCache.count (store e) <= N ->
  exists e',
    insert_all entries e = (Ok tt, e')
    /\ NodeCache.options (store e') = NodeCache.options (store e)
    /\ NodeCache.count (store e') <= N
    /\ (forall earlier key value ttl,
           entries = (earlier ++ [(key, value, ttl)])%list ->
           obj_has key (NodeCache.data (store e')) = true).
Proof.
  intros HN. revert e. induction entries as [|[[k v] t0] r IH]; intros e Hmax Hcount.
  - exists e. repeat split; auto.
    intros earlier key value ttl H. destruct earlier; discriminate.
  - destruct (node_adapter_set_bounded N k v t0 e HN Hmax Hcount)
      as (e1 & Hset & Hopt & Hc1 & Hget & _ & _).
    destruct (IH e1) as (e2 & Hrun & Hopt2 & Hc2 & Hlast); [congruence | exact Hc1 |].
    exists e2. unfold insert_all in *. cbn [for_each]. unfold bind at 1.
    rewrite Hset. split; [exact Hrun|]. split; [congruence|]. split; [exact Hc2|].
    intros earlier key value ttl H.
    destruct earlier as [|x earlier'].
    + cbn in H. inversion H; subst; clear H.
      cbn in Hrun. injection Hrun as <-. unfold obj_has. rewrite Hget. reflexivity.
    + cbn in H. injection H as _ Hr. eapply Hlast. exact Hr.
Qed.

(** [NodeCacheAdapter.set] returns normally on every store. *)
Lemma node_adapter_set_returns key value ttl (e : Env NodeCache.cache) :
  exists e', NodeCacheAdapter.set key value ttl e = (Ok tt, e').
Proof.
  rewrite node_adapter_set_cases. destruct (full (store e)).
  - cbv zeta.
    destruct (NodeCache.set key value ttl (evicted e _)) as [[b|err] e2]; eauto.
  - eauto.
Qed.

(** A [set] through the adapter on a table within its ceiling stores the
    entry and keeps the table within the ceiling. *)
Lemma node_adapter_set_stores key value ttl (e : Env NodeCache.cache) :
  within_ceiling (store e) ->
  exists e',
    NodeCacheAdapter.set key value ttl e = (Ok tt, e')
    /\ within_ceiling (store e')
    /\ obj_get key (NodeCache.data (store e'))
       = Some (NodeCache.wrap (store e) (now e) value ttl)
    /\ console e' = console e
    /\ now e' = now e.
Proof.
  intros [Hun | (HN & Hc)].
  - rewrite node_adapter_set_cases.
    assert (Hf : full (store e) = false) by (apply full_false_iff; left; exact Hun).
    rewrite Hf. eexists. split; [reflexivity|].
    cbn [store set_store NodeCache.options NodeCache.with_data NodeCache.data console now].
    repeat split.
    + left. exact Hun.
    + apply obj_get_set.
  - destruct (node_adapter_set_bounded _ key value ttl e HN eq_refl Hc)
      as (e' & Hset & Hopt & Hc' & Hget & Hcons & Hnow).
    exists e'. repeat split; try assumption. right. rewrite Hopt. auto.
Qed.

(** The specification's end-to-end scenario: TTL 60 and [maxKeys = 2];
    after [k1] and [k2] both are stored; storing [k3] evicts the oldest key
    and leaves exactly [k2] and [k3]. *)
Example capacity_scenario :
  keys_after (insert_all [("k1", payload, Some 60); ("k2", payload, Some 60)] empty_env)
  = ["k1"; "k2"]
  /\ insert_all [("k1", payload, Some 60); ("k2", payload, Some 60); ("k3", payload, Some 60)]
       empty_env
     = (Ok tt,
        {| store :=
             {| NodeCache.options := NodeCache.options (store empty_env);
                NodeCache.data :=
                  [("k2", {| NodeCache.t := 61000; NodeCache.v := payload |});
                   ("k3", {| NodeCache.t := 61000; NodeCache.v := payload |})] |};
           console := []; now := 1000 |}).
Proof. split; reflexivity. Qed.

(** What [get] answers, as a function of the table and the clock. *)
Lemma node_cache_get_value key (e : Env NodeCache.cache) :
  fst (NodeCacheAdapter.get key e)
  = Ok (live_value (now e) key (NodeCache.data (store e))).
Proof.
  unfold NodeCacheAdapter.get, NodeCache.get, live_value.
  destruct (obj_get key (NodeCache.data (store e))) as [w|]; [|reflexivity].
  destruct (NodeCache.expired (now e) w); reflexivity.
Qed.

Lemma live_value_filter t0 key (d : obj NodeCache.Wrapped) :
  NoDup (obj_keys d) ->
  live_value t0 key (filter (fun kw => negb (NodeCache.expired t0 (snd kw))) d)
  = live_value t0 key d.
Proof.
  unfold live_value. induction d as [|[k w] r IH]; intros Hnd; [reflexivity|].
  inversion Hnd as [|? ? Hk Hr]; subst. specialize (IH Hr).
  cbn [filter snd obj_get].
  destruct (NodeCache.expired t0 w) eqn:Ew; cbn [negb obj_get].
  - destruct (String.eqb_spec k key) as [->|Hne]; [|exact IH].
    rewrite Ew.
    assert (Hnone : obj_get key
                      (filter (fun kw => negb (NodeCache.expired t0 (snd kw))) r) = None).
    { clear -Hk. induction r as [|[k' w'] r IH]; [reflexivity|].
      cbn [filter snd].
      assert (Hr : ~ In key (obj_keys r)) by (intros H; apply Hk; right; exact H).
      destruct (negb (NodeCache.expired t0 w')); cbn [obj_get].
      - destruct (String.eqb_spec k' key) as [->|_]; [exfalso; apply Hk; left; reflexivity|].
        apply IH, Hr.
      - apply IH, Hr. }
    rewrite Hnone. reflexivity.
  - destruct (String.eqb_spec k key) as [->|Hne]; [|exact IH].
    rewrite Ew. reflexivity.
Qed.

(** Lazy expiry agrees with the sweep: whether or not the periodic sweep
    has run, [get] answers the same. *)
Theorem get_after_sweep :
  forall key (e : Env NodeCache.cache),
    NoDup (obj_keys (NodeCache.data (store e))) ->
    fst (NodeCacheAdapter.get key (snd (NodeCache.checkData e)))
    = fst (NodeCacheAdapter.get key e).
Proof.
  intros key e Hnd. rewrite !node_cache_get_value. f_equal.
  unfold NodeCache.checkData, modify.
  cbn [snd set_store store now NodeCache.with_data NodeCache.data].
  apply live_value_filter, Hnd.
Qed.

Lemma get_after_sweep_witness :
  fst (NodeCacheAdapter.get key_a (snd (NodeCache.checkData (at_time warm_env 70000))))
  = fst (NodeCacheAdapter.get key_a (at_time warm_env 70000)).
Proof.
  apply get_after_sweep. repeat constructor. intros [].
Defined.

(** C4: [NodeCacheAdapter.set] never throws. When the store's own [set]
    fails because the table is full, the adapter deletes the first
    [ceil(n / 10)] of the [n] stored keys (at least one when there is a key,
    never more than there are), retries once on what is left, and a second
    failure is only logged. So from a new store with [maxKeys = N], [N] at
    least 1, storing any sequence of entries (in particular [N + 1] distinct
    keys) returns normally and leaves at most [N] keys, the last one stored
    among them. *)
Theorem node_adapter_set_evicts_and_never_throws :
  forall key value ttl (e : Env NodeCache.cache),
    (exists e', NodeCacheAdapter.set key value ttl e = (Ok tt, e'))
    /\ (NodeCache.set key value ttl e = (Throw NodeCache.ECACHEFULL, e) ->
        NodeCacheAdapter.set key value ttl e
        = match NodeCache.set key value ttl
                  (evicted e (ceil_tenth (List.length (NodeCache.data (store e))))) with
          | (Ok _, e2) => (Ok tt, e2)
          | (Throw retryError, e2) =>
              (Ok tt, logged "Failed to cache response after clearing space:" retryError e2)
          end
        /\ (List.length (NodeCache.data (store e))
            <= 10 * ceil_tenth (List.length (NodeCache.data (store e)))
            < List.length (NodeCache.data (store e)) + 10)%nat
        /\ (1 <= List.length (NodeCache.data (store e)) ->
            1 <= ceil_tenth (List.length (NodeCache.data (store e)))
            <= List.length (NodeCache.data (store e)))%nat
        /\ NodeCache.data (store (evicted e (ceil_tenth (List.length (NodeCache.data (store e))))))
           = skipn (ceil_tenth (List.length (NodeCache.data (store e))))
                   (NodeCache.data (store e)))
    /\ (forall N ttl0 period entries,
           1 <= N ->
           store e = NodeCacheAdapter.new
                       {| defaultTTL := ttl0; checkPeriod := period; maxKeys := Some N |} ->
           exists e',
             insert_all entries e = (Ok tt, e')
             /\ NodeCache.count (store e') <= N
             /\ (forall earlier k v t0,
                    entries = (earlier ++ [(k, v, t0)])%list ->
                    obj_has k (NodeCache.data (store e')) = true)).
Proof.
  intros key value ttl e. split; [|split].
  - apply node_adapter_set_returns.
  - intros Hfull. rewrite node_cache_set_cases in Hfull.
    destruct (full (store e)) eqn:Hf; [|discriminate].
    split; [|split; [|split]].
    + rewrite node_adapter_set_cases, Hf. reflexivity.
    + apply ceil_tenth_spec.
    + apply ceil_tenth_bounds.
    + reflexivity.
  - intros N ttl0 period entries HN Hstore.
    destruct (insert_all_bounded N entries e HN) as (e' & Hrun & _ & Hc & Hlast).
    + rewrite Hstore. cbn. destruct N; try lia; reflexivity.
    + rewrite Hstore. cbn. lia.
    + exists e'. auto.
Qed.

(** ** The middleware *)

Section MiddlewareFacts.
Context {St : Type}.
Variable this : AdvancedCache St.

Lemma middleware_key_of_GET config req :
  Request.method req = "GET" ->
  middleware_key this config req
  = Some (generateCacheKey req (merge_config (defaultConfig this) config)).
Proof.
  intros Hm. unfold middleware_key. rewrite Hm. reflexivity.
Qed.

Lemma middleware_key_passthrough config req :
  Request.method req <> "GET" ->
  config_customKeyGenerator config = None ->
  middleware_key this config req = None.
Proof.
  intros Hm Hc. unfold middleware_key. rewrite Hc.
  apply String.eqb_neq in Hm. rewrite Hm. reflexivity.
Qed.

(** The generator of the merged configuration is the one the route gave. *)
Lemma merged_customKeyGenerator config :
  customKeyGenerator (merge_config (defaultConfig this) config)
  = config_customKeyGenerator config.
Proof.
  destruct config as [c|]; reflexivity.
Qed.

(** [res.json] leaves the interceptors and the [next] count alone, and a
    call that returns has sent its payload. *)
Lemma json_through_frame wrappers body w o w' :
  json_through this wrappers body w = (o, w') ->
  next_calls w' = next_calls w
  /\ json_wrappers (res w') = json_wrappers (res w)
  /\ pipeline_errors w' = pipeline_errors w
  /\ (o = Ok tt -> sent (res w') = sent (res w) ++ [body])%list.
Proof.
  revert w o w'. induction wrappers as [|[k d] inner IH]; intros w o w' H.
  - cbn in H. inversion H; subst; clear H. cbn. auto.
  - cbn [json_through] in H. unfold bind in H.
    destruct (cache_body this k d body w) as [[[]|e] w1] eqn:Hc.
    + apply IH in H. destruct H as (H1 & H2 & H3 & H4).
      assert (Hf : next_calls w1 = next_calls w /\ res w1 = res w
                   /\ pipeline_errors w1 = pipeline_errors w).
      { unfold cache_body in Hc. destruct (isAsync this).
        - unfold try_catch, lift in Hc.
          destruct (CacheAdapter.set (cacheAdapter this) k body d (env w)) as [[[]|e1] e2].
          + inversion Hc; subst. cbn. auto.
          + cbn in Hc. inversion Hc; subst. cbn. auto.
        - unfold lift in Hc.
          destruct (CacheAdapter.set (cacheAdapter this) k body d (env w)) as [[[]|e1] e2];
            inversion Hc; subst; cbn; auto. }
      destruct Hf as (F1 & F2 & F3). rewrite <- F1, <- F2, <- F3. auto.
    + inversion H; subst; clear H.
      unfold cache_body in Hc. destruct (isAsync this).
      * unfold try_catch, lift in Hc.
        destruct (CacheAdapter.set (cacheAdapter this) k body d (env w)) as [[[]|e1] e2];
          cbn in Hc; inversion Hc.
      * unfold lift in Hc.
        destruct (CacheAdapter.set (cacheAdapter this) k body d (env w)) as [[[]|e1] e2];
          inversion Hc; subst; cbn.
        repeat split; auto. discriminate.
Qed.

(** When the manager is asynchronous, or its adapter's [set] does not throw,
    [res.json] returns normally. *)
Lemma res_json_returns body w :
  isAsync this = true
  \/ (forall key value ttl e,
         exists e', CacheAdapter.set (cacheAdapter this) key value ttl e = (Ok tt, e')) ->
  exists w', res_json this body w = (Ok tt, w').
Proof.
  intros Hgood. unfold res_json. generalize (json_wrappers (res w)). intros wrappers.
  revert w. induction wrappers as [|[k d] inner IH]; intros w.
  - cbn. unfold originalJson, modify. eauto.
  - cbn [json_through]. unfold bind.
    assert (Hc : exists w1, cache_body this k d body w = (Ok tt, w1)).
    { unfold cache_body. destruct (isAsync this) eqn:Ea.
      - unfold try_catch, lift.
        destruct (CacheAdapter.set (cacheAdapter this) k body d (env w)) as [[[]|err] e1];
          cbn; eauto.
      - destruct Hgood as [H|H]; [discriminate|].
        unfold lift. destruct (H k body d (env w)) as (e1 & ->). eauto. }
    destruct Hc as (w1 & ->). apply IH.
Qed.

(** The handler's [res.json] calls leave the [next] count alone. *)
Lemma for_each_res_json_frame bodies w o w' :
  for_each bodies (res_json this) w = (o, w') -> next_calls w' = next_calls w.
Proof.
  revert w. induction bodies as [|b r IH]; intros w H.
  - inversion H. reflexivity.
  - cbn [for_each] in H. unfold bind in H.
    destruct (res_json this b w) as [[[]|err] w1] eqn:Hb.
    + unfold res_json in Hb. apply json_through_frame in Hb.
      destruct Hb as (H1 & _). apply IH in H. congruence.
    + inversion H; subst. unfold res_json in Hb. apply json_through_frame in Hb.
      destruct Hb as (H1 & _). exact H1.
Qed.

(** With no interceptor installed, [res.json] is the framework's. *)
Lemma for_each_res_json_plain bodies w :
  json_wrappers (res w) = [] ->
  for_each bodies (res_json this) w
  = (Ok tt, with_res w {| json_wrappers := []; sent := (sent (res w) ++ bodies)%list |}).
Proof.
  revert w. induction bodies as [|b r IH]; intros w Hw.
  - cbn. unfold ret, with_res. destruct w as [e [jw st] n pe]. cbn in *. subst.
    rewrite app_nil_r. reflexivity.
  - cbn [for_each]. unfold bind, res_json at 1. rewrite Hw. cbn [json_through].
    unfold originalJson, modify. rewrite IH by (cbn; assumption).
    cbn. rewrite Hw, <- app_assoc. reflexivity.
Qed.

(** After a [get] that throws and after one that answers a falsy value
    the run goes on the same way. *)
Lemma middleware_miss_paths config req :
  (forall downstream w key err e',
      middleware_key this config req = Some key ->
      CacheAdapter.get (cacheAdapter this) key (env w) = (Throw err, e') ->
      middleware this config req downstream w
      = (override_json key (duration (merge_config (defaultConfig this) config)) ;;
         next this downstream)
          (with_env w (snd (console_error "Error retrieving from cache:" (Some err) e'))))
  /\ (forall downstream w key,
      middleware_key this config req = Some key ->
      forall v e',
      CacheAdapter.get (cacheAdapter this) key (env w) = (Ok v, e') ->
      truthy v = false ->
      middleware this config req downstream w
      = (override_json key (duration (merge_config (defaultConfig this) config)) ;;
         next this downstream) (with_env w e')).
Proof.
  split.
  - intros downstream w key err e' Hk Hget.
    unfold middleware. rewrite Hk.
    unfold bind at 1. unfold try_catch. unfold bind at 1. unfold lift at 1.
    rewrite Hget. unfold bind at 1. unfold lift. cbn. reflexivity.
  - intros downstream w key Hk v e' Hget Hv. unfold middleware. rewrite Hk.
    unfold bind at 1. unfold try_catch. unfold bind at 1. unfold lift at 1.
    rewrite Hget, Hv. reflexivity.
Qed.

(** A truthy answer of [get] is passed to [res.json], and that is all. *)
Lemma middleware_hit_aux config req downstream w key cached e' w' :
  middleware_key this config req = Some key ->
  CacheAdapter.get (cacheAdapter this) key (env w) = (Ok cached, e') ->
  truthy cached = true ->
  res_json this cached (with_env w e') = (Ok tt, w') ->
  middleware this config req downstream w = (Ok tt, w').
Proof.
  intros Hk Hget Ht Hjson. unfold middleware. rewrite Hk.
  unfold bind at 1. unfold try_catch. unfold bind at 1. unfold lift.
  rewrite Hget, Ht. unfold bind. rewrite Hjson. reflexivity.
Qed.

(** After a miss, a handler that answers [body] on a response nobody else
    has intercepted stores it and sends it. *)
Lemma miss_path_stores key dur body w e'' :
  json_wrappers (res w) = [] ->
  CacheAdapter.set (cacheAdapter this) key body dur (env w) = (Ok tt, e'') ->
  (override_json key dur ;; next this [body]) w
  = (Ok tt,
     {| env := e'';
        res := {| json_wrappers := [(key, dur)]; sent := (sent (res w) ++ [body])%list |};
        next_calls := S (next_calls w);
        pipeline_errors := pipeline_errors w |}).
Proof.
  intros Hw Hset.
  unfold bind at 1. unfold override_json, modify. unfold next.
  unfold bind at 1. unfold modify. unfold try_catch. cbn [for_each].
  unfold bind at 1. unfold res_json at 1.
  cbn [res json_wrappers with_res with_env json_through].
  unfold bind at 1.
  assert (Hc : forall wd,
             env wd = env w ->
             cache_body this key dur body wd = (Ok tt, with_env wd e'')).
  { intros wd He. unfold cache_body. destruct (isAsync this).
    - unfold try_catch, lift. rewrite He, Hset. reflexivity.
    - unfold lift. rewrite He, Hset. reflexivity. }
  rewrite Hc by reflexivity. cbn. rewrite Hw. reflexivity.
Qed.

(** [next()] returns normally whatever the downstream handler does. *)
Lemma next_returns downstream w : fst (next this downstream w) = Ok tt.
Proof.
  unfold next, bind, modify, try_catch.
  match goal with |- context [for_each ?d ?f ?x] => destruct (for_each d f x) as [[[]|e] w1] end;
    reflexivity.
Qed.
End MiddlewareFacts.

(** On both managers the constructor builds, [res.json] returns normally. *)
Lemma managers_res_json_returns :
  (forall options body w, exists w', res_json (AdvancedCache_node options) body w = (Ok tt, w'))
  /\ (forall C JSON_parse (client : Redis.client C) options body w,
         exists w', res_json (AdvancedCache_redis JSON_parse client options) body w
                    = (Ok tt, w')).
Proof.
  split.
  - intros options body w. apply res_json_returns. right.
    intros key value ttl e. apply node_adapter_set_returns.
  - intros C JSON_parse client options body w. apply res_json_returns. left. reflexivity.
Qed.

(** C3: a request whose method is not GET, on a route without a custom key
    generator, is handed to [next] at once: no key is derived, the
    middleware's run is the run of [next] alone, and on a response nobody
    has intercepted the adapter's environment (store and console) comes out
    as it went in, the response has no interceptor, and the payloads of the
    downstream handler are sent as they are. *)
Theorem middleware_non_get_passthrough :
  forall St (this : AdvancedCache St) config req downstream w,
    Request.method req <> "GET" ->
    config_customKeyGenerator config = None ->
    middleware_key this config req = None
    /\ middleware this config req downstream w = next this downstream w
    /\ (json_wrappers (res w) = [] ->
        middleware this config req downstream w
        = (Ok tt,
           {| env := env w;
              res := {| json_wrappers := []; sent := (sent (res w) ++ downstream)%list |};
              next_calls := S (next_calls w);
              pipeline_errors := pipeline_errors w |})).
Proof.
  intros St this config req downstream w Hm Hc.
  pose proof (middleware_key_passthrough this config req Hm Hc) as Hk.
  split; [exact Hk|]. split.
  - unfold middleware. rewrite Hk. reflexivity.
  - intros Hw. unfold middleware. rewrite Hk.
    unfold next, bind, modify, try_catch.
    rewrite for_each_res_json_plain by (cbn; exact Hw). reflexivity.
Qed.

Lemma middleware_non_get_passthrough_witness :
  middleware node_manager None post_a [JNum 1] (world_of empty_env)
  = next node_manager [JNum 1] (world_of empty_env).
Proof.
  exact (proj1 (proj2 (middleware_non_get_passthrough _ node_manager None post_a [JNum 1]
                         (world_of empty_env) ltac:(discriminate) eq_refl))).
Defined.

(** C2: on a GET request, when the adapter's [get] on the derived key
    answers a truthy value and [res.json] of that value returns, the
    middleware's run is that [res.json] call: the stored value is the one
    payload sent, [next] is not called, and nothing is installed over
    [res.json]. *)
Theorem middleware_hit_short_circuits :
  forall St (this : AdvancedCache St) config req downstream w cached e' w',
    Request.method req = "GET" ->
    CacheAdapter.get (cacheAdapter this)
      (generateCacheKey req (merge_config (defaultConfig this) config)) (env w)
    = (Ok cached, e') ->
    truthy cached = true ->
    res_json this cached (with_env w e') = (Ok tt, w') ->
    middleware this config req downstream w = (Ok tt, w')
    /\ sent (res w') = (sent (res w) ++ [cached])%list
    /\ next_calls w' = next_calls w
    /\ json_wrappers (res w') = json_wrappers (res w).
Proof.
  intros St this config req downstream w cached e' w' Hm Hget Ht Hjson.
  split.
  - exact (middleware_hit_aux this config req downstream w _ cached e' w'
             (middleware_key_of_GET this config req Hm) Hget Ht Hjson).
  - unfold res_json in Hjson. apply json_through_frame in Hjson.
    destruct Hjson as (H1 & H2 & H3 & H4). cbn in *. auto.
Qed.

Lemma middleware_hit_short_circuits_witness :
  middleware node_manager None get_a [JNum 5] (world_of warm_env)
  = (Ok tt, snd (res_json node_manager payload (world_of warm_env)))
  /\ sent (res (snd (res_json node_manager payload (world_of warm_env))))
     = (sent (res (world_of warm_env)) ++ [payload])%list
  /\ next_calls (snd (res_json node_manager payload (world_of warm_env)))
     = next_calls (world_of warm_env)
  /\ json_wrappers (res (snd (res_json node_manager payload (world_of warm_env))))
     = json_wrappers (res (world_of warm_env)).
Proof.
  exact (middleware_hit_short_circuits _ node_manager None get_a [JNum 5]
           (world_of warm_env) payload warm_env _ eq_refl eq_refl eq_refl eq_refl).
Defined.

(** C5: on a request the middleware derives a key for, a [get] that throws
    is caught and logged, and the run continues as on a miss: the
    interceptor is installed and [next] is called, from the environment the
    failed [get] left plus the log line; the middleware returns normally.
    A [get] that answers a falsy value continues the same way from the
    environment it left. *)
Theorem middleware_get_failure_is_a_miss :
  forall St (this : AdvancedCache St) config req downstream w key,
    middleware_key this config req = Some key ->
    (forall err e',
        CacheAdapter.get (cacheAdapter this) key (env w) = (Throw err, e') ->
        middleware this config req downstream w
        = (override_json key (duration (merge_config (defaultConfig this) config)) ;;
           next this downstream) (with_env w (logged_get_failure e' err))
        /\ fst (middleware this config req downstream w) = Ok tt)
    /\ (forall v e',
        CacheAdapter.get (cacheAdapter this) key (env w) = (Ok v, e') ->
        truthy v = false ->
        middleware this config req downstream w
        = (override_json key (duration (merge_config (defaultConfig this) config)) ;;
           next this downstream) (with_env w e')).
Proof.
  intros St this config req downstream w key Hk.
  destruct (middleware_miss_paths this config req) as [Hthrow Hmiss].
  split.
  - intros err e' Hget.
    pose proof (Hthrow downstream w key err e' Hk Hget) as Heq.
    split; [exact Heq|]. rewrite Heq.
    unfold bind, override_json, modify. apply next_returns.
  - intros v e' Hget Hv. exact (Hmiss downstream w key Hk v e' Hget Hv).
Qed.

Lemma middleware_get_failure_is_a_miss_witness :
  middleware failing_manager None get_a [payload] (world_of empty_env)
  = (override_json key_a (duration (merge_config (defaultConfig failing_manager) None)) ;;
     next failing_manager [payload])
      (with_env (world_of empty_env) (logged_get_failure empty_env backend_down))
  /\ fst (middleware failing_manager None get_a [payload] (world_of empty_env)) = Ok tt.
Proof.
  exact (proj1 (middleware_get_failure_is_a_miss _ failing_manager None get_a [payload]
                  (world_of empty_env) key_a eq_refl)
               backend_down empty_env eq_refl).
Defined.

(** The payloads the [if (cachedResponse)] test rejects. *)
Example falsy_payloads :
  truthy (JBool false) = false /\ truthy (JNum 0) = false
  /\ truthy (JStr "") = false /\ truthy JNull = false /\ truthy JUndefined = false.
Proof. repeat split. Qed.

(** The in-process store answers what it holds until the entry expires. *)
Lemma node_cache_get_cases key (e : Env NodeCache.cache) w :
  obj_get key (NodeCache.data (store e)) = Some w ->
  NodeCacheAdapter.get key e
  = if NodeCache.expired (now e) w
    then (Ok JUndefined,
          set_store e (NodeCache.with_data (store e)
                         (obj_delete key (NodeCache.data (store e)))))
    else (Ok (NodeCache.v w), e).
Proof.
  intros H. unfold NodeCacheAdapter.get, NodeCache.get. rewrite H. reflexivity.
Qed.

(** C9: on a GET request whose derived key holds a falsy value, the
    middleware does not answer from the cache: it installs the interceptor
    and calls [next] as on a miss, and when the downstream handler then
    answers with [body] on a response nobody else has intercepted, the
    adapter's [set] is run with the key, [body] and the duration, [body] is
    the one payload sent and [next] was called once. On the in-process
    manager, with a store within its ceiling that holds a live falsy entry
    under the key, the store afterwards holds [body] under the key in place
    of the falsy value, nothing is logged, and a later [get] answers [body]
    while the new entry lives. On the Redis manager the environment is the
    one the client's [setex] with the key, the duration and the text of
    [body] left, with a log line when that command failed. *)
Theorem middleware_falsy_entry_not_served :
  (forall St (this : AdvancedCache St) config req w v e',
      Request.method req = "GET" ->
      CacheAdapter.get (cacheAdapter this)
        (generateCacheKey req (merge_config (defaultConfig this) config)) (env w)
      = (Ok v, e') ->
      truthy v = false ->
      (forall downstream,
          middleware this config req downstream w
          = (override_json (generateCacheKey req (merge_config (defaultConfig this) config))
                           (duration (merge_config (defaultConfig this) config)) ;;
             next this downstream) (with_env w e'))
      /\ (forall body e'',
          json_wrappers (res w) = [] ->
          CacheAdapter.set (cacheAdapter this)
            (generateCacheKey req (merge_config (defaultConfig this) config)) body
            (duration (merge_config (defaultConfig this) config)) e'
          = (Ok tt, e'') ->
          middleware this config req [body] w
          = (Ok tt,
             {| env := e'';
                res := {| json_wrappers :=
                            [(generateCacheKey req (merge_config (defaultConfig this) config),
                              duration (merge_config (defaultConfig this) config))];
                          sent := (sent (res w) ++ [body])%list |};
                next_calls := S (next_calls w);
                pipeline_errors := pipeline_errors w |})))
  /\ (forall options config req (w : World NodeCache.cache) stored body,
         let this := AdvancedCache_node options in
         let key := generateCacheKey req (merge_config (defaultConfig this) config) in
         let dur := duration (merge_config (defaultConfig this) config) in
         Request.method req = "GET" ->
         json_wrappers (res w) = [] ->
         within_ceiling (store (env w)) ->
         obj_get key (NodeCache.data (store (env w))) = Some stored ->
         NodeCache.expired (now (env w)) stored = false ->
         truthy (NodeCache.v stored) = false ->
         exists e1,
           middleware this config req [body] w
           = (Ok tt,
              {| env := e1;
                 res := {| json_wrappers := [(key, dur)];
                           sent := (sent (res w) ++ [body])%list |};
                 next_calls := S (next_calls w);
                 pipeline_errors := pipeline_errors w |})
           /\ obj_get key (NodeCache.data (store e1))
              = Some (NodeCache.wrap (store (env w)) (now (env w)) body dur)
           /\ console e1 = console (env w)
           /\ (forall later,
                  NodeCache.expired later
                    (NodeCache.wrap (store (env w)) (now (env w)) body dur) = false ->
                  NodeCacheAdapter.get key (at_time e1 later) = (Ok body, at_time e1 later)))
  /\ (forall C (JSON_parse : string -> outcome jsval) (client : Redis.client C) options
             config req (w : World C) text v e' body,
         let this := AdvancedCache_redis JSON_parse client options in
         let key := generateCacheKey req (merge_config (defaultConfig this) config) in
         let dur := duration (merge_config (defaultConfig this) config) in
         Request.method req = "GET" ->
         json_wrappers (res w) = [] ->
         Redis.get client key (env w) = (Ok (Some text), e') ->
         text <> "" ->
         JSON_parse text = Ok v ->
         truthy v = false ->
         middleware this config req [body] w
         = (Ok tt,
            {| env := match Redis.setex client key dur (JSON_stringify body) e' with
                      | (Ok _, e2) => e2
                      | (Throw err, e2) => logged "Redis set error:" err e2
                      end;
               res := {| json_wrappers := [(key, dur)];
                         sent := (sent (res w) ++ [body])%list |};
               next_calls := S (next_calls w);
               pipeline_errors := pipeline_errors w |})).
Proof.
  split; [|split].
  - intros St this config req w v e' Hm Hget Hv.
    pose proof (middleware_key_of_GET this config req Hm) as Hk.
    destruct (middleware_miss_paths this config req) as [_ Hmiss].
    split.
    + intros downstream. apply (Hmiss downstream w _ Hk v e' Hget Hv).
    + intros body e'' Hw Hset.
      rewrite (Hmiss [body] w _ Hk v e' Hget Hv).
      rewrite (miss_path_stores this _ _ body (with_env w e') e'' Hw Hset). reflexivity.
  - intros options config req w stored body this key dur Hm Hw Hin Hstored Hlive Hv.
    pose proof (middleware_key_of_GET this config req Hm) as Hk. fold key in Hk.
    destruct (middleware_miss_paths this config req) as [_ Hmiss].
    assert (Hget : CacheAdapter.get (cacheAdapter this) key (env w)
                   = (Ok (NodeCache.v stored), env w)).
    { unfold this. cbn [AdvancedCache_node cacheAdapter CacheAdapter.get
                        NodeCacheAdapter.adapter].
      rewrite (node_cache_get_cases key (env w) stored Hstored), Hlive. reflexivity. }
    destruct (node_adapter_set_stores key body dur (env w) Hin)
      as (e1 & Hset & _ & Hget1 & Hcons & _).
    exists e1. split; [|split; [exact Hget1 | split; [exact Hcons|]]].
    + rewrite (Hmiss [body] w key Hk _ (env w) Hget Hv). fold dur.
      rewrite (miss_path_stores this key dur body (with_env w (env w)) e1 Hw Hset).
      reflexivity.
    + intros later Hl.
      rewrite (node_cache_get_cases key (at_time e1 later) _ Hget1).
      cbn [at_time now]. rewrite Hl. reflexivity.
  - intros C JSON_parse client options config req w text v e' body this key dur
           Hm Hw Hget Htext Hparse Hv.
    pose proof (middleware_key_of_GET this config req Hm) as Hk. fold key in Hk.
    destruct (middleware_miss_paths this config req) as [_ Hmiss].
    assert (Hg : CacheAdapter.get (cacheAdapter this) key (env w) = (Ok v, e')).
    { unfold this. cbn [AdvancedCache_redis cacheAdapter CacheAdapter.get
                        RedisCacheAdapter.adapter].
      unfold RedisCacheAdapter.get, try_catch, bind. rewrite Hget.
      apply String.eqb_neq in Htext. rewrite Htext. cbn [negb].
      unfold lift_outcome. rewrite Hparse. reflexivity. }
    rewrite (Hmiss [body] w key Hk v e' Hg Hv). fold dur.
    assert (Hset : CacheAdapter.set (cacheAdapter this) key body dur e'
                   = (Ok tt,
                      match Redis.setex client key dur (JSON_stringify body) e' with
                      | (Ok _, e2) => e2
                      | (Throw err, e2) => logged "Redis set error:" err e2
                      end)).
    { unfold this. cbn [AdvancedCache_redis cacheAdapter CacheAdapter.set
                        RedisCacheAdapter.adapter].
      unfold RedisCacheAdapter.set, try_catch.
      destruct (Redis.setex client key dur (JSON_stringify body) e') as [[[]|err] e2];
        reflexivity. }
    rewrite (miss_path_stores this key dur body (with_env w e') _ Hw Hset). reflexivity.
Qed.

Lemma middleware_falsy_entry_not_served_witness :
  exists e1,
    middleware node_manager None get_a [payload] (world_of zero_env)
    = (Ok tt,
       {| env := e1;
          res := {| json_wrappers := [(key_a, Some 60)]; sent := [payload] |};
          next_calls := 1;
          pipeline_errors := [] |})
    /\ obj_get key_a (NodeCache.data (store e1))
       = Some {| NodeCache.t := 61000; NodeCache.v := payload |}
    /\ NodeCacheAdapter.get key_a (at_time e1 2000) = (Ok payload, at_time e1 2000).
Proof.
  destruct (proj1 (proj2 middleware_falsy_entry_not_served) example_options None get_a
              (world_of zero_env) {| NodeCache.t := 61000; NodeCache.v := JNum 0 |} payload
              eq_refl eq_refl)
    as (e1 & Hrun & Hheld & _ & Hlater).
  - right. cbn. lia.
  - reflexivity.
  - reflexivity.
  - reflexivity.
  - exists e1. split; [exact Hrun|]. split; [exact Hheld|]. apply Hlater. reflexivity.
Defined.

(** C10: a key the middleware derives with the built-in derivation (the
    merged configuration has no custom generator) belongs to a GET request;
    its body-parameter object is empty and prints as the empty JSON object,
    so the key is method, path, query object, [{}] and header object joined
    by the delimiter, and it is the same whatever the request body is. *)
Theorem builtin_key_has_empty_body_component :
  forall St (this : AdvancedCache St) config req key,
    middleware_key this config req = Some key ->
    customKeyGenerator (merge_config (defaultConfig this) config) = None ->
    Request.method req = "GET"
    /\ bodyParams (merge_config (defaultConfig this) config) req = []
    /\ key = join "|"
               [ Some "GET"; Some (Request.path req);
                 JSON_stringify (JObj (queryParams (merge_config (defaultConfig this) config) req));
                 Some "{}";
                 JSON_stringify (JObj (headers (merge_config (defaultConfig this) config) req)) ]
    /\ (forall b, middleware_key this config (with_body req b) = Some key).
Proof.
  intros St this config req key Hk Hgen.
  pose proof Hgen as Hc. rewrite merged_customKeyGenerator in Hc.
  assert (Hm : Request.method req = "GET").
  { unfold middleware_key in Hk. rewrite Hc in Hk.
    destruct (Request.method req =? "GET")%string eqn:E.
    - apply String.eqb_eq in E. exact E.
    - cbn in Hk. discriminate. }
  assert (Hb : forall r, Request.method r = "GET" ->
                         bodyParams (merge_config (defaultConfig this) config) r = []).
  { intros r Hr. unfold bodyParams. rewrite Hr. cbn.
    rewrite andb_false_r. reflexivity. }
  rewrite (middleware_key_of_GET this config req Hm) in Hk.
  injection Hk as Hk. subst key.
  repeat split.
  - exact Hm.
  - apply Hb, Hm.
  - unfold generateCacheKey. rewrite Hgen, (Hb req Hm), Hm. reflexivity.
  - intros b. rewrite (middleware_key_of_GET this config (with_body req b) Hm).
    unfold generateCacheKey. rewrite Hgen.
    rewrite (Hb req Hm), (Hb (with_body req b) Hm). reflexivity.
Qed.

Lemma builtin_key_has_empty_body_component_witness :
  Request.method get_a = "GET"
  /\ bodyParams (merge_config (defaultConfig node_manager) None) get_a = []
  /\ key_a = join "|"
               [ Some "GET"; Some (Request.path get_a);
                 JSON_stringify (JObj (queryParams (merge_config (defaultConfig node_manager) None) get_a));
                 Some "{}";
                 JSON_stringify (JObj (headers (merge_config (defaultConfig node_manager) None) get_a)) ]
    /\ (forall b, middleware_key node_manager None (with_body get_a b) = Some key_a).
Proof.
  exact (builtin_key_has_empty_body_component _ node_manager None get_a key_a eq_refl eq_refl).
Defined.

(** Read-through on the in-process manager: a GET request whose key is not
    stored runs the handler; when the handler answers the truthy payload
    [P], that payload is stored under the request's key. The same request
    arriving at a time [later] at which the entry has not expired is
    answered [P] from the store, without [next]; at a time [expiry] at which
    it has expired, [next] is called again. *)
Theorem read_through_in_process :
  forall options config req P (e : Env NodeCache.cache) later expiry downstream,
    Request.method req = "GET" ->
    truthy P = true ->
    within_ceiling (store e) ->
    obj_get (generateCacheKey req (merge_config (defaultConfig (AdvancedCache_node options)) config))
            (NodeCache.data (store e)) = None ->
    NodeCache.expired later
      (NodeCache.wrap (store e) (now e) P
         (duration (merge_config (defaultConfig (AdvancedCache_node options)) config)))
    = false ->
    NodeCache.expired expiry
      (NodeCache.wrap (store e) (now e) P
         (duration (merge_config (defaultConfig (AdvancedCache_node options)) config)))
    = true ->
    exists e1,
      middleware (AdvancedCache_node options) config req [P] (world_of e)
      = (Ok tt,
         {| env := e1;
            res := {| json_wrappers :=
                        [(generateCacheKey req
                            (merge_config (defaultConfig (AdvancedCache_node options)) config),
                          duration (merge_config (defaultConfig (AdvancedCache_node options))
                                      config))];
                      sent := [P] |};
            next_calls := 1;
            pipeline_errors := [] |})
      /\ middleware (AdvancedCache_node options) config req downstream
           (world_of (at_time e1 later))
         = (Ok tt,
            {| env := at_time e1 later;
               res := {| json_wrappers := []; sent := [P] |};
               next_calls := 0;
               pipeline_errors := [] |})
      /\ next_calls (snd (middleware (AdvancedCache_node options) config req downstream
                            (world_of (at_time e1 expiry))))
         = 1%nat.
Proof.
  intros options config req P e later expiry downstream Hm HP Hin Habsent Hlive Hdead.
  set (this := AdvancedCache_node options) in *.
  set (key := generateCacheKey req (merge_config (defaultConfig this) config)) in *.
  set (dur := duration (merge_config (defaultConfig this) config)) in *.
  pose proof (middleware_key_of_GET this config req Hm) as Hk. fold key in Hk.
  destruct (middleware_miss_paths this config req) as [_ Hmiss].
  destruct (node_adapter_set_stores key P dur e Hin)
    as (e1 & Hset & Hin1 & Hget1 & Hcons & Hnow).
  exists e1. split; [|split].
  - rewrite (Hmiss [P] (world_of e) key Hk JUndefined e); [| | reflexivity].
    + fold dur.
      rewrite (miss_path_stores this key dur P (with_env (world_of e) e) e1 eq_refl Hset).
      reflexivity.
    + unfold this. cbn [AdvancedCache_node cacheAdapter CacheAdapter.get
                        NodeCacheAdapter.adapter world_of env].
      unfold NodeCacheAdapter.get, NodeCache.get. rewrite Habsent. reflexivity.
  - apply (middleware_hit_aux this config req downstream _ key P (at_time e1 later));
      [exact Hk | | exact HP | reflexivity].
    unfold this. cbn [AdvancedCache_node cacheAdapter CacheAdapter.get
                      NodeCacheAdapter.adapter world_of env].
    rewrite (node_cache_get_cases key (at_time e1 later) _ Hget1).
    cbn [at_time now]. rewrite Hlive. reflexivity.
  - rewrite (Hmiss downstream (world_of (at_time e1 expiry)) key Hk JUndefined
               (set_store (at_time e1 expiry)
                  (NodeCache.with_data (store e1)
                     (obj_delete key (NodeCache.data (store e1)))))); [| | reflexivity].
    + unfold bind at 1. unfold override_json, modify. unfold next.
      unfold bind at 1. unfold modify. unfold try_catch.
      match goal with
      | |- context [for_each ?d ?f ?x] => destruct (for_each d f x) as [[[]|err] w1] eqn:Hrun
      end.
      * cbn [snd]. apply for_each_res_json_frame in Hrun. rewrite Hrun. reflexivity.
      * cbn [snd modify next_calls]. apply for_each_res_json_frame in Hrun.
        rewrite Hrun. reflexivity.
    + unfold this. cbn [AdvancedCache_node cacheAdapter CacheAdapter.get
                        NodeCacheAdapter.adapter world_of env].
      rewrite (node_cache_get_cases key (at_time e1 expiry) _ Hget1).
      cbn [at_time now]. rewrite Hdead. reflexivity.
Qed.

Lemma read_through_in_process_witness :
  exists e1,
    middleware (AdvancedCache_node example_options) None get_a [payload] (world_of empty_env)
    = (Ok tt,
       {| env := e1;
          res := {| json_wrappers :=
                      [(generateCacheKey get_a
                          (merge_config (defaultConfig (AdvancedCache_node example_options)) None),
                        duration (merge_config
                                    (defaultConfig (AdvancedCache_node example_options)) None))];
                    sent := [payload] |};
          next_calls := 1;
          pipeline_errors := [] |})
    /\ middleware (AdvancedCache_node example_options) None get_a [JNum 5]
         (world_of (at_time e1 30000))
       = (Ok tt,
          {| env := at_time e1 30000;
             res := {| json_wrappers := []; sent := [payload] |};
             next_calls := 0;
             pipeline_errors := [] |})
    /\ next_calls (snd (middleware (AdvancedCache_node example_options) None get_a [JNum 5]
                          (world_of (at_time e1 70000))))
       = 1%nat.
Proof.
  apply (read_through_in_process example_options None get_a payload empty_env
           30000 70000 [JNum 5]); try reflexivity.
  right. cbn. lia.
Defined.

(** ** The networked adapter *)

(** C7: no operation of the Redis adapter throws, whatever the client and
    [JSON.parse] do. When the client's command fails, or when [JSON.parse]
    fails on the text [get] received, the error is logged and the operation
    answers its safe default: [undefined] for [get], nothing for [set],
    [del] and [flushAll], the empty list for [keys]. *)
Theorem redis_adapter_never_throws :
  forall C (JSON_parse : string -> outcome jsval) (client : Redis.client C) (e : Env C),
    (forall key,
        (exists v e', RedisCacheAdapter.get JSON_parse client key e = (Ok v, e'))
        /\ (forall err e1,
               Redis.get client key e = (Throw err, e1) ->
               RedisCacheAdapter.get JSON_parse client key e
               = (Ok JUndefined, logged "Redis get error:" err e1))
        /\ (forall text err e1,
               Redis.get client key e = (Ok (Some text), e1) ->
               text <> "" ->
               JSON_parse text = Throw err ->
               RedisCacheAdapter.get JSON_parse client key e
               = (Ok JUndefined, logged "Redis get error:" err e1)))
    /\ (forall key value ttl,
        (exists e', RedisCacheAdapter.set client key value ttl e = (Ok tt, e'))
        /\ (forall err e1,
               Redis.setex client key ttl (JSON_stringify value) e = (Throw err, e1) ->
               RedisCacheAdapter.set client key value ttl e
               = (Ok tt, logged "Redis set error:" err e1)))
    /\ (forall key,
        (exists e', RedisCacheAdapter.del client key e = (Ok tt, e'))
        /\ (forall err e1,
               Redis.del client key e = (Throw err, e1) ->
               RedisCacheAdapter.del client key e
               = (Ok tt, logged "Redis del error:" err e1)))
    /\ ((exists ks e', RedisCacheAdapter.keys client e = (Ok ks, e'))
        /\ (forall err e1,
               Redis.keys client "*" e = (Throw err, e1) ->
               RedisCacheAdapter.keys client e
               = (Ok [], logged "Redis keys error:" err e1)))
    /\ ((exists e', RedisCacheAdapter.flushAll client e = (Ok tt, e'))
        /\ (forall err e1,
               Redis.flushall client e = (Throw err, e1) ->
               RedisCacheAdapter.flushAll client e
               = (Ok tt, logged "Redis flushAll error:" err e1))).
Proof.
  intros C JSON_parse client e.
  split; [|split; [|split; [|split]]].
  - intros key. split; [|split].
    + unfold RedisCacheAdapter.get, try_catch, bind.
      destruct (Redis.get client key e) as [[[text|]|err] e1].
      * destruct (negb (text =? "")%string).
        -- unfold lift_outcome. destruct (JSON_parse text) as [v|err]; cbn; unfold console_error, modify, ret; eauto.
        -- cbn; unfold console_error, modify, ret; eauto.
      * cbn; unfold console_error, modify, ret; eauto.
      * cbn; unfold console_error, modify, ret; eauto.
    + intros err e1 H. unfold RedisCacheAdapter.get, try_catch, bind.
      rewrite H. reflexivity.
    + intros text err e1 H Hne Hp. unfold RedisCacheAdapter.get, try_catch, bind.
      rewrite H. apply String.eqb_neq in Hne. rewrite Hne. cbn.
      unfold lift_outcome. rewrite Hp. reflexivity.
  - intros key value ttl. split.
    + unfold RedisCacheAdapter.set, try_catch.
      destruct (Redis.setex client key ttl (JSON_stringify value) e) as [[[]|err] e1];
        cbn; unfold console_error, modify, ret; eauto.
    + intros err e1 H. unfold RedisCacheAdapter.set, try_catch. rewrite H. reflexivity.
  - intros key. split.
    + unfold RedisCacheAdapter.del, try_catch, bind.
      destruct (Redis.del client key e) as [[n|err] e1]; cbn; unfold console_error, modify, ret; eauto.
    + intros err e1 H. unfold RedisCacheAdapter.del, try_catch, bind.
      rewrite H. reflexivity.
  - split.
    + unfold RedisCacheAdapter.keys, try_catch.
      destruct (Redis.keys client "*" e) as [[ks|err] e1]; cbn; unfold console_error, modify, ret; eauto.
    + intros err e1 H. unfold RedisCacheAdapter.keys, try_catch. rewrite H. reflexivity.
  - split.
    + unfold RedisCacheAdapter.flushAll, try_catch.
      destruct (Redis.flushall client e) as [[[]|err] e1]; cbn; unfold console_error, modify, ret; eauto.
    + intros err e1 H. unfold RedisCacheAdapter.flushAll, try_catch. rewrite H. reflexivity.
Qed.

(** An ended client stays ended and not connected under any signals. *)
Lemma redis_run_ended maxReconnectAttempts signals c :
  RedisCacheAdapter.state c = RedisCacheAdapter.Ended ->
  RedisCacheAdapter.isConnected c = false ->
  RedisCacheAdapter.state (RedisCacheAdapter.run maxReconnectAttempts signals c)
  = RedisCacheAdapter.Ended
  /\ RedisCacheAdapter.isConnected (RedisCacheAdapter.run maxReconnectAttempts signals c)
     = false.
Proof.
  revert c. induction signals as [|s r IH]; intros c H1 H2; [auto|].
  cbn [RedisCacheAdapter.run fold_left].
  apply IH; unfold RedisCacheAdapter.step; destruct s; rewrite ?H1; cbn; auto.
Qed.

(** A connection with a ceiling of two attempts: it comes up, is lost, and
    after the third failed attempt the client ends, not connected, whatever
    is signalled later. *)
Example connection_gives_up :
  RedisCacheAdapter.isConnected RedisCacheAdapter.new = false
  /\ RedisCacheAdapter.isConnected
       (RedisCacheAdapter.run (Some 2) [RedisCacheAdapter.Connect] RedisCacheAdapter.new)
     = true
  /\ RedisCacheAdapter.state
       (RedisCacheAdapter.run (Some 2)
          [RedisCacheAdapter.Connect; RedisCacheAdapter.Close; RedisCacheAdapter.Close]
          RedisCacheAdapter.new)
     = RedisCacheAdapter.Reconnecting 200
  /\ RedisCacheAdapter.run (Some 2)
       [RedisCacheAdapter.Connect; RedisCacheAdapter.Close; RedisCacheAdapter.Close;
        RedisCacheAdapter.Close; RedisCacheAdapter.Connect]
       RedisCacheAdapter.new
     = {| RedisCacheAdapter.state := RedisCacheAdapter.Ended;
          RedisCacheAdapter.retryAttempts := 3;
          RedisCacheAdapter.isConnected := false;
          RedisCacheAdapter.conn_console :=
            [("Redis: Connected successfully", None);
             ("Redis: Connection closed", None);
             ("Redis: Connection closed", None);
             ("Redis: Connection closed", None);
             ("Redis: Max reconnection attempts reached", None)] |}.
Proof. repeat split. Qed.

(** The strategy with the default ceiling of 50 attempts. *)
Example retry_delays :
  fst (RedisCacheAdapter.retryStrategy (Some 50) 1 []) = Ok (Some 100)
  /\ fst (RedisCacheAdapter.retryStrategy (Some 50) 29 []) = Ok (Some 2900)
  /\ fst (RedisCacheAdapter.retryStrategy (Some 50) 30 []) = Ok (Some 3000)
  /\ fst (RedisCacheAdapter.retryStrategy (Some 50) 50 []) = Ok (Some 3000)
  /\ fst (RedisCacheAdapter.retryStrategy (Some 50) 51 []) = Ok None.
Proof. repeat split. Qed.

(** C8: with a maximum attempt count [m], the retry strategy answers the
    delay [min(t * 100, 3000)] for every attempt [t <= m] and logs nothing;
    for every [t > m] it logs and answers the stop signal. When a live
    connection closes and the next attempt number exceeds [m], the client
    ends, the adapter's [isConnected] is false, and it stays so under every
    later sequence of signals. *)
Theorem redis_retry_strategy :
  forall (m t : Z) (lines : list (string * option Error)),
    (t <= m ->
     RedisCacheAdapter.retryStrategy (Some m) t lines
     = (Ok (Some (Z.min (t * 100) 3000)), lines))
    /\ (t > m ->
        RedisCacheAdapter.retryStrategy (Some m) t lines
        = (Ok None, (lines ++ [("Redis: Max reconnection attempts reached", None)])%list))
    /\ (forall c signals,
           RedisCacheAdapter.state c <> RedisCacheAdapter.Ended ->
           RedisCacheAdapter.retryAttempts c + 1 > m ->
           RedisCacheAdapter.state
             (RedisCacheAdapter.step (Some m) RedisCacheAdapter.Close c)
           = RedisCacheAdapter.Ended
           /\ RedisCacheAdapter.isConnected
                (RedisCacheAdapter.run (Some m) signals
                   (RedisCacheAdapter.step (Some m) RedisCacheAdapter.Close c))
              = false).
Proof.
  intros m t lines. split; [|split].
  - intros H. unfold RedisCacheAdapter.retryStrategy, RedisCacheAdapter.exceeds.
    destruct (t >? m) eqn:E; [apply Z.gtb_lt in E; lia|]. reflexivity.
  - intros H. unfold RedisCacheAdapter.retryStrategy, RedisCacheAdapter.exceeds.
    destruct (t >? m) eqn:E.
    + reflexivity.
    + rewrite Z.gtb_ltb in E. apply Z.ltb_ge in E. lia.
  - intros c signals Hs Ha.
    assert (Hstep : RedisCacheAdapter.step (Some m) RedisCacheAdapter.Close c
                    = {| RedisCacheAdapter.state := RedisCacheAdapter.Ended;
                         RedisCacheAdapter.retryAttempts := RedisCacheAdapter.retryAttempts c + 1;
                         RedisCacheAdapter.isConnected := false;
                         RedisCacheAdapter.conn_console :=
                           ((RedisCacheAdapter.conn_console c
                               ++ [("Redis: Connection closed", None)])
                              ++ [("Redis: Max reconnection attempts reached", None)])%list |}).
    { unfold RedisCacheAdapter.step.
      destruct (RedisCacheAdapter.state c) eqn:Est; try (exfalso; apply Hs; reflexivity);
        cbn [RedisCacheAdapter.on_close RedisCacheAdapter.retryAttempts
             RedisCacheAdapter.conn_console RedisCacheAdapter.isConnected];
        unfold RedisCacheAdapter.retryStrategy, RedisCacheAdapter.exceeds;
        (destruct (RedisCacheAdapter.retryAttempts c + 1 >? m) eqn:E;
         [reflexivity | rewrite Z.gtb_ltb in E; apply Z.ltb_ge in E; lia]). }
    rewrite Hstep. split; [reflexivity|].
    apply redis_run_ended; reflexivity.
Qed.


(** ** Invalidation *)

Lemma test_stateless pattern key :
  RegExp.global pattern = false -> RegExp.sticky pattern = false ->
  RegExp.test pattern key = (matches pattern key, pattern).
Proof.
  intros Hg Hs. unfold matches, RegExp.test, RegExp.exec. rewrite Hg, Hs.
  cbn [orb]. cbv zeta.
  destruct (if (String.length key <? 0)%nat then None
            else RegExp.scan (RegExp.matcher pattern) key 0 (S (String.length key) - 0));
    reflexivity.
Qed.

Lemma obj_delete_absent {A} k (o : obj A) : obj_has k o = false -> obj_delete k o = o.
Proof.
  unfold obj_has. induction o as [|[k' v'] r IH]; cbn; [reflexivity|].
  destruct (k' =? k)%string; [discriminate|]. intros H. rewrite IH by exact H. reflexivity.
Qed.

Lemma obj_has_In {A} k (o : obj A) : obj_has k o = true <-> In k (obj_keys o).
Proof.
  unfold obj_has. induction o as [|[k' v'] r IH]; cbn.
  - split; [discriminate | intros []].
  - destruct (String.eqb_spec k' k) as [->|Hne].
    + split; auto.
    + rewrite IH. split; [auto | intros [H|H]; [congruence | exact H]].
Qed.

Lemma obj_delete_app_absent {A} k (kept rest : obj A) :
  ~ In k (obj_keys kept) ->
  obj_delete k (kept ++ rest)%list = (kept ++ obj_delete k rest)%list.
Proof.
  induction kept as [|[k' v'] r IH]; cbn; [reflexivity|]. intros H.
  destruct (String.eqb_spec k' k) as [->|Hne]; [exfalso; apply H; left; reflexivity|].
  rewrite IH by (intros Hi; apply H; right; exact Hi). reflexivity.
Qed.

(** The adapter's [del] on the in-process store. *)
Lemma node_adapter_del key (e : Env NodeCache.cache) :
  NodeCacheAdapter.del key e
  = (Ok tt, set_store e (NodeCache.with_data (store e)
                           (obj_delete key (NodeCache.data (store e))))).
Proof.
  unfold NodeCacheAdapter.del, bind, NodeCache.del.
  destruct (obj_has key (NodeCache.data (store e))) eqn:E; [reflexivity|].
  rewrite obj_delete_absent by exact E. destruct e as [[opts d] c t0]. reflexivity.
Qed.

(** Deleting, key by key, what a stateless pattern matches. *)
Lemma delete_matching_stateless options pattern keys (e : Env NodeCache.cache) :
  RegExp.global pattern = false -> RegExp.sticky pattern = false ->
  delete_matching (AdvancedCache_node options) pattern keys e
  = (Ok tt,
     set_store e (NodeCache.with_data (store e)
       (fold_left (fun d k => if matches pattern k then obj_delete k d else d)
                  keys (NodeCache.data (store e))))).
Proof.
  intros Hg Hs. revert e. induction keys as [|k r IH]; intros e.
  - destruct e as [[opts d] c t0]. reflexivity.
  - cbn [delete_matching]. rewrite (test_stateless pattern k Hg Hs).
    unfold bind. cbn [AdvancedCache_node cacheAdapter CacheAdapter.del
                      NodeCacheAdapter.adapter].
    destruct (matches pattern k) eqn:E.
    + rewrite node_adapter_del, IH. cbn [fold_left]. rewrite E. reflexivity.
    + cbn [ret]. rewrite IH. cbn [fold_left]. rewrite E. reflexivity.
Qed.

Lemma delete_fold_filter pattern (rest kept : obj NodeCache.Wrapped) :
  NoDup (obj_keys rest) ->
  (forall k, In k (obj_keys rest) -> ~ In k (obj_keys kept)) ->
  fold_left (fun d k => if matches pattern k then obj_delete k d else d)
            (obj_keys rest) (kept ++ rest)%list
  = (kept ++ filter (fun entry => negb (matches pattern (fst entry))) rest)%list.
Proof.
  revert kept. induction rest as [|[k w] r IH]; intros kept Hnd Hdis; [reflexivity|].
  change (obj_keys ((k, w) :: r)) with (k :: obj_keys r) in *.
  cbn [fold_left filter fst]. inversion Hnd as [|? ? Hk Hr]; subst.
  destruct (matches pattern k) eqn:E; cbn [negb].
  - rewrite obj_delete_app_absent by (apply Hdis; left; reflexivity).
    cbn [obj_delete]. rewrite String.eqb_refl.
    apply IH; [exact Hr|]. intros k' Hk'. apply Hdis. right. exact Hk'.
  - change (kept ++ (k, w) :: r)%list with (kept ++ [(k, w)] ++ r)%list.
    rewrite app_assoc. rewrite (IH (kept ++ [(k, w)])%list Hr).
    + rewrite <- app_assoc. reflexivity.
    + intros k' Hk' Hin. unfold obj_keys in Hin. rewrite map_app in Hin.
      apply in_app_or in Hin. destruct Hin as [Hin|[<-|[]]].
      * exact (Hdis k' (or_intror Hk') Hin).
      * exact (Hk Hk').
Qed.

(** On the in-process store, whose keys are distinct, [clearCache] with a
    pattern that has neither the [g] nor the [y] flag deletes exactly the
    entries whose key the pattern matches and keeps the others in order. *)
Theorem clearCache_stateless_pattern :
  forall options pattern (e : Env NodeCache.cache),
    RegExp.global pattern = false ->
    RegExp.sticky pattern = false ->
    NoDup (obj_keys (NodeCache.data (store e))) ->
    clearCache (AdvancedCache_node options) (Some pattern) e
    = (Ok tt, without_matching pattern e).
Proof.
  intros options pattern e Hg Hs Hnd. unfold clearCache.
  cbn [AdvancedCache_node cacheAdapter isAsync CacheAdapter.keys NodeCacheAdapter.adapter].
  unfold bind, NodeCacheAdapter.keys, NodeCache.keys, gets.
  rewrite (delete_matching_stateless options pattern _ e Hg Hs).
  unfold without_matching.
  pose proof (delete_fold_filter pattern (NodeCache.data (store e)) [] Hnd) as H.
  cbn [app] in H. rewrite H; [reflexivity|]. intros k _ [].
Qed.

Lemma clearCache_stateless_pattern_witness :
  clearCache roomy_manager (Some (GET_a_pattern false))
    (roomy_env ["GET /a|1"; "GET /b|1"; "POST /a|1"])
  = (Ok tt, without_matching (GET_a_pattern false)
              (roomy_env ["GET /a|1"; "GET /b|1"; "POST /a|1"])).
Proof.
  apply (clearCache_stateless_pattern roomy_options (GET_a_pattern false)
           (roomy_env ["GET /a|1"; "GET /b|1"; "POST /a|1"]) eq_refl eq_refl).
  repeat constructor; cbn; intuition discriminate.
Defined.

(** Without a pattern [clearCache] is the adapter's [flushAll], which
    empties the in-process store. *)
Lemma clearCache_flushes :
  (forall St (this : AdvancedCache St) e,
      clearCache this None e = CacheAdapter.flushAll (cacheAdapter this) e)
  /\ (forall options e,
         keys_after (clearCache (AdvancedCache_node options) None e) = []).
Proof. split; reflexivity. Qed.

(** The specification's example: over the keys [GET /a|...], [GET /b|...]
    and [POST /a|...], the pattern [/^GET \/a/] removes the first only. *)
Example clearCache_pattern_example :
  keys_after (clearCache roomy_manager (Some (GET_a_pattern false))
                (roomy_env ["GET /a|1"; "GET /b|1"; "POST /a|1"]))
  = ["GET /b|1"; "POST /a|1"].
Proof. reflexivity. Qed.

(** C6, where the code falls short of it: with the pattern [/^GET \/a/g]
    and the stored keys [GET /a|1] and [GET /a|2], both of which the
    pattern matches, [clearCache] deletes the first and keeps the second.
    The first successful [test] leaves [lastIndex] at 6, so the next [test]
    starts its search there, fails, and resets [lastIndex]. *)
Theorem clearCache_global_pattern_keeps_a_match :
  fst (RegExp.test (GET_a_pattern true) "GET /a|1") = true
  /\ fst (RegExp.test (GET_a_pattern true) "GET /a|2") = true
  /\ RegExp.lastIndex (snd (RegExp.test (GET_a_pattern true) "GET /a|1")) = 6%nat
  /\ keys_after (clearCache roomy_manager (Some (GET_a_pattern true))
                   (roomy_env ["GET /a|1"; "GET /a|2"]))
     = ["GET /a|2"].
Proof. repeat split. Qed.

(** ** The in-process store under any sequence of calls *)

Section ObjectKeys.
Context {A : Type}.
Implicit Types (o : obj A) (k : string) (v : A).

Lemma obj_keys_insert_In k v o k' :
  In k' (obj_keys (obj_insert k v o)) <-> k' = k \/ In k' (obj_keys o).
Proof.
  induction o as [|[k0 v0] r IH]; cbn [obj_insert].
  - cbn. intuition congruence.
  - destruct (key_before k k0).
    + cbn. intuition congruence.
    + change (In k' (k0 :: obj_keys (obj_insert k v r))
              <-> k' = k \/ In k' (k0 :: obj_keys r)).
      cbn [In]. rewrite IH. intuition congruence.
Qed.

Lemma obj_insert_NoDup k v o :
  NoDup (obj_keys o) -> ~ In k (obj_keys o) -> NoDup (obj_keys (obj_insert k v o)).
Proof.
  induction o as [|[k0 v0] r IH]; intros Hnd Hk; cbn [obj_insert].
  - cbn. constructor; [intros [] | constructor].
  - destruct (key_before k k0).
    + change (NoDup (k :: obj_keys ((k0, v0) :: r))). constructor; assumption.
    + change (NoDup (k0 :: obj_keys (obj_insert k v r))).
      change (NoDup (k0 :: obj_keys r)) in Hnd.
      change (~ In k (k0 :: obj_keys r)) in Hk.
      inversion Hnd as [|? ? H0 Hr]; subst. constructor.
      * rewrite obj_keys_insert_In. intros [->|H]; [apply Hk; left; reflexivity | contradiction].
      * apply IH; [exact Hr | intros H; apply Hk; right; exact H].
Qed.

Lemma obj_set_NoDup k v o : NoDup (obj_keys o) -> NoDup (obj_keys (obj_set k v o)).
Proof.
  intros Hnd. unfold obj_set. destruct (obj_has k o) eqn:E.
  - rewrite obj_keys_replace. exact Hnd.
  - apply obj_insert_NoDup; [exact Hnd|]. intros H. apply obj_has_In in H. congruence.
Qed.

Lemma obj_keys_delete_In k o k' :
  In k' (obj_keys (obj_delete k o)) -> In k' (obj_keys o).
Proof.
  induction o as [|[k0 v0] r IH]; cbn [obj_delete]; [auto|].
  destruct (k0 =? k)%string.
  - intros H. right. exact H.
  - intros [H|H]; [left; exact H | right; apply IH, H].
Qed.

Lemma obj_delete_NoDup k o : NoDup (obj_keys o) -> NoDup (obj_keys (obj_delete k o)).
Proof.
  induction o as [|[k0 v0] r IH]; intros Hnd; cbn [obj_delete]; [exact Hnd|].
  change (NoDup (k0 :: obj_keys r)) in Hnd. inversion Hnd as [|? ? H0 Hr]; subst.
  destruct (k0 =? k)%string; [exact Hr|].
  change (NoDup (k0 :: obj_keys (obj_delete k r))). constructor.
  - intros H. apply H0. eapply obj_keys_delete_In, H.
  - apply IH, Hr.
Qed.

Lemma obj_delete_length k o : (List.length (obj_delete k o) <= List.length o)%nat.
Proof.
  induction o as [|[k0 v0] r IH]; cbn [obj_delete]; [lia|].
  destruct (k0 =? k)%string; cbn [List.length]; lia.
Qed.

Lemma obj_get_absent k o : ~ In k (obj_keys o) -> obj_get k o = None.
Proof.
  intros H. destruct (obj_get k o) eqn:E; [|reflexivity].
  exfalso. apply H, obj_has_In. unfold obj_has. rewrite E. reflexivity.
Qed.

Lemma obj_get_delete k o : NoDup (obj_keys o) -> obj_get k (obj_delete k o) = None.
Proof.
  induction o as [|[k0 v0] r IH]; intros Hnd; cbn [obj_delete]; [reflexivity|].
  change (NoDup (k0 :: obj_keys r)) in Hnd. inversion Hnd as [|? ? H0 Hr]; subst.
  destruct (String.eqb_spec k0 k) as [->|Hne].
  - apply obj_get_absent, H0.
  - cbn [obj_get]. destruct (String.eqb_spec k0 k) as [E|_]; [contradiction|]. apply IH, Hr.
Qed.

Lemma obj_get_delete_other k k' o : k' <> k -> obj_get k' (obj_delete k o) = obj_get k' o.
Proof.
  intros Hne. induction o as [|[k0 v0] r IH]; cbn [obj_delete]; [reflexivity|].
  destruct (String.eqb_spec k0 k) as [E0|Hk].
  - cbn [obj_get]. destruct (String.eqb_spec k0 k') as [E|_]; [congruence | reflexivity].
  - cbn [obj_get]. rewrite IH. reflexivity.
Qed.

Lemma obj_keys_filter_In (f : string * A -> bool) o k' :
  In k' (obj_keys (filter f o)) -> In k' (obj_keys o).
Proof.
  induction o as [|[k0 v0] r IH]; cbn [filter]; [auto|].
  destruct (f (k0, v0)).
  - intros [H|H]; [left; exact H | right; apply IH, H].
  - intros H. right. apply IH, H.
Qed.

Lemma obj_filter_NoDup (f : string * A -> bool) o :
  NoDup (obj_keys o) -> NoDup (obj_keys (filter f o)).
Proof.
  induction o as [|[k0 v0] r IH]; intros Hnd; cbn [filter]; [exact Hnd|].
  change (NoDup (k0 :: obj_keys r)) in Hnd. inversion Hnd as [|? ? H0 Hr]; subst.
  destruct (f (k0, v0)); [|apply IH, Hr].
  change (NoDup (k0 :: obj_keys (filter f r))). constructor; [|apply IH, Hr].
  intros H. apply H0. eapply obj_keys_filter_In, H.
Qed.

Lemma obj_skipn_NoDup n o : NoDup (obj_keys o) -> NoDup (obj_keys (skipn n o)).
Proof.
  intros Hnd. rewrite <- (firstn_skipn n o) in Hnd. unfold obj_keys in *.
  rewrite map_app in Hnd. apply NoDup_app_remove_l in Hnd. exact Hnd.
Qed.

Lemma obj_keys_skipn_In n o k' : In k' (obj_keys (skipn n o)) -> In k' (obj_keys o).
Proof.
  intros H. rewrite <- (firstn_skipn n o). unfold obj_keys in *. rewrite map_app.
  apply in_or_app. right. exact H.
Qed.
End ObjectKeys.

(** A table that loses entries stays within its ceiling. *)
Lemma within_ceiling_shrink c (d : obj NodeCache.Wrapped) :
  within_ceiling c ->
  (List.length d <= List.length (NodeCache.data c))%nat ->
  within_ceiling (NodeCache.with_data c d).
Proof.
  unfold within_ceiling, NodeCache.count. cbn [NodeCache.with_data NodeCache.options NodeCache.data].
  intros [H|[H1 H2]] Hl; [left; exact H | right; split; [exact H1 | lia]].
Qed.

(** The table a [set] through the adapter leaves, by cases. *)
Lemma node_adapter_set_data key value ttl (e : Env NodeCache.cache) :
  let e' := snd (NodeCacheAdapter.set key value ttl e) in
  NodeCache.options (store e') = NodeCache.options (store e)
  /\ exists n w,
       NodeCache.data (store e') = skipn n (NodeCache.data (store e))
       \/ NodeCache.data (store e') = obj_set key w (skipn n (NodeCache.data (store e))).
Proof.
  cbv zeta. rewrite node_adapter_set_cases. destruct (full (store e)).
  - cbv zeta. rewrite node_cache_set_cases.
    destruct (full (store (evicted e _))).
    + split; [reflexivity|]. eexists _, (NodeCache.wrap (store e) 0 value ttl).
      left. reflexivity.
    + split; [reflexivity|]. eexists _, _. right. reflexivity.
  - split; [reflexivity|]. exists 0%nat. eexists. right. reflexivity.
Qed.

(** Every call keeps the table well kept and its options as they are. *)
Lemma run_call_well_kept c (e : Env NodeCache.cache) :
  well_kept (store e) ->
  well_kept (store (run_call c e))
  /\ NodeCache.options (store (run_call c e)) = NodeCache.options (store e).
Proof.
  intros [Hnd Hin]. destruct c as [key|key value ttl|key| | | |time]; cbn [run_call].
  - unfold NodeCacheAdapter.get, NodeCache.get.
    destruct (obj_get key (NodeCache.data (store e))) as [w|]; [|repeat split; assumption].
    destruct (NodeCache.expired (now e) w); [|repeat split; assumption].
    cbn [snd set_store store]. split; [split|reflexivity].
    + apply obj_delete_NoDup, Hnd.
    + apply within_ceiling_shrink; [exact Hin | apply obj_delete_length].
  - destruct (node_adapter_set_stores key value ttl e Hin) as (e' & Hset & Hin' & _).
    destruct (node_adapter_set_data key value ttl e) as (Hopt & n & w & Hd).
    rewrite Hset in *. cbn [snd] in *. split; [split|]; [|exact Hin'|exact Hopt].
    destruct Hd as [-> | ->].
    + apply obj_skipn_NoDup, Hnd.
    + apply obj_set_NoDup, obj_skipn_NoDup, Hnd.
  - rewrite node_adapter_del. cbn [snd set_store store]. split; [split|reflexivity].
    + apply obj_delete_NoDup, Hnd.
    + apply within_ceiling_shrink; [exact Hin | apply obj_delete_length].
  - repeat split; assumption.
  - cbn. split; [split|reflexivity].
    + constructor.
    + apply within_ceiling_shrink; [exact Hin | cbn; lia].
  - cbn [NodeCache.checkData modify snd set_store store]. split; [split|reflexivity].
    + apply obj_filter_NoDup, Hnd.
    + apply within_ceiling_shrink; [exact Hin | apply filter_length_le].
  - repeat split; assumption.
Qed.

Lemma run_calls_well_kept calls (e : Env NodeCache.cache) :
  well_kept (store e) ->
  well_kept (store (run_calls calls e))
  /\ NodeCache.options (store (run_calls calls e)) = NodeCache.options (store e).
Proof.
  revert e. induction calls as [|c r IH]; intros e H; [split; [exact H | reflexivity]|].
  cbn [run_calls fold_left]. destruct (run_call_well_kept c e H) as [H1 H2].
  destruct (IH _ H1) as [H3 H4]. split; [exact H3 | rewrite <- H2; exact H4].
Qed.

(** The table the constructor builds is well kept, whatever the options. *)
Lemma new_well_kept options : well_kept (NodeCacheAdapter.new options).
Proof.
  split; [constructor|]. unfold within_ceiling, NodeCache.count. cbn.
  destruct (maxKeys options) as [[|p|p]|]; cbn; lia.
Qed.

(** From the constructor on, whatever is called and whenever: the stored
    keys are distinct, the store's options stay what the constructor made of
    them, and with a [maxKeys] setting of [N >= 1] the store never holds
    more than [N] keys. *)
Theorem in_process_store_well_kept :
  forall options calls cons t0,
    let e := run_calls calls
               {| store := NodeCacheAdapter.new options; console := cons; now := t0 |} in
    NoDup (obj_keys (NodeCache.data (store e)))
    /\ NodeCache.options (store e) = NodeCache.options (NodeCacheAdapter.new options)
    /\ (forall N, maxKeys options = Some N -> 1 <= N -> NodeCache.count (store e) <= N).
Proof.
  intros options calls cons t0 e.
  destruct (run_calls_well_kept calls
              {| store := NodeCacheAdapter.new options; console := cons; now := t0 |}
              (new_well_kept options)) as [[Hnd Hin] Hopt].
  fold e in Hnd, Hin, Hopt. cbn [store] in Hopt.
  split; [exact Hnd|]. split; [exact Hopt|].
  intros N HN H1. unfold within_ceiling in Hin. rewrite Hopt in Hin.
  cbn [NodeCacheAdapter.new NodeCache.options NodeCache.maxKeys] in Hin. rewrite HN in Hin.
  assert (E : or_default (Some N) (-1) = N) by (destruct N; try lia; reflexivity).
  rewrite E in Hin. lia.
Qed.

(** What a lifetime means for [expired]. *)
Lemma wrap_expired c t0 value ttl later :
  NodeCache.expired later (NodeCache.wrap c t0 value ttl)
  = negb (lifetime c ttl =? 0)
    && negb (t0 + lifetime c ttl * 1000 =? 0)
    && (t0 + lifetime c ttl * 1000 <? later).
Proof.
  unfold NodeCache.expired, NodeCache.wrap, lifetime.
  destruct ttl as [seconds|]; cbn [NodeCache.t].
  - destruct seconds; reflexivity.
  - destruct (NodeCache.stdTTL (NodeCache.options c) =? 0); reflexivity.
Qed.

(** Writing then reading on the in-process adapter. On a store within its
    ceiling, [set] stores the entry (evicting first when the table is full);
    a [get] of the key then answers the value, and changes nothing, as long
    as the entry lives: for ever with a lifetime of 0, until [lifetime]
    seconds after the write otherwise; after that it answers [undefined]
    (at once for a negative lifetime). A [set] on a table that is not full
    changes what no other key shows. *)
Theorem set_then_get_in_process :
  forall key value ttl (e : Env NodeCache.cache),
    within_ceiling (store e) ->
    exists e1,
      NodeCacheAdapter.set key value ttl e = (Ok tt, e1)
      /\ (forall later,
             lifetime (store e) ttl = 0
             \/ later <= now e + lifetime (store e) ttl * 1000 ->
             NodeCacheAdapter.get key (at_time e1 later) = (Ok value, at_time e1 later))
      /\ (forall later,
             lifetime (store e) ttl <> 0 ->
             now e + lifetime (store e) ttl * 1000 <> 0 ->
             now e + lifetime (store e) ttl * 1000 < later ->
             fst (NodeCacheAdapter.get key (at_time e1 later)) = Ok JUndefined)
      /\ (full (store e) = false ->
          forall other t0,
            other <> key ->
            live_value t0 other (NodeCache.data (store e1))
            = live_value t0 other (NodeCache.data (store e))).
Proof.
  intros key value ttl e Hin.
  destruct (node_adapter_set_stores key value ttl e Hin) as (e1 & Hset & _ & Hget & _ & _).
  exists e1. split; [exact Hset|]. split; [|split].
  - intros later Hl. rewrite (node_cache_get_cases key (at_time e1 later) _ Hget).
    cbn [at_time now]. rewrite wrap_expired.
    destruct Hl as [-> | Hl]; [reflexivity|].
    replace (now e + lifetime (store e) ttl * 1000 <? later) with false
      by (symmetry; apply Z.ltb_ge; exact Hl).
    rewrite andb_false_r. destruct ttl; reflexivity.
  - intros later H0 H1 H2. rewrite (node_cache_get_cases key (at_time e1 later) _ Hget).
    cbn [at_time now]. rewrite wrap_expired.
    apply Z.eqb_neq in H0, H1. apply Z.ltb_lt in H2. rewrite H0, H1, H2. reflexivity.
  - intros Hf other t0 Hne. rewrite node_adapter_set_cases, Hf in Hset.
    injection Hset as <-. cbn [store set_store NodeCache.with_data NodeCache.data].
    unfold live_value. rewrite obj_get_set_other by exact Hne. reflexivity.
Qed.

Lemma set_then_get_in_process_witness :
  exists e1,
    NodeCacheAdapter.set "k" payload (Some 60) empty_env = (Ok tt, e1)
    /\ NodeCacheAdapter.get "k" (at_time e1 61000) = (Ok payload, at_time e1 61000)
    /\ fst (NodeCacheAdapter.get "k" (at_time e1 61001)) = Ok JUndefined.
Proof.
  destruct (set_then_get_in_process "k" payload (Some 60) empty_env)
    as (e1 & Hset & Hlive & Hdead & _).
  - right. cbn. lia.
  - exists e1. split; [exact Hset|]. split.
    + apply Hlive. right. cbn. lia.
    + apply Hdead; cbn; lia.
Defined.

(** Deleting on the in-process adapter, whose keys are distinct: after
    [del] a [get] of the key answers [undefined] and changes nothing, what
    every other key shows is as before, nothing is logged, and deleting a
    key that is not stored changes nothing at all. After [flushAll] every
    key is gone. *)
Theorem del_then_get_in_process :
  forall key (e : Env NodeCache.cache),
    NoDup (obj_keys (NodeCache.data (store e))) ->
    exists e1,
      NodeCacheAdapter.del key e = (Ok tt, e1)
      /\ (forall t0, NodeCacheAdapter.get key (at_time e1 t0) = (Ok JUndefined, at_time e1 t0))
      /\ (forall other t0,
             other <> key ->
             live_value t0 other (NodeCache.data (store e1))
             = live_value t0 other (NodeCache.data (store e)))
      /\ console e1 = console e
      /\ (obj_has key (NodeCache.data (store e)) = false -> e1 = e)
      /\ (forall k t0,
             NodeCacheAdapter.get k (at_time (snd (NodeCacheAdapter.flushAll e)) t0)
             = (Ok JUndefined, at_time (snd (NodeCacheAdapter.flushAll e)) t0)).
Proof.
  intros key e Hnd. eexists. split; [apply node_adapter_del|].
  cbn [set_store store console NodeCache.with_data NodeCache.data].
  split; [|split; [|split; [|split]]].
  - intros t0. unfold NodeCacheAdapter.get, NodeCache.get.
    cbn [at_time set_store store NodeCache.with_data NodeCache.data].
    rewrite obj_get_delete by exact Hnd. reflexivity.
  - intros other t0 Hne. unfold live_value. rewrite obj_get_delete_other by exact Hne.
    reflexivity.
  - reflexivity.
  - intros Hno. rewrite obj_delete_absent by exact Hno.
    destruct e as [[opts d] c t0]. reflexivity.
  - intros k t0. reflexivity.
Qed.

Lemma del_then_get_in_process_witness :
  exists e1,
    NodeCacheAdapter.del key_a warm_env = (Ok tt, e1)
    /\ NodeCacheAdapter.get key_a (at_time e1 2000) = (Ok JUndefined, at_time e1 2000).
Proof.
  destruct (del_then_get_in_process key_a warm_env) as (e1 & Hdel & Hget & _).
  - repeat constructor. intros [].
  - exists e1. split; [exact Hdel | apply Hget].
Defined.

(** Without a ceiling every [set] through the adapter stores and nothing
    else. *)
Lemma insert_all_unbounded entries (e : Env NodeCache.cache) :
  NodeCache.maxKeys (NodeCache.options (store e)) <= -1 ->
  NoDup (map entry_key entries) ->
  (forall k, In k (map entry_key entries) -> obj_has k (NodeCache.data (store e)) = false) ->
  exists e',
    insert_all entries e = (Ok tt, e')
    /\ List.length (NodeCache.data (store e'))
       = (List.length (NodeCache.data (store e)) + List.length entries)%nat
    /\ console e' = console e
    /\ (forall k, In k (map entry_key entries) -> obj_has k (NodeCache.data (store e')) = true)
    /\ (forall k, obj_has k (NodeCache.data (store e)) = true ->
                  obj_has k (NodeCache.data (store e')) = true).
Proof.
  revert e. induction entries as [|[[k v] t0] r IH]; intros e Hmax Hnd Hnew.
  - exists e. cbn. repeat split; auto; intros k [].
  - cbn [map entry_key fst] in Hnd, Hnew. inversion Hnd as [|? ? Hk Hr]; subst.
    unfold insert_all. cbn [for_each]. unfold bind at 1.
    rewrite node_adapter_set_cases.
    assert (Hf : full (store e) = false) by (apply full_false_iff; left; exact Hmax).
    rewrite Hf.
    set (e1 := set_store e (NodeCache.with_data (store e)
                 (obj_set k (NodeCache.wrap (store e) (now e) v t0) (NodeCache.data (store e))))).
    assert (Hother : forall k', k' <> k ->
               obj_has k' (NodeCache.data (store e1)) = obj_has k' (NodeCache.data (store e))).
    { intros k' Hne. unfold obj_has, e1.
      cbn [set_store store NodeCache.with_data NodeCache.data].
      rewrite obj_get_set_other by exact Hne. reflexivity. }
    destruct (IH e1) as (e' & Hrun & Hlen & Hcons & Hin & Hold).
    + exact Hmax.
    + exact Hr.
    + intros k' Hk'. rewrite Hother.
      * apply Hnew. right. exact Hk'.
      * intros ->. exact (Hk Hk').
    + exists e'. split; [exact Hrun|]. split; [|split; [|split]].
      * rewrite Hlen. unfold e1. cbn [set_store store NodeCache.with_data NodeCache.data].
        unfold obj_set. rewrite (Hnew k (or_introl eq_refl)), obj_insert_length. cbn. lia.
      * exact Hcons.
      * intros k' [<-|Hk']; [|apply Hin, Hk'].
        apply Hold. unfold e1. cbn [set_store store NodeCache.with_data NodeCache.data].
        apply obj_has_set.
      * intros k' Hk'. apply Hold. destruct (String.eqb_spec k' k) as [->|Hne].
        -- unfold e1. cbn [set_store store NodeCache.with_data NodeCache.data].
           apply obj_has_set.
        -- rewrite Hother by exact Hne. exact Hk'.
Qed.

(** A [maxKeys] setting that is omitted, 0 or negative gives a store without
    a ceiling ([options.maxKeys || -1] makes 0 the same as no setting): from
    the constructor on, storing any number of distinct keys stores them all,
    evicts nothing and logs nothing. *)
Theorem zero_maxKeys_is_no_ceiling :
  forall options entries (e : Env NodeCache.cache),
    maxKeys options = None \/ (exists N, maxKeys options = Some N /\ N <= 0) ->
    store e = NodeCacheAdapter.new options ->
    NoDup (map entry_key entries) ->
    exists e',
      insert_all entries e = (Ok tt, e')
      /\ NodeCache.count (store e') = Z.of_nat (List.length entries)
      /\ console e' = console e
      /\ (forall k, In k (map entry_key entries) ->
                    obj_has k (NodeCache.data (store e')) = true).
Proof.
  intros options entries e Hmax Hstore Hnd.
  destruct (insert_all_unbounded entries e) as (e' & Hrun & Hlen & Hcons & Hin & _).
  - rewrite Hstore. cbn. destruct Hmax as [-> | (N & -> & HN)]; cbn; [lia|].
    destruct N; cbn; lia.
  - exact Hnd.
  - intros k _. rewrite Hstore. reflexivity.
  - exists e'. split; [exact Hrun|]. split; [|split; assumption].
    unfold NodeCache.count. rewrite Hlen, Hstore. reflexivity.
Qed.

Lemma zero_maxKeys_is_no_ceiling_witness :
  exists e',
    insert_all [("k1", payload, Some 60); ("k2", payload, None); ("k3", payload, Some 0)]
      {| store := NodeCacheAdapter.new {| defaultTTL := 60; checkPeriod := None;
                                           maxKeys := Some 0 |};
         console := []; now := 1000 |}
    = (Ok tt, e')
    /\ NodeCache.count (store e') = 3
    /\ console e' = [].
Proof.
  destruct (zero_maxKeys_is_no_ceiling
              {| defaultTTL := 60; checkPeriod := None; maxKeys := Some 0 |}
              [("k1", payload, Some 60); ("k2", payload, None); ("k3", payload, Some 0)]
              {| store := NodeCacheAdapter.new {| defaultTTL := 60; checkPeriod := None;
                                                   maxKeys := Some 0 |};
                 console := []; now := 1000 |})
    as (e' & Hrun & Hcount & Hcons & _).
  - right. exists 0. split; [reflexivity | lia].
  - reflexivity.
  - repeat constructor; cbn; intuition discriminate.
  - exists e'. auto.
Defined.

(** ** What the built-in key holds *)

Section Collecting.
Context {A : Type}.
Variable p : string -> bool.
Variable f : string -> A.

Lemma obj_insert_last k (v : A) (o : obj A) :
  (forall k', In k' (obj_keys o) -> key_before k k' = false) ->
  obj_insert k v o = (o ++ [(k, v)])%list.
Proof.
  induction o as [|[k0 v0] r IH]; intros H; cbn [obj_insert app]; [reflexivity|].
  rewrite (H k0 (or_introl eq_refl)). rewrite IH; [reflexivity|].
  intros k' Hk'. apply H. right. exact Hk'.
Qed.

Lemma enumeration_order_before done k rest :
  enumeration_order (done ++ k :: rest) = true ->
  forall k', In k' done -> k' <> k /\ key_before k k' = false.
Proof.
  induction done as [|a l IH]; intros H k' Hin; [destruct Hin|].
  cbn [app enumeration_order] in H. apply andb_true_iff in H. destruct H as [Ha Hl].
  destruct Hin as [<-|Hin]; [|exact (IH Hl k' Hin)].
  rewrite forallb_forall in Ha.
  assert (Hk : In k (l ++ k :: rest)) by (apply in_or_app; right; left; reflexivity).
  specialize (Ha k Hk).
  apply andb_true_iff in Ha. destruct Ha as [H1 H2].
  apply negb_true_iff in H1, H2. apply String.eqb_neq in H1. auto.
Qed.

Lemma enumeration_order_NoDup keys : enumeration_order keys = true -> NoDup keys.
Proof.
  induction keys as [|k r IH]; intros H; [constructor|].
  cbn [enumeration_order] in H. apply andb_true_iff in H. destruct H as [Hk Hr].
  constructor; [|apply IH, Hr]. intros Hin. rewrite forallb_forall in Hk.
  specialize (Hk k Hin). rewrite String.eqb_refl in Hk. discriminate.
Qed.

(** A loop that copies the chosen keys into an object, run over keys in
    enumeration order, lists them as they come. *)
Lemma collect_ordered rest done :
  enumeration_order (done ++ rest) = true ->
  fold_left (fun acc k => if p k then obj_set k (f k) acc else acc) rest
            (map (fun k => (k, f k)) (filter p done))
  = map (fun k => (k, f k)) (filter p (done ++ rest)).
Proof.
  revert done. induction rest as [|k r IH]; intros done H.
  - rewrite app_nil_r. reflexivity.
  - cbn [fold_left].
    assert (Hstep : (if p k then obj_set k (f k) (map (fun k => (k, f k)) (filter p done))
                     else map (fun k => (k, f k)) (filter p done))
                    = map (fun k => (k, f k)) (filter p (done ++ [k]))).
    { rewrite filter_app. cbn [filter]. destruct (p k); [|rewrite app_nil_r; reflexivity].
      rewrite map_app. cbn [map].
      assert (Hkeys : forall k', In k' (obj_keys (map (fun k => (k, f k)) (filter p done))) ->
                                 In k' done).
      { intros k' Hk'. unfold obj_keys in Hk'. rewrite map_map in Hk'. cbn [fst] in Hk'.
        rewrite map_id in Hk'. apply filter_In in Hk'. tauto. }
      unfold obj_set.
      assert (Hno : obj_has k (map (fun k => (k, f k)) (filter p done)) = false).
      { destruct (obj_has k _) eqn:E; [|reflexivity].
        apply obj_has_In, Hkeys in E.
        destruct (enumeration_order_before done k r H k E) as [Hne _]. congruence. }
      rewrite Hno. apply obj_insert_last. intros k' Hk'.
      apply (enumeration_order_before done k r H k'), Hkeys, Hk'. }
    rewrite Hstep.
    replace (done ++ k :: r)%list with ((done ++ [k]) ++ r)%list in *
      by (rewrite <- app_assoc; reflexivity).
    apply IH, H.
Qed.

(** Listing the chosen keys of an object with their values gives back its
    chosen properties. *)
Lemma chosen_keys_properties (o : obj A) :
  NoDup (obj_keys o) ->
  (forall k v, In (k, v) o -> f k = v) ->
  map (fun k => (k, f k)) (filter p (obj_keys o)) = filter (fun kv => p (fst kv)) o.
Proof.
  induction o as [|[k v] r IH]; intros Hnd Hf; [reflexivity|].
  change (obj_keys ((k, v) :: r)) with (k :: obj_keys r) in *.
  inversion Hnd as [|? ? Hk Hr]; subst. cbn [filter fst].
  rewrite <- IH; [|exact Hr | intros k' v' Hin; apply Hf; right; exact Hin].
  destruct (p k); [|reflexivity].
  cbn [map]. rewrite (Hf k v (or_introl eq_refl)). reflexivity.
Qed.
End Collecting.

Lemma obj_get_In {A} k (v : A) (o : obj A) :
  NoDup (obj_keys o) -> In (k, v) o -> obj_get k o = Some v.
Proof.
  induction o as [|[k0 v0] r IH]; intros Hnd Hin; [destruct Hin|].
  change (obj_keys ((k0, v0) :: r)) with (k0 :: obj_keys r) in Hnd.
  inversion Hnd as [|? ? Hk Hr]; subst. cbn [obj_get].
  destruct Hin as [E|Hin].
  - injection E as -> ->. rewrite String.eqb_refl. reflexivity.
  - destruct (String.eqb_spec k0 k) as [->|_]; [|apply IH; assumption].
    exfalso. apply Hk. unfold obj_keys. apply (in_map fst) in Hin. exact Hin.
Qed.

Lemma select_from_keyed config source keys acc :
  select_from config source keys acc
  = fold_left (fun acc k => if keyed config k then obj_set k (get_prop source k) acc else acc)
              keys acc.
Proof.
  revert acc. induction keys as [|k r IH]; intros acc; [reflexivity|].
  rewrite select_from_cons. cbn [fold_left]. apply IH.
Qed.

Lemma headers_from_kept_names req names acc :
  headers_from req names acc
  = fold_left (fun acc h => if truthy (Request.get req h) && creates_property h
                            then obj_set h (Request.get req h) acc else acc)
              names acc.
Proof.
  revert acc. induction names as [|h r IH]; intros acc; [reflexivity|].
  rewrite headers_from_cons. cbn [fold_left]. apply IH.
Qed.

(** The selection loop over an object in enumeration order keeps exactly
    the properties that reach the key, in the object's order. *)
Lemma select_params_ordered config props :
  enumeration_order (obj_keys props) = true ->
  select_params config (JObj props) = selected config props.
Proof.
  intros H. unfold selected.
  change (select_params config (JObj props))
    with (select_from config (JObj props) (obj_keys props) []).
  rewrite select_from_keyed.
  pose proof (collect_ordered (keyed config) (get_prop (JObj props))
                (obj_keys props) [] H) as Hc.
  cbn [filter map app] in Hc. rewrite Hc.
  apply chosen_keys_properties.
  - apply enumeration_order_NoDup, H.
  - intros k v Hin. cbn [get_prop].
    rewrite (obj_get_In k v props (enumeration_order_NoDup _ H) Hin). reflexivity.
Qed.

(** What the built-in derivation puts into the key. A parameter is selected
    when [keyParams] is empty or names it, and [ignoreParams] does not name
    it; it reaches the key when it is selected and is not named
    [__proto__], the one name under which an assignment creates no
    property. For a request whose query object comes in enumeration order
    the query component is the object of the parameters that reach the key,
    in the request's order, with their values; so is the body component
    under POST and PUT, and it is empty under every other method; the header
    component lists the [varyByHeaders] headers the request carries with a
    truthy value, again but for the name [__proto__]. The key of a GET
    request is the five components joined by [|]. *)
Theorem key_holds_the_selection :
  forall config req,
    (forall k,
        param_selected config k = true
        <-> (has_length (keyParams config) = true ->
             exists l, keyParams config = Some l /\ In k l)
            /\ (forall l, ignoreParams config = Some l -> ~ In k l))
    /\ (forall k, keyed config k = true
                  <-> param_selected config k = true /\ k <> "__proto__")
    /\ (forall props,
           Request.query req = JObj props ->
           enumeration_order (obj_keys props) = true ->
           queryParams config req = selected config props)
    /\ (forall props,
           Request.method req = "POST" \/ Request.method req = "PUT" ->
           Request.body req = JObj props ->
           enumeration_order (obj_keys props) = true ->
           bodyParams config req = selected config props)
    /\ (Request.method req <> "POST" -> Request.method req <> "PUT" ->
        bodyParams config req = [])
    /\ (enumeration_order (vary_list config) = true ->
        headers config req = carried_headers req (vary_list config))
    /\ (forall props,
           customKeyGenerator config = None ->
           Request.method req = "GET" ->
           Request.query req = JObj props ->
           enumeration_order (obj_keys props) = true ->
           enumeration_order (vary_list config) = true ->
           generateCacheKey req config
           = join "|" [ Some "GET"; Some (Request.path req);
                        JSON_stringify (JObj (selected config props));
                        Some "{}";
                        JSON_stringify (JObj (carried_headers req (vary_list config))) ]).
Proof.
  intros config req.
  assert (Hq : forall props,
             Request.query req = JObj props ->
             enumeration_order (obj_keys props) = true ->
             queryParams config req = selected config props).
  { intros props Hp Ho. unfold queryParams. rewrite Hp. cbn [truthy].
    apply select_params_ordered, Ho. }
  assert (Hb : Request.method req <> "POST" -> Request.method req <> "PUT" ->
               bodyParams config req = []).
  { intros H1 H2. unfold bodyParams. apply String.eqb_neq in H1, H2.
    rewrite H1, H2, andb_false_r. reflexivity. }
  assert (Hh : enumeration_order (vary_list config) = true ->
               headers config req = carried_headers req (vary_list config)).
  { intros Ho. rewrite headers_fold, headers_from_kept_names. unfold carried_headers.
    exact (collect_ordered (fun h => truthy (Request.get req h) && creates_property h)
             (Request.get req) (vary_list config) [] Ho). }
  split; [|split; [|split; [exact Hq | split; [|split; [exact Hb | split; [exact Hh|]]]]]].
  - intros k. unfold param_selected.
    rewrite andb_true_iff, orb_true_iff, negb_true_iff, negb_true_iff. split.
    + intros [Hsel Hign]. split.
      * intros Hlen. destruct Hsel as [Hsel|Hsel]; [congruence|].
        destruct (keyParams config) as [l|]; [|discriminate].
        exists l. split; [reflexivity | apply includes_In, Hsel].
      * intros l Hl Hin. rewrite Hl in Hign. cbn [opt_includes] in Hign.
        apply includes_In in Hin. congruence.
    + intros [Hsel Hign]. split.
      * destruct (has_length (keyParams config)) eqn:Hlen; [right | left; reflexivity].
        destruct (Hsel eq_refl) as (l & -> & Hin). apply includes_In, Hin.
      * destruct (ignoreParams config) as [l|]; [|reflexivity]. cbn [opt_includes].
        destruct (includes l k) eqn:E; [|reflexivity].
        apply includes_In in E. destruct (Hign l eq_refl E).
  - intros k. unfold keyed, creates_property.
    rewrite andb_true_iff, negb_true_iff, String.eqb_neq. reflexivity.
  - intros props Hm Hp Ho. unfold bodyParams. rewrite Hp. cbn [truthy andb].
    replace ((Request.method req =? "POST")%string || (Request.method req =? "PUT")%string)
      with true
      by (destruct Hm as [-> | ->]; reflexivity).
    apply select_params_ordered, Ho.
  - intros props Hg Hm Hp Ho Hv. unfold generateCacheKey. rewrite Hg.
    rewrite (Hq props Hp Ho), Hh by exact Hv.
    rewrite Hb by (rewrite Hm; discriminate). rewrite Hm. reflexivity.
Qed.

Lemma key_holds_the_selection_witness :
  bodyParams plain_config (post_with_proto (JStr "1")) = [("id", JNum 7)].
Proof.
  exact (proj1 (proj2 (proj2 (proj2
           (key_holds_the_selection plain_config (post_with_proto (JStr "1"))))))
           [("__proto__", JStr "1"); ("id", JNum 7)] (or_introl eq_refl) eq_refl eq_refl).
Defined.

(** ** Every run of the middleware *)

Section MiddlewareRuns.
Context {St : Type}.
Variable this : AdvancedCache St.

(** [next()] returns normally and is counted once. *)
Lemma next_counts downstream w :
  exists w', next this downstream w = (Ok tt, w') /\ next_calls w' = S (next_calls w).
Proof.
  unfold next. unfold bind at 1. unfold modify at 1. unfold try_catch.
  match goal with
  | |- context [for_each ?d ?f ?x] => destruct (for_each d f x) as [[[]|err] w1] eqn:Hrun
  end; apply for_each_res_json_frame in Hrun; cbn [next_calls] in Hrun.
  - exists w1. split; [reflexivity | exact Hrun].
  - eexists. split; [reflexivity | exact Hrun].
Qed.

Lemma miss_counts key dur downstream w :
  exists w',
    (override_json key dur ;; next this downstream) w = (Ok tt, w')
    /\ next_calls w' = S (next_calls w).
Proof.
  unfold bind at 1. unfold override_json, modify.
  match goal with |- context [next this downstream ?x] =>
    destruct (next_counts downstream x) as (w' & Hn & Hc) end.
  exists w'. split; [exact Hn | exact Hc].
Qed.

(** The interceptor's write returns normally when the manager is
    asynchronous or the adapter's [set] does not throw; it touches the
    adapter's environment only. *)
Lemma cache_body_returns key dur body w :
  isAsync this = true
  \/ (forall key value ttl e,
         exists e', CacheAdapter.set (cacheAdapter this) key value ttl e = (Ok tt, e')) ->
  exists e1, cache_body this key dur body w = (Ok tt, with_env w e1).
Proof.
  intros Hgood. unfold cache_body. destruct (isAsync this) eqn:Ea.
  - unfold try_catch, lift.
    destruct (CacheAdapter.set (cacheAdapter this) key body dur (env w)) as [[[]|err] e1].
    + exists e1. reflexivity.
    + eexists. cbn. reflexivity.
  - destruct Hgood as [H|H]; [discriminate|].
    unfold lift. destruct (H key body dur (env w)) as (e1 & ->). exists e1. reflexivity.
Qed.

(** After a miss, on a response nobody else has intercepted, the handler's
    payload is sent once and the run returns. *)
Lemma miss_path_sends key dur body w :
  isAsync this = true
  \/ (forall key value ttl e,
         exists e', CacheAdapter.set (cacheAdapter this) key value ttl e = (Ok tt, e')) ->
  json_wrappers (res w) = [] ->
  exists e1,
    (override_json key dur ;; next this [body]) w
    = (Ok tt,
       {| env := e1;
          res := {| json_wrappers := [(key, dur)]; sent := (sent (res w) ++ [body])%list |};
          next_calls := S (next_calls w);
          pipeline_errors := pipeline_errors w |}).
Proof.
  intros Hgood Hw.
  unfold bind at 1. unfold override_json, modify. unfold next.
  unfold bind at 1. unfold modify. unfold try_catch. cbn [for_each].
  unfold bind at 1. unfold res_json at 1.
  cbn [res json_wrappers with_res with_env json_through].
  unfold bind at 1.
  match goal with |- context [cache_body this key dur body ?x] =>
    destruct (cache_body_returns key dur body x Hgood) as (e1 & ->) end.
  exists e1. cbn. rewrite Hw. reflexivity.
Qed.

Lemma middleware_key_custom config generator req :
  config_customKeyGenerator config = Some generator ->
  middleware_key this config req = Some (generator req).
Proof.
  intros H. unfold middleware_key. rewrite H, andb_false_r.
  unfold generateCacheKey. rewrite merged_customKeyGenerator, H. reflexivity.
Qed.
End MiddlewareRuns.

(** Once the key is derived (a custom generator is a function here, so the
    derivation returns), the middleware returns normally whatever the
    adapter's operations and the downstream handler do, throwing included,
    and it calls [next] at most once: either [next] is called exactly once,
    or it is not called and the response is the truthy value the adapter's
    [get] answered, sent by [res.json]. *)
Theorem middleware_returns_and_calls_next_at_most_once :
  forall St (this : AdvancedCache St) config req downstream w,
    exists w',
      middleware this config req downstream w = (Ok tt, w')
      /\ (next_calls w' = S (next_calls w)
          \/ (next_calls w' = next_calls w
              /\ exists key cached e',
                   middleware_key this config req = Some key
                   /\ CacheAdapter.get (cacheAdapter this) key (env w) = (Ok cached, e')
                   /\ truthy cached = true
                   /\ sent (res w') = (sent (res w) ++ [cached])%list
                   /\ json_wrappers (res w') = json_wrappers (res w))).
Proof.
  intros St this config req downstream w.
  destruct (middleware_key this config req) as [key|] eqn:Hk.
  - destruct (middleware_miss_paths this config req) as [Hthrow Hfalsy].
    destruct (CacheAdapter.get (cacheAdapter this) key (env w)) as [[v|err] e'] eqn:Hget.
    + destruct (truthy v) eqn:Hv.
      * destruct (res_json this v (with_env w e')) as [[[]|err] w1] eqn:Hj.
        -- exists w1. split.
           ++ exact (middleware_hit_aux this config req downstream w key v e' w1
                       Hk Hget Hv Hj).
           ++ right. unfold res_json in Hj. apply json_through_frame in Hj.
              destruct Hj as (H1 & H2 & _ & H4). split; [exact H1|].
              exists key, v, e'. repeat split; auto.
        -- unfold middleware. rewrite Hk.
           unfold bind at 1. unfold try_catch. unfold bind at 1. unfold lift at 1.
           rewrite Hget, Hv. unfold bind at 1. rewrite Hj.
           unfold bind at 1. unfold lift, console_error, modify. cbn [ret].
           match goal with |- context [bind _ _ ?x] =>
             destruct (miss_counts this key
                         (duration (merge_config (defaultConfig this) config)) downstream x)
               as (w' & Hrun & Hc) end.
           exists w'. split; [exact Hrun|]. left. rewrite Hc. cbn [with_env next_calls].
           unfold res_json in Hj. apply json_through_frame in Hj.
           destruct Hj as (H1 & _). rewrite H1. reflexivity.
      * rewrite (Hfalsy downstream w key Hk v e' Hget Hv).
        match goal with |- context [bind _ _ ?x] =>
          destruct (miss_counts this key
                      (duration (merge_config (defaultConfig this) config)) downstream x)
            as (w' & Hrun & Hc) end.
        exists w'. split; [exact Hrun | left; exact Hc].
    + rewrite (Hthrow downstream w key err e' Hk Hget).
      match goal with |- context [bind _ _ ?x] =>
        destruct (miss_counts this key
                    (duration (merge_config (defaultConfig this) config)) downstream x)
          as (w' & Hrun & Hc) end.
      exists w'. split; [exact Hrun | left; exact Hc].
  - unfold middleware. rewrite Hk.
    destruct (next_counts this downstream w) as (w' & Hrun & Hc).
    exists w'. split; [exact Hrun | left; exact Hc].
Qed.

(** The cache never costs the client its response. On a manager that is
    asynchronous (the Redis one) or whose adapter's [set] does not throw
    (the in-process one), when [get] does not answer a truthy value, whether
    it answers a falsy one or throws, the handler runs once and the payload
    it passes to [res.json] is sent exactly once, whatever the write to the
    cache does; no error reaches the framework. *)
Theorem miss_sends_the_payload_once :
  forall St (this : AdvancedCache St) config req body w key,
    isAsync this = true
    \/ (forall key value ttl e,
           exists e', CacheAdapter.set (cacheAdapter this) key value ttl e = (Ok tt, e')) ->
    middleware_key this config req = Some key ->
    json_wrappers (res w) = [] ->
    (forall v e',
        CacheAdapter.get (cacheAdapter this) key (env w) = (Ok v, e') -> truthy v = false) ->
    exists w',
      middleware this config req [body] w = (Ok tt, w')
      /\ sent (res w') = (sent (res w) ++ [body])%list
      /\ next_calls w' = S (next_calls w)
      /\ pipeline_errors w' = pipeline_errors w.
Proof.
  intros St this config req body w key Hgood Hk Hw Hmiss.
  destruct (middleware_miss_paths this config req) as [Hthrow Hfalsy].
  destruct (CacheAdapter.get (cacheAdapter this) key (env w)) as [[v|err] e'] eqn:Hget.
  - rewrite (Hfalsy [body] w key Hk v e' Hget (Hmiss v e' eq_refl)).
    destruct (miss_path_sends this key
                (duration (merge_config (defaultConfig this) config)) body
                (with_env w e') Hgood Hw) as (e1 & ->).
    eexists. split; [reflexivity|]. cbn. auto.
  - rewrite (Hthrow [body] w key err e' Hk Hget).
    match goal with |- context [bind _ _ ?x] =>
      destruct (miss_path_sends this key
                  (duration (merge_config (defaultConfig this) config)) body x Hgood Hw)
        as (e1 & ->) end.
    eexists. split; [reflexivity|]. cbn. auto.
Qed.

Lemma miss_sends_the_payload_once_witness :
  exists w',
    middleware dead_redis_manager None get_a [payload] dead_world = (Ok tt, w')
    /\ sent (res w') = [payload]
    /\ next_calls w' = 1%nat
    /\ pipeline_errors w' = [].
Proof.
  apply (miss_sends_the_payload_once unit dead_redis_manager None get_a payload dead_world
           (generateCacheKey get_a (defaultConfig dead_redis_manager))).
  - left. reflexivity.
  - reflexivity.
  - reflexivity.
  - intros v e' H. cbn in H. injection H as <- _. reflexivity.
Defined.

(** A route with a custom key generator caches every method, and two
    requests the generator maps to the same key share one entry whatever
    their method, path and parameters: on the in-process manager, the truthy
    payload the handler answers to the first is served to the second from
    the store, without [next], while the entry lives. *)
Theorem custom_generator_shares_entries :
  forall options config generator r1 r2 P (e : Env NodeCache.cache) later downstream,
    config_customKeyGenerator config = Some generator ->
    generator r1 = generator r2 ->
    truthy P = true ->
    within_ceiling (store e) ->
    obj_get (generator r1) (NodeCache.data (store e)) = None ->
    NodeCache.expired later
      (NodeCache.wrap (store e) (now e) P
         (duration (merge_config (defaultConfig (AdvancedCache_node options)) config)))
    = false ->
    exists e1,
      middleware (AdvancedCache_node options) config r1 [P] (world_of e)
      = (Ok tt,
         {| env := e1;
            res := {| json_wrappers :=
                        [(generator r1,
                          duration (merge_config (defaultConfig (AdvancedCache_node options))
                                      config))];
                      sent := [P] |};
            next_calls := 1;
            pipeline_errors := [] |})
      /\ middleware (AdvancedCache_node options) config r2 downstream
           (world_of (at_time e1 later))
         = (Ok tt,
            {| env := at_time e1 later;
               res := {| json_wrappers := []; sent := [P] |};
               next_calls := 0;
               pipeline_errors := [] |}).
Proof.
  intros options config generator r1 r2 P e later downstream Hg Hsame HP Hin Habsent Hlive.
  set (this := AdvancedCache_node options) in *.
  set (dur := duration (merge_config (defaultConfig this) config)) in *.
  pose proof (middleware_key_custom this config generator r1 Hg) as Hk1.
  pose proof (middleware_key_custom this config generator r2 Hg) as Hk2.
  rewrite <- Hsame in Hk2.
  destruct (middleware_miss_paths this config r1) as [_ Hmiss].
  destruct (node_adapter_set_stores (generator r1) P dur e Hin)
    as (e1 & Hset & _ & Hget1 & _ & _).
  exists e1. split.
  - rewrite (Hmiss [P] (world_of e) (generator r1) Hk1 JUndefined e); [| | reflexivity].
    + fold dur.
      rewrite (miss_path_stores this (generator r1) dur P (with_env (world_of e) e) e1
                 eq_refl Hset).
      reflexivity.
    + unfold this. cbn [AdvancedCache_node cacheAdapter CacheAdapter.get
                        NodeCacheAdapter.adapter world_of env].
      unfold NodeCacheAdapter.get, NodeCache.get. rewrite Habsent. reflexivity.
  - apply (middleware_hit_aux this config r2 downstream _ (generator r1) P (at_time e1 later));
      [exact Hk2 | | exact HP | reflexivity].
    unfold this. cbn [AdvancedCache_node cacheAdapter CacheAdapter.get
                      NodeCacheAdapter.adapter world_of env].
    rewrite (node_cache_get_cases (generator r1) (at_time e1 later) _ Hget1).
    cbn [at_time now]. rewrite Hlive. reflexivity.
Qed.

Lemma custom_generator_shares_entries_witness :
  exists e1,
    middleware (AdvancedCache_node example_options) path_keyed post_a [payload]
      (world_of empty_env)
    = (Ok tt,
       {| env := e1;
          res := {| json_wrappers := [("/a", Some 60)]; sent := [payload] |};
          next_calls := 1;
          pipeline_errors := [] |})
    /\ middleware (AdvancedCache_node example_options) path_keyed get_a [JNum 5]
         (world_of (at_time e1 30000))
       = (Ok tt,
          {| env := at_time e1 30000;
             res := {| json_wrappers := []; sent := [payload] |};
             next_calls := 0;
             pipeline_errors := [] |}).
Proof.
  apply (custom_generator_shares_entries example_options path_keyed Request.path
           post_a get_a payload empty_env 30000 [JNum 5]); try reflexivity.
  right. cbn. lia.
Defined.

(** ** Invalidation on the networked manager *)

Section NetworkedInvalidation.
Context {C : Type}.
Variable JSON_parse : string -> outcome jsval.
Variable client : Redis.client C.
Variable options : CacheOptions.

Lemma redis_del_returns key (e : Env C) :
  exists e', RedisCacheAdapter.del client key e = (Ok tt, e').
Proof.
  unfold RedisCacheAdapter.del, try_catch, bind.
  destruct (Redis.del client key e) as [[n|err] e1]; cbn;
    unfold console_error, modify, ret; eauto.
Qed.

(** As no deletion is rejected, [Promise.all] over the deletions is the
    deletions one after the other. *)
Lemma delete_matching_all_stateless pattern keys (e : Env C) :
  RegExp.global pattern = false -> RegExp.sticky pattern = false ->
  delete_matching_all (AdvancedCache_redis JSON_parse client options) pattern keys e
  = for_each (filter (matches pattern) keys) (RedisCacheAdapter.del client) e.
Proof.
  intros Hg Hs. revert e. induction keys as [|k r IH]; intros e; [reflexivity|].
  cbn [delete_matching_all]. rewrite (test_stateless pattern k Hg Hs).
  cbn [AdvancedCache_redis cacheAdapter CacheAdapter.del RedisCacheAdapter.adapter filter].
  destruct (matches pattern k).
  - cbn [for_each]. unfold bind.
    destruct (redis_del_returns k e) as (e' & ->). apply IH.
  - cbn [ret]. apply IH.
Qed.

Lemma for_each_redis_del_returns keys (e : Env C) :
  exists e', for_each keys (RedisCacheAdapter.del client) e = (Ok tt, e').
Proof.
  revert e. induction keys as [|k r IH]; intros e; [exists e; reflexivity|].
  cbn [for_each]. unfold bind. destruct (redis_del_returns k e) as (e' & ->). apply IH.
Qed.

Lemma delete_matching_all_returns pattern keys (e : Env C) :
  exists e',
    delete_matching_all (AdvancedCache_redis JSON_parse client options) pattern keys e
    = (Ok tt, e').
Proof.
  revert pattern e. induction keys as [|k r IH]; intros pattern e; [exists e; reflexivity|].
  cbn [delete_matching_all]. destruct (RegExp.test pattern k) as [matched pattern'].
  cbn [AdvancedCache_redis cacheAdapter CacheAdapter.del RedisCacheAdapter.adapter].
  destruct matched.
  - destruct (redis_del_returns k e) as (e' & ->). apply IH.
  - cbn [ret]. apply IH.
Qed.
End NetworkedInvalidation.

(** [clearCache] on the Redis manager never throws, whatever the client
    does. When the client cannot list the keys nothing is deleted and the
    failure is only logged, and so is a failing [flushall]; when it lists
    them and the pattern has neither the [g] nor the [y] flag, the adapter's
    [del] is called for exactly the keys the pattern matches, in the order
    the client listed them. *)
Theorem clearCache_on_redis_manager :
  forall C (JSON_parse : string -> outcome jsval) (client : Redis.client C) options
         pattern (e : Env C),
    (exists e',
        clearCache (AdvancedCache_redis JSON_parse client options) pattern e = (Ok tt, e'))
    /\ (forall p err e1,
           pattern = Some p ->
           Redis.keys client "*" e = (Throw err, e1) ->
           clearCache (AdvancedCache_redis JSON_parse client options) pattern e
           = (Ok tt, logged "Redis keys error:" err e1))
    /\ (forall p keys e1,
           pattern = Some p ->
           RegExp.global p = false ->
           RegExp.sticky p = false ->
           Redis.keys client "*" e = (Ok keys, e1) ->
           clearCache (AdvancedCache_redis JSON_parse client options) pattern e
           = for_each (filter (matches p) keys) (RedisCacheAdapter.del client) e1)
    /\ (forall err e1,
           pattern = None ->
           Redis.flushall client e = (Throw err, e1) ->
           clearCache (AdvancedCache_redis JSON_parse client options) pattern e
           = (Ok tt, logged "Redis flushAll error:" err e1)).
Proof.
  intros C JSON_parse client options pattern e.
  split; [|split; [|split]].
  - destruct pattern as [p|]; unfold clearCache;
      cbn [AdvancedCache_redis cacheAdapter isAsync CacheAdapter.keys CacheAdapter.flushAll
           RedisCacheAdapter.adapter].
    + unfold bind, RedisCacheAdapter.keys, try_catch.
      destruct (Redis.keys client "*" e) as [[ks|err] e1].
      * apply delete_matching_all_returns.
      * cbn. unfold console_error, modify, ret. eauto.
    + unfold RedisCacheAdapter.flushAll, try_catch.
      destruct (Redis.flushall client e) as [[[]|err] e1]; cbn;
        unfold console_error, modify, ret; eauto.
  - intros p err e1 -> Hk. unfold clearCache.
    cbn [AdvancedCache_redis cacheAdapter isAsync CacheAdapter.keys RedisCacheAdapter.adapter].
    unfold bind, RedisCacheAdapter.keys, try_catch. rewrite Hk. reflexivity.
  - intros p keys e1 -> Hg Hs Hk. unfold clearCache.
    cbn [AdvancedCache_redis cacheAdapter isAsync CacheAdapter.keys RedisCacheAdapter.adapter].
    unfold bind, RedisCacheAdapter.keys, try_catch. rewrite Hk.
    apply delete_matching_all_stateless; assumption.
  - intros err e1 -> Hf. unfold clearCache.
    cbn [AdvancedCache_redis cacheAdapter CacheAdapter.flushAll RedisCacheAdapter.adapter].
    unfold RedisCacheAdapter.flushAll, try_catch. rewrite Hf. reflexivity.
Qed.

(** ** The connection status *)

Lemma close_connection_kept m c :
  RedisCacheAdapter.state c <> RedisCacheAdapter.Ended ->
  connection_kept m c ->
  connection_kept m
    (let c := RedisCacheAdapter.on_close c in
     let times := RedisCacheAdapter.retryAttempts c + 1 in
     match RedisCacheAdapter.retryStrategy m times (RedisCacheAdapter.conn_console c) with
     | (Ok (Some delay), out) =>
         {| RedisCacheAdapter.state := RedisCacheAdapter.Reconnecting delay;
            RedisCacheAdapter.retryAttempts := times;
            RedisCacheAdapter.isConnected := RedisCacheAdapter.isConnected c;
            RedisCacheAdapter.conn_console := out |}
     | (_, out) =>
         {| RedisCacheAdapter.state := RedisCacheAdapter.Ended;
            RedisCacheAdapter.retryAttempts := times;
            RedisCacheAdapter.isConnected := RedisCacheAdapter.isConnected c;
            RedisCacheAdapter.conn_console := out |}
     end).
Proof.
  intros Hlive (H2 & H3 & H4). cbv zeta.
  unfold RedisCacheAdapter.retryStrategy, RedisCacheAdapter.exceeds.
  cbn [RedisCacheAdapter.on_close RedisCacheAdapter.retryAttempts
       RedisCacheAdapter.conn_console RedisCacheAdapter.isConnected].
  destruct m as [n|].
  - destruct (H4 n eq_refl) as [Ha _]. specialize (Ha Hlive).
    destruct (RedisCacheAdapter.retryAttempts c + 1 >? n) eqn:Hex.
    + rewrite Z.gtb_ltb in Hex. apply Z.ltb_lt in Hex.
      unfold connection_kept. cbn. split; [|split; [lia|]].
      * intros _. split; [reflexivity|]. exists n. split; [reflexivity | exact Hex].
      * intros n' Hn'. injection Hn' as <-. split; [congruence | lia].
    + rewrite Z.gtb_ltb in Hex. apply Z.ltb_ge in Hex.
      unfold connection_kept. cbn. split; [discriminate|].
      split; [lia|]. intros n' Hn'. injection Hn' as <-. lia.
  - unfold connection_kept. cbn. split; [discriminate|].
    split; [lia|]. intros n' Hn'. discriminate.
Qed.

Lemma step_connection_kept m s c :
  connection_kept m c -> connection_kept m (RedisCacheAdapter.step m s c).
Proof.
  intros H. unfold RedisCacheAdapter.step.
  destruct s as [| |err| |err]; try exact H;
    destruct (RedisCacheAdapter.state c) eqn:Hst; try exact H;
    try (apply close_connection_kept; [congruence | exact H]);
    destruct H as (H2 & H3 & H4); unfold connection_kept; cbn; rewrite ?Hst;
    (split; [discriminate|]); (split; [lia|]);
    intros n Hn; destruct (H4 n Hn) as [Ha Hb]; rewrite Hst in Ha;
    try (split; [intros _; apply Ha; discriminate | exact Hb]); lia.
Qed.

Lemma run_connection_kept m signals c :
  connection_kept m c -> connection_kept m (RedisCacheAdapter.run m signals c).
Proof.
  revert c. induction signals as [|s r IH]; intros c H; [exact H|].
  cbn [RedisCacheAdapter.run fold_left]. apply IH, step_connection_kept, H.
Qed.

Lemma new_connection_kept m : connection_kept m RedisCacheAdapter.new.
Proof.
  unfold connection_kept. cbn. split; [discriminate|]. split; [lia|]. intros n _. lia.
Qed.

Lemma run_snoc m signals s c :
  RedisCacheAdapter.run m (signals ++ [s]) c
  = RedisCacheAdapter.step m s (RedisCacheAdapter.run m signals c).
Proof. unfold RedisCacheAdapter.run. rewrite fold_left_app. reflexivity. Qed.

(** The adapter reports a connection only after a [connect] event that no
    [error] and no [close] event has followed. *)
Lemma connected_after_connect m signals :
  RedisCacheAdapter.isConnected (RedisCacheAdapter.run m signals RedisCacheAdapter.new) = true ->
  exists before after,
    signals = (before ++ RedisCacheAdapter.Connect :: after)%list
    /\ forallb quiet after = true.
Proof.
  induction signals as [|s l IH] using rev_ind; [discriminate|].
  rewrite run_snoc.
  pose proof (run_connection_kept m l _ (new_connection_kept m)) as (Hend & _).
  set (c := RedisCacheAdapter.run m l RedisCacheAdapter.new) in *.
  assert (Hquiet : RedisCacheAdapter.isConnected c = true -> quiet s = true ->
                   exists before after,
                     (l ++ [s])%list = (before ++ RedisCacheAdapter.Connect :: after)%list
                     /\ forallb quiet after = true).
  { intros Hc Hs. destruct (IH Hc) as (before & after & -> & Hq).
    exists before, (after ++ [s])%list. rewrite <- app_assoc. split; [reflexivity|].
    rewrite forallb_app, Hq. cbn. rewrite Hs. reflexivity. }
  unfold RedisCacheAdapter.step.
  destruct s as [| |err| |err].
  - intros _. exists l, []. split; reflexivity.
  - destruct (RedisCacheAdapter.state c) eqn:Hst; cbn; intros Hc; apply Hquiet; auto.
  - destruct (RedisCacheAdapter.state c) eqn:Hst; cbn; try discriminate.
    intros Hc. destruct (Hend eq_refl) as [Hf _]. congruence.
  - destruct (RedisCacheAdapter.state c) eqn:Hst;
      try (intros Hc; destruct (Hend eq_refl) as [Hf _]; congruence);
      cbv zeta;
      match goal with
      | |- context [RedisCacheAdapter.retryStrategy ?a ?b ?d] =>
          destruct (RedisCacheAdapter.retryStrategy a b d) as [[[wait|]|e0] out]
      end; cbn; discriminate.
  - cbn. intros Hc. apply Hquiet; auto.
Qed.

(** From the constructor on and under every sequence of signals:
    [getConnectionStatus] answers true only when a [connect] event came and
    neither an [error] nor a [close] event has come since; a client that
    has ended is reported not connected, and it can only have ended
    because the attempt count exceeded a numeric ceiling (with a ceiling
    that is not a number it never ends); the attempt count is never
    negative and never more than one above the ceiling. *)
Theorem connection_status_is_sound :
  forall maxReconnectAttempts signals,
    let c := RedisCacheAdapter.run maxReconnectAttempts signals RedisCacheAdapter.new in
    (getConnectionStatus c = true ->
     exists before after,
       signals = (before ++ RedisCacheAdapter.Connect :: after)%list
       /\ forallb quiet after = true)
    /\ (RedisCacheAdapter.state c = RedisCacheAdapter.Ended ->
        getConnectionStatus c = false
        /\ exists m, maxReconnectAttempts = Some m /\ m < RedisCacheAdapter.retryAttempts c)
    /\ (maxReconnectAttempts = None ->
        RedisCacheAdapter.state c <> RedisCacheAdapter.Ended)
    /\ 0 <= RedisCacheAdapter.retryAttempts c
    /\ (forall m, maxReconnectAttempts = Some m ->
                  RedisCacheAdapter.retryAttempts c <= Z.max m 0 + 1).
Proof.
  intros m signals c.
  pose proof (run_connection_kept m signals _ (new_connection_kept m)) as H.
  fold c in H. destruct H as (H2 & H3 & H4). unfold getConnectionStatus.
  split; [apply connected_after_connect|].
  split; [exact H2|]. split; [|split; [exact H3|]].
  - intros Hnone Hend. destruct (H2 Hend) as (_ & n & Hn & _). congruence.
  - intros n Hn. apply (H4 n Hn).
Qed.

Lemma connection_status_is_sound_witness :
  exists before after,
    [RedisCacheAdapter.Connect; RedisCacheAdapter.Close; RedisCacheAdapter.Connect;
     RedisCacheAdapter.Established]
    = (before ++ RedisCacheAdapter.Connect :: after)%list
    /\ forallb quiet after = true.
Proof.
  apply (proj1 (connection_status_is_sound (Some 50)
                  [RedisCacheAdapter.Connect; RedisCacheAdapter.Close;
                   RedisCacheAdapter.Connect; RedisCacheAdapter.Established])).
  reflexivity.
Defined.

(** ** How long the client keeps trying *)

Lemma delays_up_to_step t :
  1 <= t -> delays_up_to t = delays_up_to (t - 1) + Z.min (t * 100) 3000.
Proof.
  intros Ht. unfold delays_up_to.
  destruct (Z.leb_spec t 30); destruct (Z.leb_spec (t - 1) 30); try lia.
  assert (E : t = 31) by lia. subst t. reflexivity.
Qed.

Lemma backoff_total_from m t fuel :
  1 <= t <= m + 1 ->
  m + 2 - t <= Z.of_nat fuel ->
  backoff_total (Some m) t fuel = delays_up_to m - delays_up_to (t - 1).
Proof.
  revert t. induction fuel as [|fuel IH]; intros t Ht Hfuel; [lia|].
  cbn [backoff_total]. unfold RedisCacheAdapter.retryStrategy, RedisCacheAdapter.exceeds.
  destruct (t >? m) eqn:Hex; rewrite Z.gtb_ltb in Hex.
  - apply Z.ltb_lt in Hex. cbn. replace (t - 1) with m by lia. lia.
  - apply Z.ltb_ge in Hex. cbn [fst ret]. rewrite IH by lia.
    replace (t + 1 - 1) with t by lia. rewrite (delays_up_to_step t) by lia. lia.
Qed.

(** When no attempt succeeds, the client with a ceiling of [m] attempts
    waits through exactly [m] delays before the strategy answers stop, and
    the delays add up to [50 m (m + 1)] milliseconds for [m] up to 30 and to
    [46500 + 3000 (m - 30)] beyond: 106.5 seconds with the default ceiling
    of 50 attempts. *)
Theorem backoff_adds_up :
  forall m fuel,
    0 <= m ->
    m + 1 <= Z.of_nat fuel ->
    backoff_total (Some m) 1 fuel = delays_up_to m
    /\ fst (RedisCacheAdapter.retryStrategy (Some m) (m + 1) []) = Ok None
    /\ (forall t, 1 <= t <= m ->
          fst (RedisCacheAdapter.retryStrategy (Some m) t [])
          = Ok (Some (Z.min (t * 100) 3000))).
Proof.
  intros m fuel Hm Hfuel. split; [|split].
  - rewrite backoff_total_from by lia. unfold delays_up_to at 2. cbn. lia.
  - unfold RedisCacheAdapter.retryStrategy, RedisCacheAdapter.exceeds.
    replace (m + 1 >? m) with true by (symmetry; rewrite Z.gtb_ltb; apply Z.ltb_lt; lia).
    reflexivity.
  - intros t Ht. unfold RedisCacheAdapter.retryStrategy, RedisCacheAdapter.exceeds.
    replace (t >? m) with false by (symmetry; rewrite Z.gtb_ltb; apply Z.ltb_ge; lia).
    reflexivity.
Qed.

Lemma backoff_adds_up_witness :
  backoff_total (Some 50) 1 60 = 106500.
Proof.
  exact (proj1 (backoff_adds_up 50 60 ltac:(lia) ltac:(lia))).
Defined.

(** ** What invalidation never does, and what it achieves *)

Lemma scan_no_match m s i fuel :
  (forall j, m s j = None) -> RegExp.scan m s i fuel = None.
Proof.
  intros H. revert i. induction fuel as [|fuel IH]; intros i; [reflexivity|].
  cbn [RegExp.scan]. rewrite H. apply IH.
Qed.

(** A pattern object, whatever its flags and its [lastIndex], does not
    pass a key its expression has no match in. *)
Lemma test_no_match pattern key :
  (forall i, RegExp.matcher pattern key i = None) ->
  fst (RegExp.test pattern key) = false.
Proof.
  intros H. unfold RegExp.test, RegExp.exec. cbv zeta.
  rewrite H, scan_no_match by exact H.
  destruct (String.length key <? _)%nat; destruct (RegExp.sticky pattern); reflexivity.
Qed.

Lemma test_matcher pattern key :
  RegExp.matcher (snd (RegExp.test pattern key)) = RegExp.matcher pattern.
Proof.
  unfold RegExp.test, RegExp.exec. cbv zeta.
  match goal with |- context [match ?found with Some e => _ | None => _ end] =>
    destruct found end;
    destruct (RegExp.global pattern || RegExp.sticky pattern); reflexivity.
Qed.

Lemma delete_matching_safe options keys :
  forall pattern (e : Env NodeCache.cache),
    NoDup (obj_keys (NodeCache.data (store e))) ->
    exists e',
      delete_matching (AdvancedCache_node options) pattern keys e = (Ok tt, e')
      /\ console e' = console e
      /\ NoDup (obj_keys (NodeCache.data (store e')))
      /\ (forall k, (forall i, RegExp.matcher pattern k i = None) ->
                    obj_get k (NodeCache.data (store e'))
                    = obj_get k (NodeCache.data (store e)))
      /\ (forall k w, obj_get k (NodeCache.data (store e')) = Some w ->
                      obj_get k (NodeCache.data (store e)) = Some w).
Proof.
  induction keys as [|key rest IH]; intros pattern e Hnd.
  - exists e. repeat split; auto.
  - cbn [delete_matching].
    pose proof (test_matcher pattern key) as Hm.
    pose proof (test_no_match pattern key) as Hno.
    destruct (RegExp.test pattern key) as [matched pattern']. cbn [fst snd] in Hm, Hno.
    unfold bind. cbn [AdvancedCache_node cacheAdapter CacheAdapter.del
                      NodeCacheAdapter.adapter].
    destruct matched.
    + rewrite node_adapter_del.
      destruct (IH pattern' (set_store e (NodeCache.with_data (store e)
                               (obj_delete key (NodeCache.data (store e))))))
        as (e' & Hrun & Hcons & Hnd' & Hkeep & Hsub).
      { cbn. apply obj_delete_NoDup, Hnd. }
      cbn [set_store store console NodeCache.with_data NodeCache.data] in *.
      exists e'. split; [exact Hrun|]. split; [exact Hcons|]. split; [exact Hnd'|]. split.
      * intros k Hk. rewrite Hkeep by (rewrite Hm; exact Hk).
        apply obj_get_delete_other. intros ->. specialize (Hno Hk). discriminate.
      * intros k w Hk. apply Hsub in Hk.
        destruct (String.eqb_spec k key) as [->|Hne].
        -- rewrite obj_get_delete in Hk by exact Hnd. discriminate.
        -- rewrite obj_get_delete_other in Hk by exact Hne. exact Hk.
    + cbn [ret].
      destruct (IH pattern' e Hnd) as (e' & Hrun & Hcons & Hnd' & Hkeep & Hsub).
      exists e'. split; [exact Hrun|]. split; [exact Hcons|]. split; [exact Hnd'|]. split.
      * intros k Hk. apply Hkeep. rewrite Hm. exact Hk.
      * exact Hsub.
Qed.

(** Whatever the flags and the [lastIndex] of the pattern object,
    [clearCache] on the in-process store returns normally, logs nothing,
    leaves every entry alone in whose key the expression has no match, and
    neither adds an entry nor changes one: a stateful pattern can make it
    delete too little, never too much. *)
Theorem clearCache_deletes_matches_only :
  forall options pattern (e : Env NodeCache.cache),
    NoDup (obj_keys (NodeCache.data (store e))) ->
    exists e',
      clearCache (AdvancedCache_node options) (Some pattern) e = (Ok tt, e')
      /\ console e' = console e
      /\ (forall k, (forall i, RegExp.matcher pattern k i = None) ->
                    obj_get k (NodeCache.data (store e'))
                    = obj_get k (NodeCache.data (store e)))
      /\ (forall k w, obj_get k (NodeCache.data (store e')) = Some w ->
                      obj_get k (NodeCache.data (store e)) = Some w).
Proof.
  intros options pattern e Hnd. unfold clearCache.
  cbn [AdvancedCache_node cacheAdapter isAsync CacheAdapter.keys NodeCacheAdapter.adapter].
  unfold bind, NodeCacheAdapter.keys, NodeCache.keys, gets.
  destruct (delete_matching_safe options (obj_keys (NodeCache.data (store e))) pattern e Hnd)
    as (e' & Hrun & Hcons & _ & Hkeep & Hsub).
  exists e'. auto.
Qed.

Lemma clearCache_deletes_matches_only_witness :
  exists e',
    clearCache roomy_manager (Some (GET_a_pattern true))
      (roomy_env ["GET /a|1"; "GET /a|2"; "GET /b|1"]) = (Ok tt, e')
    /\ obj_has "GET /b|1" (NodeCache.data (store e')) = true.
Proof.
  destruct (clearCache_deletes_matches_only roomy_options (GET_a_pattern true)
              (roomy_env ["GET /a|1"; "GET /a|2"; "GET /b|1"]))
    as (e' & Hrun & _ & Hkeep & _).
  - repeat constructor; cbn; intuition discriminate.
  - exists e'. split; [exact Hrun|]. unfold obj_has. rewrite Hkeep; [reflexivity|].
    intros [|i]; reflexivity.
Defined.

Lemma obj_get_filtered {A} (keep : string * A -> bool) k (o : obj A) :
  (forall v, keep (k, v) = false) -> obj_get k (filter keep o) = None.
Proof.
  intros H. induction o as [|[k0 v0] r IH]; [reflexivity|]. cbn [filter].
  destruct (keep (k0, v0)) eqn:E; [|exact IH]. cbn [obj_get].
  destruct (String.eqb_spec k0 k) as [->|_]; [|exact IH]. rewrite H in E. discriminate.
Qed.

(** An invalidated entry is not served again. On the in-process manager,
    after [clearCache] without a pattern, or with a pattern without the [g]
    and [y] flags that matches the request's key, the middleware finds
    nothing under that key: the next GET request for it runs the handler,
    and the truthy payload the handler answers is what is sent. *)
Theorem invalidated_entry_is_not_served :
  forall options config req pattern (e : Env NodeCache.cache) P,
    Request.method req = "GET" ->
    NoDup (obj_keys (NodeCache.data (store e))) ->
    within_ceiling (store e) ->
    match pattern with
    | Some p =>
        RegExp.global p = false /\ RegExp.sticky p = false
        /\ matches p (generateCacheKey req
                        (merge_config (defaultConfig (AdvancedCache_node options)) config))
           = true
    | None => True
    end ->
    exists e' w',
      clearCache (AdvancedCache_node options) pattern e = (Ok tt, e')
      /\ middleware (AdvancedCache_node options) config req [P] (world_of e') = (Ok tt, w')
      /\ next_calls w' = 1%nat
      /\ sent (res w') = [P].
Proof.
  intros options config req pattern e P Hm Hnd Hin Hp.
  set (this := AdvancedCache_node options) in *.
  set (key := generateCacheKey req (merge_config (defaultConfig this) config)) in *.
  set (dur := duration (merge_config (defaultConfig this) config)).
  assert (Hclear : exists e',
             clearCache this pattern e = (Ok tt, e')
             /\ obj_get key (NodeCache.data (store e')) = None
             /\ within_ceiling (store e')).
  { destruct pattern as [p|].
    - destruct Hp as (Hg & Hs & Hmatch). unfold clearCache, this.
      cbn [AdvancedCache_node cacheAdapter isAsync CacheAdapter.keys NodeCacheAdapter.adapter].
      unfold bind, NodeCacheAdapter.keys, NodeCache.keys, gets.
      rewrite (delete_matching_stateless options p _ e Hg Hs).
      pose proof (delete_fold_filter p (NodeCache.data (store e)) [] Hnd) as H.
      cbn [app] in H. rewrite H by (intros k _ []).
      eexists. split; [reflexivity|].
      cbn [set_store store NodeCache.with_data NodeCache.data]. split.
      + apply obj_get_filtered. intros v. cbn [fst]. rewrite Hmatch. reflexivity.
      + apply within_ceiling_shrink; [exact Hin | apply filter_length_le].
    - eexists. split; [reflexivity|].
      cbn [set_store store NodeCache.with_data NodeCache.data]. split; [reflexivity|].
      apply within_ceiling_shrink; [exact Hin | cbn; lia]. }
  destruct Hclear as (e' & Hrun & Habsent & Hin').
  pose proof (middleware_key_of_GET this config req Hm) as Hk. fold key in Hk.
  destruct (middleware_miss_paths this config req) as [_ Hmiss].
  destruct (node_adapter_set_stores key P dur e' Hin') as (e1 & Hset & _).
  exists e'. eexists. split; [exact Hrun|]. split.
  - rewrite (Hmiss [P] (world_of e') key Hk JUndefined e'); [| | reflexivity].
    + fold dur.
      rewrite (miss_path_stores this key dur P (with_env (world_of e') e') e1 eq_refl Hset).
      reflexivity.
    + unfold this. cbn [AdvancedCache_node cacheAdapter CacheAdapter.get
                        NodeCacheAdapter.adapter world_of env].
      unfold NodeCacheAdapter.get, NodeCache.get. rewrite Habsent. reflexivity.
  - split; reflexivity.
Qed.

Lemma invalidated_entry_is_not_served_witness :
  exists e' w',
    clearCache (AdvancedCache_node example_options) (Some (prefix_pattern "GET|/a|")) warm_env
    = (Ok tt, e')
    /\ middleware (AdvancedCache_node example_options) None get_a [JNum 5] (world_of e')
       = (Ok tt, w')
    /\ next_calls w' = 1%nat
    /\ sent (res w') = [JNum 5].
Proof.
  apply (invalidated_entry_is_not_served example_options None get_a
           (Some (prefix_pattern "GET|/a|")) warm_env (JNum 5)).
  - reflexivity.
  - repeat constructor. intros [].
  - right. cbn. lia.
  - split; [reflexivity | split; reflexivity].
Defined.
